(** * Decloud time-series pre-processor: pairing, compaction and pixel fusion

    A shallow embedding of [app/otbDecloudTimeSeriesPreProcessor.cxx]:

    - [PixelFunction] : the functor that fuses one stacked SAR pixel and one
      stacked optical pixel into the output pixel ([operator()], [GetPixel],
      [IsNoData], [OutputSize], [operator==], [operator!=]);
    - [DecloudTimeSeriesPreProcessor] : the application, of which the
      candidate-pair construction ([GetTimestampsWithIndices],
      [SortTimestampsWithIndices], [GetCandidatesPairs]), the index
      compaction ([InstantiateSources]) and the slicer set-up of
      [InitFilter] are modelled.

    Conventions.
    - [unsigned int] is [N] with the 32-bit wrap-around written out ([wrap]).
    - [float] is IEEE-754 binary32, given by [spec_float] at precision 24 and
      maximal exponent 128; [<], [<=], [!=], [-] and [std::abs] are the
      operations of [SpecFloat] at that format.
    - An [itk::VariableLengthVector<float>] is a list of cells; a cell that
      was allocated by [SetSize] and never written is [None].
    - Reading or writing outside a vector, and reading a cell that was never
      written, have no defined result in C++: the model returns [None].
    - A C++ exception is the left injection of a sum. *)

From Stdlib Require Import String Ascii.
From Stdlib Require Import List ZArith NArith Lia Bool.
From Stdlib Require Import Permutation Sorted SpecFloat.
Import ListNotations.

Set Implicit Arguments.

(** ** Machine numbers *)

Definition uint_range : N := 4294967296.

(** Reduction of an [unsigned int] result modulo 2^32. *)
Definition wrap (x : N) : N := (x mod uint_range)%N.

(** [a - b] on [unsigned int]. *)
Definition usub (a b : N) : N := wrap (a + (uint_range - wrap b))%N.

Abbreviation float32 := spec_float.

Definition prec32 : Z := 24.
Definition emax32 : Z := 128.

Definition fsub (a b : float32) : float32 := SFsub prec32 emax32 a b.
Definition fabs (a : float32) : float32 := SFabs a.
Definition flt (a b : float32) : bool := SFltb a b.
Definition fle (a b : float32) : bool := SFleb a b.
Definition fgt (a b : float32) : bool := SFltb b a.
Definition fne (a b : float32) : bool := negb (SFeqb a b).

(** The binary32 value of an integer literal (round to nearest, ties to
    even). *)
Definition Z2F (z : Z) : float32 := binary_normalize prec32 emax32 z 0 false.

(** An ordinary number: neither an infinity nor a NaN. *)
Definition is_finite (x : float32) : bool :=
  match x with
  | S754_zero _ | S754_finite _ _ _ => true
  | S754_infinity _ | S754_nan => false
  end.

Definition is_nan (x : float32) : bool :=
  match x with
  | S754_nan => true
  | _ => false
  end.

(** The place of a float in the order of [SFcompare]: sign class, then
    exponent, then mantissa. *)
Definition rank (x : float32) : Z * Z * Z :=
  match x with
  | S754_infinity true => (-2, 0, 0)%Z
  | S754_finite true m e => (-1, - e, Zneg m)%Z
  | S754_zero _ => (0, 0, 0)%Z
  | S754_finite false m e => (1, e, Zpos m)%Z
  | S754_infinity false => (2, 0, 0)%Z
  | S754_nan => (3, 0, 0)%Z
  end.

Definition lex_lt (a b : Z * Z * Z) : Prop :=
  let '(a1, a2, a3) := a in
  let '(b1, b2, b3) := b in
  (a1 < b1 \/ (a1 = b1 /\ (a2 < b2 \/ (a2 = b2 /\ a3 < b3))))%Z.

(** ** Partial computations *)

Notation "x <- e ;; k" :=
  (match e with Some x => k | None => None end)
  (at level 61, e at next level, right associativity).

(** ** Exceptions *)

Inductive exception : Type :=
| stof_exception   (* [std::invalid_argument] or [std::out_of_range], thrown by [std::stof] *)
| list_exception   (* [itk::ExceptionObject], thrown by [ObjectList::GetNthElement] *)
| fatal_exception. (* [itk::ExceptionObject], thrown by [otbAppLogFATAL] *)

Abbreviation result A := (exception + A)%type.

(** Modelled from the spec: the macro [otbAppLogFATAL] belongs to the OTB
    framework and is not in the sources; by sections 4.2 and 7 of the
    specification it raises the fatal error, which ends the run. *)
Definition otbAppLogFATAL (A : Type) : result A := inl fatal_exception.

Notation "x <~ e ;; k" :=
  (match e with inr x => k | inl err => inl err end)
  (at level 61, e at next level, right associativity).

Notation "' pat <~ e ;; k" :=
  (match e with inr pat => k | inl err => inl err end)
  (at level 61, pat pattern, e at next level, right associativity).

(** ** Variable-length vectors *)

Module Vec.

Abbreviation cell := (option float32).

(** [itk::VariableLengthVector<float>]. *)
Abbreviation t := (list cell).

(** A vector all of whose cells hold a value. *)
Definition of_list (vs : list float32) : t := map Some vs.

Definition GetSize (v : t) : N := N.of_nat (length v).

(** [SetSize] on a fresh vector: [n] cells, none written yet. *)
Definition SetSize (n : N) : t := repeat None (N.to_nat n).

(** [v[i]] read. *)
Definition get (v : t) (i : N) : option float32 :=
  match nth_error v (N.to_nat i) with
  | Some (Some x) => Some x
  | _ => None
  end.

Fixpoint upd (v : t) (n : nat) (c : cell) : option t :=
  match v, n with
  | [], _ => None
  | _ :: v', O => Some (c :: v')
  | c0 :: v', S n' =>
      match upd v' n' c with
      | Some w => Some (c0 :: w)
      | None => None
      end
  end.

(** [v[i] = x]. *)
Definition set (v : t) (i : N) (x : float32) : option t :=
  upd v (N.to_nat i) (Some x).

End Vec.

(** ** The fusion functor *)

Abbreviation IndicesPair := (N * N)%type.
Abbreviation IndicesPairList := (list IndicesPair).

Module PixelFunction.

(** The private members of [PixelFunction], set by [SetParameters]. *)
Record t : Type := SetParameters {
  m_Pairs : IndicesPairList;
  m_SARNbBands : N;
  m_OptNbBands : N;
  m_SARNoDataValue : float32;
  m_OptNoDataValue : float32;
  m_NbOutputImages : N
}.

Definition operator_ne (self other : t) : bool := false.

Definition operator_eq (self other : t) : bool :=
  negb (operator_ne self other).

Definition OutputSize (self : t) : N :=
  wrap (m_NbOutputImages self * wrap (m_SARNbBands self + m_OptNbBands self)).

(** The loop of [GetPixel], [n] iterations from [i]. *)
Fixpoint GetPixel_loop (n : nat) (inPix : Vec.t) (i outBand : N)
    (pix : Vec.t) : option Vec.t :=
  match n with
  | O => Some pix
  | S n' =>
      x <- Vec.get inPix i ;;
      pix' <- Vec.set pix outBand x ;;
      GetPixel_loop n' inPix (wrap (i + 1)) (wrap (outBand + 1)) pix'
  end.

(** [for (i = start; i < start + nbBands; i++)] runs [end - start] times
    when [start < end] and not at all otherwise, which is the truncated
    subtraction of [N]. *)
Definition GetPixel (inPix : Vec.t) (idx nbBands : N) : option Vec.t :=
  let pix := Vec.SetSize nbBands in
  let start := wrap (idx * nbBands) in
  GetPixel_loop (N.to_nat (wrap (start + nbBands) - start))
    inPix start 0%N pix.

Fixpoint IsNoData_loop (n : nat) (pix : Vec.t) (i : N)
    (noDataValue : float32) : option bool :=
  match n with
  | O => Some true
  | S n' =>
      x <- Vec.get pix i ;;
      if fne x noDataValue then Some false
      else IsNoData_loop n' pix (wrap (i + 1)) noDataValue
  end.

Definition IsNoData (pix : Vec.t) (noDataValue : float32) : option bool :=
  IsNoData_loop (N.to_nat (Vec.GetSize pix)) pix 0%N noDataValue.

(** The state of [operator()]: the output pixel and [outBand]. *)
Abbreviation out_state := (Vec.t * N)%type.

(** [for (i = 0; i < n; i++) { outPix[outBand] = v; outBand++; }] *)
Fixpoint fill (n : nat) (v : float32) (st : out_state) : option out_state :=
  match n with
  | O => Some st
  | S n' =>
      let '(outPix, outBand) := st in
      outPix' <- Vec.set outPix outBand v ;;
      fill n' v (outPix', wrap (outBand + 1))
  end.

(** [for (i = 0; i < n; i++) { outPix[outBand] = src[i]; outBand++; }],
    the iterations from [i] on. *)
Fixpoint copy (n : nat) (src : Vec.t) (i : N) (st : out_state)
    : option out_state :=
  match n with
  | O => Some st
  | S n' =>
      let '(outPix, outBand) := st in
      x <- Vec.get src i ;;
      outPix' <- Vec.set outPix outBand x ;;
      copy n' src (wrap (i + 1)) (outPix', wrap (outBand + 1))
  end.

Section Call.

Variable self : t.
Variables inSARPix inOptPix : Vec.t.

(** The first loop of [operator()]: every output image set to no-data. *)
Fixpoint prepare (imgs : nat) (st : out_state) : option out_state :=
  match imgs with
  | O => Some st
  | S k =>
      st1 <- fill (N.to_nat (m_SARNbBands self)) (m_SARNoDataValue self) st ;;
      st2 <- fill (N.to_nat (m_OptNbBands self)) (m_OptNoDataValue self) st1 ;;
      prepare k st2
  end.

(** The loop over the pairs; it is left as soon as
    [currentNbOutput < m_NbOutputImages] fails. The second [IsNoData] is
    only evaluated when the first one answers [false]. *)
Fixpoint iterate (pairs : IndicesPairList) (st : out_state)
    (currentNbOutput : N) : option Vec.t :=
  match pairs with
  | [] => Some (fst st)
  | (sarIdx, optIdx) :: rest =>
      if (currentNbOutput <? m_NbOutputImages self)%N then
        sarPix <- GetPixel inSARPix sarIdx (m_SARNbBands self) ;;
        optPix <- GetPixel inOptPix optIdx (m_OptNbBands self) ;;
        sarNoData <- IsNoData sarPix (m_SARNoDataValue self) ;;
        optNoData <- (if sarNoData then Some true
                      else IsNoData optPix (m_OptNoDataValue self)) ;;
        if negb sarNoData && negb optNoData then
          st1 <- copy (N.to_nat (m_SARNbBands self)) sarPix 0%N st ;;
          st2 <- copy (N.to_nat (m_OptNbBands self)) optPix 0%N st1 ;;
          iterate rest st2 (wrap (currentNbOutput + 1))
        else iterate rest st currentNbOutput
      else Some (fst st)
  end.

(** [operator()(inSARPix, inOptPix)]. *)
Definition operator_call : option Vec.t :=
  let outPix :=
    Vec.SetSize
      (wrap (m_NbOutputImages self
             * wrap (m_SARNbBands self + m_OptNbBands self))) in
  st <- prepare (N.to_nat (m_NbOutputImages self)) (outPix, 0%N) ;;
  iterate (m_Pairs self) (fst st, 0%N) 0%N.

End Call.

End PixelFunction.

(** ** [std::sort] *)

Module StdSort.

Section Contract.

Variable T : Type.

(** What the standard asks of a comparator, over the elements that are
    sorted: a strict weak ordering. *)
Definition strict_weak_order_on (comp : T -> T -> bool) (l : list T)
    : Prop :=
  (forall a, In a l -> comp a a = false)
  /\ (forall a b c, In a l -> In b l -> In c l ->
        comp a b = true -> comp b c = true -> comp a c = true)
  /\ (forall a b c, In a l -> In b l -> In c l ->
        comp a b = false -> comp b a = false ->
        comp b c = false -> comp c b = false ->
        comp a c = false /\ comp c a = false).

(** What the standard promises of [std::sort] in return: the elements
    are rearranged, and no element is less than one before it. Nothing is
    promised about equivalent elements, nor for another comparator. *)
Definition is_std_sort (sort : (T -> T -> bool) -> list T -> list T)
    : Prop :=
  forall comp l,
    strict_weak_order_on comp l ->
    Permutation l (sort comp l)
    /\ StronglySorted (fun a b => comp b a = false) (sort comp l).

(** One sort that keeps the promise: insertion sort. *)
Fixpoint insert (comp : T -> T -> bool) (x : T) (l : list T) : list T :=
  match l with
  | [] => [x]
  | y :: l' => if comp x y then x :: y :: l' else y :: insert comp x l'
  end.

Fixpoint insertion_sort (comp : T -> T -> bool) (l : list T) : list T :=
  match l with
  | [] => []
  | x :: l' => insert comp x (insertion_sort comp l')
  end.

End Contract.

End StdSort.

(** ** An instance of [std::stof]: decimal integers *)

Module Stof.

Definition digit (c : ascii) : option Z :=
  let n := Z.of_nat (nat_of_ascii c) in
  if (48 <=? n)%Z && (n <=? 57)%Z then Some (n - 48)%Z else None.

Fixpoint digits (s : string) (acc : Z) : option Z :=
  match s with
  | EmptyString => Some acc
  | String c s' =>
      match digit c with
      | Some d => digits s' (10 * acc + d)%Z
      | None => None
      end
  end.

(** No conversion is performed on the empty string, on a lone sign, or
    when a character is not a digit. *)
Definition stof (s : string) : option float32 :=
  match s with
  | EmptyString => None
  | String "-"%char EmptyString => None
  | String "-"%char s' =>
      match digits s' 0%Z with
      | Some z => Some (Z2F (- z))
      | None => None
      end
  | _ =>
      match digits s 0%Z with
      | Some z => Some (Z2F z)
      | None => None
      end
  end.

End Stof.

(** ** The application *)

Module DecloudTimeSeriesPreProcessor.

(** [struct TimestampWithIndex<float>]. *)
Record TimestampWithIndex : Type := Build_TimestampWithIndex {
  timestamp : float32;
  index : N
}.

Abbreviation TimestampWithIndexList := (list TimestampWithIndex).

(** [enum SortMode], by the value of each enumerator. *)
Definition ASC : Z := 0.
Definition DES : Z := 1.
Definition ABS : Z := 2.

(** What the application reads of its parameters: the two string lists,
    the index of the choice "sorting", the string "sorting.abs.reftimestamp"
    when the user gave one, and the float "maxgap". *)
Record Parameters : Type := Build_Parameters {
  timestampssar : list string;
  timestampsopt : list string;
  sorting : Z;
  sorting_abs_reftimestamp : option string;
  maxgap : float32
}.

(** [GetParameterAsString] of a string parameter: its value, which is the
    empty string as long as none was given. *)
Definition GetParameterAsString_reftimestamp (p : Parameters) : string :=
  match sorting_abs_reftimestamp p with
  | Some s => s
  | None => EmptyString
  end.

Section Application.

(** [std::stof]: [None] when it throws. *)
Variable stof : string -> option float32.

(** [std::sort] on a vector of [TimestampWithIndex], by its comparator. *)
Variable std_sort :
  (TimestampWithIndex -> TimestampWithIndex -> bool) ->
  TimestampWithIndexList -> TimestampWithIndexList.

Definition Str2Timestamp (str : string) : result float32 :=
  match stof str with
  | Some x => inr x
  | None => inl stof_exception
  end.

Fixpoint GetTimestampsWithIndices_loop (strs : list string) (count : N)
    (ts : TimestampWithIndexList) : result TimestampWithIndexList :=
  match strs with
  | [] => inr ts
  | str :: rest =>
      t <~ Str2Timestamp str ;;
      GetTimestampsWithIndices_loop rest (wrap (count + 1))
        (ts ++ [Build_TimestampWithIndex t count])
  end.

Definition GetTimestampsWithIndices (strs : list string)
    : result TimestampWithIndexList :=
  GetTimestampsWithIndices_loop strs 0%N [].

(** The three comparators handed to [std::sort]. *)
Definition cmp_asc (a b : TimestampWithIndex) : bool :=
  flt (timestamp a) (timestamp b).

Definition cmp_des (a b : TimestampWithIndex) : bool :=
  fgt (timestamp a) (timestamp b).

Definition cmp_abs (refTimestamp : float32) (a b : TimestampWithIndex)
    : bool :=
  flt (fabs (fsub (timestamp a) refTimestamp))
      (fabs (fsub (timestamp b) refTimestamp)).

(** The vector [ts] after [SortTimestampsWithIndices(ts)]. Any other value
    of the sorting mode only logs "Wrong sorting mode". *)
Definition SortTimestampsWithIndices (p : Parameters)
    (ts : TimestampWithIndexList) : result TimestampWithIndexList :=
  let sortMode := sorting p in
  if (sortMode =? ASC)%Z then inr (std_sort cmp_asc ts)
  else if (sortMode =? DES)%Z then inr (std_sort cmp_des ts)
  else if (sortMode =? ABS)%Z then
    refTimestamp <~ Str2Timestamp (GetParameterAsString_reftimestamp p) ;;
    inr (std_sort (cmp_abs refTimestamp) ts)
  else inr ts.

(** [for (auto sarTsWithIdx : sarTsWithIdxList) if (...) push_back] *)
Fixpoint pick (maxgap : float32) (optTs : float32) (optIdx : N)
    (sarTsWithIdxList : TimestampWithIndexList)
    (indicesPairs : IndicesPairList) : IndicesPairList :=
  match sarTsWithIdxList with
  | [] => indicesPairs
  | sarTsWithIdx :: rest =>
      if fle (fabs (fsub (timestamp sarTsWithIdx) optTs)) maxgap then
        pick maxgap optTs optIdx rest
          (indicesPairs ++ [(index sarTsWithIdx, optIdx)])
      else pick maxgap optTs optIdx rest indicesPairs
  end.

(** The loop over the sorted optical images; the vector of SAR entries
    is sorted in place at each turn and carried to the next. *)
Fixpoint collect (maxgap : float32)
    (optTsWithIdxList sarTsWithIdxList : TimestampWithIndexList)
    (indicesPairs : IndicesPairList)
    : TimestampWithIndexList * IndicesPairList :=
  match optTsWithIdxList with
  | [] => (sarTsWithIdxList, indicesPairs)
  | optTsWithIdx :: rest =>
      let optTs := timestamp optTsWithIdx in
      let optIdx := index optTsWithIdx in
      let sarSorted := std_sort (cmp_abs optTs) sarTsWithIdxList in
      collect maxgap rest sarSorted
        (pick maxgap optTs optIdx sarSorted indicesPairs)
  end.

(** [GetCandidatesPairs()]; the log lines are left out. *)
Definition GetCandidatesPairs (p : Parameters) : result IndicesPairList :=
  sarTsWithIdxList <~ GetTimestampsWithIndices (timestampssar p) ;;
  optTsWithIdxList <~ GetTimestampsWithIndices (timestampsopt p) ;;
  optSorted <~ SortTimestampsWithIndices p optTsWithIdxList ;;
  let indicesPairs :=
    snd (collect (maxgap p) optSorted sarTsWithIdxList []) in
  if Nat.eqb (length indicesPairs) 0 then otbAppLogFATAL IndicesPairList
  else inr indicesPairs.

End Application.

(** *** Compaction of the image lists *)

(** [std::find(v.begin(), v.end(), x) - v.begin()], or [None] for
    [v.end()]. *)
Fixpoint find (v : list N) (x : N) : option nat :=
  match v with
  | [] => None
  | y :: v' =>
      if (y =? x)%N then Some O
      else match find v' x with
           | Some k => Some (S k)
           | None => None
           end
  end.

Section Sources.

(** [FloatVectorImageType::Pointer]. *)
Variable Image : Type.

(** [ObjectList::GetNthElement], which throws out of the list. *)
Definition GetNthElement (l : list Image) (idx : N) : result Image :=
  match nth_error l (N.to_nat idx) with
  | Some img => inr img
  | None => inl list_exception
  end.

(** One side of the body of the loop of [InstantiateSources]: the list of
    old indices, the new image list and the counter after it, and the new
    index of [idx]. *)
Definition lookup_or_add (inList : list Image) (idx : N)
    (oldIdx : list N) (newList : list Image) (newIdxCounter : N)
    : result (list N * list Image * N * N) :=
  match find oldIdx idx with
  | None =>
      img <~ GetNthElement inList idx ;;
      inr (oldIdx ++ [idx], newList ++ [img], wrap (newIdxCounter + 1),
           newIdxCounter)
  | Some k => inr (oldIdx, newList, newIdxCounter, wrap (N.of_nat k))
  end.

Record sources_state : Type := Build_sources_state {
  sarOldIdx : list N;
  optOldIdx : list N;
  sarList : list Image;
  optList : list Image;
  sarNewIdxCounter : N;
  optNewIdxCounter : N;
  outIndicesPairs : IndicesPairList
}.

Fixpoint InstantiateSources_loop (inSARList inOptList : list Image)
    (inIndicesPairs : IndicesPairList) (st : sources_state)
    : result sources_state :=
  match inIndicesPairs with
  | [] => inr st
  | (sarIdx, optIdx) :: rest =>
      '(sarOld, sarL, sarCounter, sarNewIdx) <~
        lookup_or_add inSARList sarIdx (sarOldIdx st) (sarList st)
          (sarNewIdxCounter st) ;;
      '(optOld, optL, optCounter, optNewIdx) <~
        lookup_or_add inOptList optIdx (optOldIdx st) (optList st)
          (optNewIdxCounter st) ;;
      InstantiateSources_loop inSARList inOptList rest
        (Build_sources_state sarOld optOld sarL optL sarCounter optCounter
           (outIndicesPairs st ++ [(sarNewIdx, optNewIdx)]))
  end.

(** [InstantiateSources]: the image lists given to [sarSrc] and [optSrc],
    and [outIndicesPairs]. *)
Definition InstantiateSources (inIndicesPairs : IndicesPairList)
    (inSARList inOptList : list Image)
    : result (list Image * list Image * IndicesPairList) :=
  st <~ InstantiateSources_loop inSARList inOptList inIndicesPairs
          (Build_sources_state [] [] [] [] 0%N 0%N []) ;;
  inr (sarList st, optList st, outIndicesPairs st).

End Sources.

(** *** The slicers of [InitFilter] *)

(** What [SetFirstChannel] and [SetLastChannel] gave one extractor. *)
Record ChannelRange : Type := Build_ChannelRange {
  FirstChannel : N;
  LastChannel : N
}.

Definition int_max : Z := 2147483647.

(** [for (int i = 1; i <= m_Outputs; i++)], from the turn [i] on. [i++] at
    [int_max] has no defined result; neither has the loop out of fuel. *)
Fixpoint slicers_loop (fuel : nat) (m_Outputs : Z) (sarNbBands optNbBands : N)
    (i : Z) (start : N) (sarSlicers optSlicers : list ChannelRange)
    : option (list ChannelRange * list ChannelRange) :=
  if (i <=? m_Outputs)%Z then
    match fuel with
    | O => None
    | S fuel' =>
        let sarSlicer :=
          Build_ChannelRange start (usub (wrap (start + sarNbBands)) 1) in
        let optSlicer :=
          Build_ChannelRange (wrap (sarNbBands + start))
            (usub (wrap (wrap (start + sarNbBands) + optNbBands)) 1) in
        let start' := wrap (start + wrap (sarNbBands + optNbBands)) in
        if (i <? int_max)%Z then
          slicers_loop fuel' m_Outputs sarNbBands optNbBands (i + 1)%Z start'
            (sarSlicers ++ [sarSlicer]) (optSlicers ++ [optSlicer])
        else None
    end
  else Some (sarSlicers, optSlicers).

(** The channel ranges of [sarSlicers] and [optSlicers] after
    [InitFilter]. *)
Definition InitFilter_slicers (m_Outputs : Z) (sarNbBands optNbBands : N)
    : option (list ChannelRange * list ChannelRange) :=
  slicers_loop (Z.to_nat m_Outputs) m_Outputs sarNbBands optNbBands 1%Z 1%N
    [] [].

End DecloudTimeSeriesPreProcessor.

(** ** What the fusion is meant to compute *)

Module Fusion.

Import PixelFunction.

Section Spec.

Variable self : t.
Variables radarPixel opticalPixel : list float32.

Definition radarBandCount : nat := N.to_nat (m_SARNbBands self).
Definition opticalBandCount : nat := N.to_nat (m_OptNbBands self).
Definition slotWidth : nat := radarBandCount + opticalBandCount.
Definition outputSlotCount : nat := N.to_nat (m_NbOutputImages self).

(** [pixel[idx * bandCount .. + bandCount)]. *)
Definition sub_pixel (pixel : list float32) (idx : N) (bandCount : nat)
    : list float32 :=
  firstn bandCount (skipn (N.to_nat idx * bandCount) pixel).

(** A sub-pixel is missing when each of its values equals the sentinel. *)
Definition missing (sub : list float32) (sentinel : float32) : bool :=
  forallb (fun x => SFeqb x sentinel) sub.

Definition radar_sub (pr : IndicesPair) : list float32 :=
  sub_pixel radarPixel (fst pr) radarBandCount.

Definition optical_sub (pr : IndicesPair) : list float32 :=
  sub_pixel opticalPixel (snd pr) opticalBandCount.

(** A pair is valid for the pixel when neither sub-pixel is missing. *)
Definition valid (pr : IndicesPair) : bool :=
  negb (missing (radar_sub pr) (m_SARNoDataValue self))
  && negb (missing (optical_sub pr) (m_OptNoDataValue self)).

(** Both sub-pixels of the pair lie inside the input pixels. *)
Definition in_range (pr : IndicesPair) : Prop :=
  N.to_nat (fst pr) * radarBandCount + radarBandCount
    <= length radarPixel
  /\ N.to_nat (snd pr) * opticalBandCount + opticalBandCount
    <= length opticalPixel.

(** The slot a pair fills: radar values, then optical values. *)
Definition slot_of (pr : IndicesPair) : list float32 :=
  radar_sub pr ++ optical_sub pr.

(** The sentinel fill of one slot. *)
Definition sentinel_slot : list float32 :=
  repeat (m_SARNoDataValue self) radarBandCount
  ++ repeat (m_OptNoDataValue self) opticalBandCount.

(** The first [n] valid pairs of a list, in its order. *)
Definition first_valid (n : nat) (pairs : IndicesPairList)
    : IndicesPairList :=
  firstn n (filter valid pairs).

(** The fused pixel: the slots of the first valid pairs, then sentinel
    fill. *)
Definition fused (pairs : IndicesPairList) : list float32 :=
  let chosen := first_valid outputSlotCount pairs in
  concat (map slot_of chosen)
  ++ concat (repeat sentinel_slot (outputSlotCount - length chosen)).

(** The [i]-th slot of an output pixel. *)
Definition slot_at (out : list float32) (i : nat) : list float32 :=
  firstn slotWidth (skipn (i * slotWidth) out).

(** The input pixels are vectors, and so is the output pixel: their
    lengths are [unsigned int] values. *)
Definition representable : Prop :=
  (N.of_nat (length radarPixel) < uint_range)%N
  /\ (N.of_nat (length opticalPixel) < uint_range)%N
  /\ (N.of_nat (outputSlotCount * slotWidth) < uint_range)%N.

End Spec.

(** The functor with another list of pairs. *)
Definition with_pairs (self : t) (pairs : IndicesPairList) : t :=
  SetParameters pairs (m_SARNbBands self) (m_OptNbBands self)
    (m_SARNoDataValue self) (m_OptNoDataValue self) (m_NbOutputImages self).

End Fusion.

(** ** What the pair matcher is meant to compute *)

Module Matching.

Import DecloudTimeSeriesPreProcessor.

(** The entries of a list of timestamps: each with its position, as an
    [unsigned int], from [count] on. *)
Fixpoint indexed (count : N) (ts : list float32) : TimestampWithIndexList :=
  match ts with
  | [] => []
  | t :: ts' => Build_TimestampWithIndex t count :: indexed (wrap (count + 1)) ts'
  end.

(** [|a - b|], as the code computes it. *)
Definition gap (a b : float32) : float32 := fabs (fsub a b).

(** The gap filter: [|radarTimestamp - opticalTimestamp| <= maxGap]. *)
Definition within (maxGap : float32) (o r : TimestampWithIndex) : bool :=
  fle (gap (timestamp r) (timestamp o)) maxGap.

(** Non-decreasing, for a key. *)
Definition ascending (key : TimestampWithIndex -> float32)
    (l : TimestampWithIndexList) : Prop :=
  StronglySorted (fun a b => fle (key a) (key b) = true) l.

(** Non-increasing, for a key. *)
Definition descending (key : TimestampWithIndex -> float32)
    (l : TimestampWithIndexList) : Prop :=
  StronglySorted (fun a b => fle (key b) (key a) = true) l.

(** The group of pairs of one optical entry, from radar entries. *)
Definition group_of (o : TimestampWithIndex) (rs : TimestampWithIndexList)
    : IndicesPairList :=
  map (fun r => (index r, index o)) rs.

(** The timestamps of the entries are ordinary numbers. *)
Definition finite_entries (l : TimestampWithIndexList) : Prop :=
  Forall (fun e => is_finite (timestamp e) = true) l.

(** The group of an optical entry among the candidate pairs: the radar
    entries that pass the gap filter, each once, nearest first. *)
Definition is_group (maxGap : float32) (radar : TimestampWithIndexList)
    (o : TimestampWithIndex) (g : IndicesPairList) : Prop :=
  exists rs,
    Permutation rs (filter (within maxGap o) radar)
    /\ ascending (fun r => gap (timestamp r) (timestamp o)) rs
    /\ g = group_of o rs.

Section Inputs.

Variable stof : string -> option float32.

(** Each string of the list is converted, to the timestamp of the same
    position. *)
Definition parsed (strs : list string) (ts : list float32) : Prop :=
  map stof strs = map Some ts.

(** The timestamps are ordinary numbers. *)
Definition all_finite (ts : list float32) : Prop :=
  Forall (fun t => is_finite t = true) ts.

(** Under the mode ABS a reference timestamp is converted, to an
    ordinary number. *)
Definition reference_ok (p : Parameters) : Prop :=
  sorting p = ABS ->
  exists ref,
    stof (GetParameterAsString_reftimestamp p) = Some ref
    /\ is_finite ref = true.

(** The optical entries follow the policy of the sorting mode. *)
Definition follows_policy (p : Parameters) (l : TimestampWithIndexList)
    : Prop :=
  (sorting p = ASC -> ascending timestamp l)
  /\ (sorting p = DES -> descending timestamp l)
  /\ (sorting p = ABS ->
      forall ref, stof (GetParameterAsString_reftimestamp p) = Some ref ->
                  ascending (fun e => gap (timestamp e) ref) l).

End Inputs.

End Matching.

(** ** What the compaction is meant to compute *)

Module Compaction.

Import DecloudTimeSeriesPreProcessor.

(** The original indices in the order in which they are first met, after
    those already [seen]. *)
Fixpoint first_encounters (seen l : list N) : list N :=
  match l with
  | [] => seen
  | x :: l' =>
      if existsb (N.eqb x) seen then first_encounters seen l'
      else first_encounters (seen ++ [x]) l'
  end.

(** The compact space of a side: its distinct original indices, in
    first-encounter order. *)
Definition table (originals : list N) : list N :=
  first_encounters [] originals.

(** The new index of an original index: its place in the table. *)
Fixpoint place (tbl : list N) (x : N) : nat :=
  match tbl with
  | [] => O
  | y :: tbl' => if (y =? x)%N then O else S (place tbl' x)
  end.

Definition new_index (tbl : list N) (x : N) : N := N.of_nat (place tbl x).

Definition translate (sarTable optTable : list N) (pr : IndicesPair)
    : IndicesPair :=
  (new_index sarTable (fst pr), new_index optTable (snd pr)).

(** The images of a compact list are those of the original list at the
    indices of the table. *)
Definition images_of (Image : Type) (inList : list Image) (tbl : list N)
    (newList : list Image) : Prop :=
  Forall2 (fun x img => nth_error inList (N.to_nat x) = Some img) tbl newList.

(** The indices are [unsigned int] values. *)
Definition typed (pairs : IndicesPairList) : Prop :=
  Forall (fun pr => (fst pr < uint_range)%N /\ (snd pr < uint_range)%N) pairs.

(** The indices point into the image lists. *)
Definition addressable (Image : Type) (inSARList inOptList : list Image)
    (pairs : IndicesPairList) : Prop :=
  Forall (fun pr => N.to_nat (fst pr) < length inSARList
                    /\ N.to_nat (snd pr) < length inOptList) pairs.

(** One side between two turns of the loop of [InstantiateSources]: the
    old indices met so far are distinct [unsigned int] values, the counter
    is their number, and the new image list holds their images. *)
Definition side_inv (Image : Type) (inList : list Image) (tbl : list N)
    (newList : list Image) (counter : N) : Prop :=
  NoDup tbl
  /\ Forall (fun x => (x < uint_range)%N) tbl
  /\ counter = wrap (N.of_nat (length tbl))
  /\ images_of inList tbl newList.

Definition state_inv (Image : Type) (inSARList inOptList : list Image)
    (st : sources_state Image) : Prop :=
  side_inv inSARList (sarOldIdx st) (sarList st) (sarNewIdxCounter st)
  /\ side_inv inOptList (optOldIdx st) (optList st) (optNewIdxCounter st).

End Compaction.

(** ** What the slicers are meant to cover *)

Module Layout.

Import DecloudTimeSeriesPreProcessor.

(** The radar channels of slot [i], counted from 1, both ends included. *)
Definition radar_range (radarBandCount opticalBandCount : N) (i : nat)
    : ChannelRange :=
  Build_ChannelRange
    (N.of_nat i * (radarBandCount + opticalBandCount) + 1)
    (N.of_nat i * (radarBandCount + opticalBandCount) + radarBandCount).

(** The optical channels of slot [i]: those that follow its radar
    channels. *)
Definition optical_range (radarBandCount opticalBandCount : N) (i : nat)
    : ChannelRange :=
  Build_ChannelRange
    (N.of_nat i * (radarBandCount + opticalBandCount) + radarBandCount + 1)
    (N.of_nat i * (radarBandCount + opticalBandCount) + radarBandCount
     + opticalBandCount).

Definition PlanSlices (radarBandCount opticalBandCount : N) (n : nat)
    : list ChannelRange * list ChannelRange :=
  (map (radar_range radarBandCount opticalBandCount) (seq 0 n),
   map (optical_range radarBandCount opticalBandCount) (seq 0 n)).

End Layout.

(** ** A worked configuration *)

Module Example.

(** Two radar bands, one optical band, sentinels 0 and -9999, and the
    resolved pairs (0,0), (1,0): the functor for [n] output images. *)
Definition functor (n : N) : PixelFunction.t :=
  PixelFunction.SetParameters [(0, 0); (1, 0)]%N 2 1 (Z2F 0) (Z2F (-9999)) n.

(** Radar frame 0 is all sentinel, radar frame 1 is not. *)
Definition radarPixel : list float32 := map Z2F [0; 0; 5; 5]%Z.

Definition opticalPixel : list float32 := map Z2F [7]%Z.

(** Three radar dates and two optical dates, at most 10 seconds apart. *)
Definition parameters (mode : Z) (ref : option string)
    : DecloudTimeSeriesPreProcessor.Parameters :=
  DecloudTimeSeriesPreProcessor.Build_Parameters
    ["10"; "20"; "45"]%string ["30"; "12"]%string mode ref (Z2F 10).

(** The same dates, at most 1 second apart: no radar date is that close
    to an optical date. *)
Definition disjoint : DecloudTimeSeriesPreProcessor.Parameters :=
  DecloudTimeSeriesPreProcessor.Build_Parameters
    ["10"; "20"; "45"]%string ["30"; "12"]%string
    DecloudTimeSeriesPreProcessor.ASC None (Z2F 1).

Definition std_sort :
    (DecloudTimeSeriesPreProcessor.TimestampWithIndex ->
     DecloudTimeSeriesPreProcessor.TimestampWithIndex -> bool) ->
    list DecloudTimeSeriesPreProcessor.TimestampWithIndex ->
    list DecloudTimeSeriesPreProcessor.TimestampWithIndex :=
  @StdSort.insertion_sort DecloudTimeSeriesPreProcessor.TimestampWithIndex.

End Example.

(** ** The checks and the first half of [DoExecute] *)

Module Execution.

Import DecloudTimeSeriesPreProcessor.

Section Execute.

Variable Image : Type.

(** [CheckNumbers]: both sizes are stored in an [unsigned int] before they
    are compared; the log lines are left out. *)
Definition CheckNumbers (imgs : list Image) (timestamps : list string)
    : result unit :=
  let nImgs := wrap (N.of_nat (length imgs)) in
  let nTimestamps := wrap (N.of_nat (length timestamps)) in
  if negb (nTimestamps =? nImgs)%N then otbAppLogFATAL unit else inr tt.

Variable stof : string -> option float32.
Variable std_sort :
  (TimestampWithIndex -> TimestampWithIndex -> bool) ->
  TimestampWithIndexList -> TimestampWithIndexList.

(** [DoExecute] up to the call of [InitFilter]: the two checks, the
    candidate pairs, and the compact image lists with the resolved pairs. *)
Definition DoExecute_sources (p : Parameters) (ilsar ilopt : list Image)
    : result (list Image * list Image * IndicesPairList) :=
  checkedSAR <~ CheckNumbers ilsar (timestampssar p) ;;
  checkedOpt <~ CheckNumbers ilopt (timestampsopt p) ;;
  indicesPairs <~ GetCandidatesPairs stof std_sort p ;;
  InstantiateSources indicesPairs ilsar ilopt.

End Execute.

End Execution.

(** ** Variants of a configuration *)

Module Variants.

Import PixelFunction.

(** The functor with another number of output images. *)
Definition with_outputs (self : t) (nbOutputImages : N) : t :=
  SetParameters (m_Pairs self) (m_SARNbBands self) (m_OptNbBands self)
    (m_SARNoDataValue self) (m_OptNoDataValue self) nbOutputImages.


(** The radar and optical combinations that pass the gap filter, optical
    entry by optical entry. *)
Definition passing (maxGap : float32)
    (radar optical : DecloudTimeSeriesPreProcessor.TimestampWithIndexList)
    : IndicesPairList :=
  flat_map
    (fun o => Matching.group_of o (filter (Matching.within maxGap o) radar))
    optical.

(** Less than zero, on floats. *)
Definition is_negative (x : float32) : bool := flt x (Z2F 0).

End Variants.

(** ** The channels of an extractor *)

Module Channels.

Import DecloudTimeSeriesPreProcessor.

(** The channel [c], counted from 1, lies between the first and the last
    channel of the extractor, both included. *)
Definition holds (r : ChannelRange) (c : N) : Prop :=
  (FirstChannel r <= c <= LastChannel r)%N.

End Channels.

(** * Proofs *)

(** ** Machine numbers *)

Lemma wrap_small (x : N) : (x < uint_range)%N -> wrap x = x.
Proof. intros H. unfold wrap. now apply N.mod_small. Qed.

Lemma wrap_lt (x : N) : (wrap x < uint_range)%N.
Proof. unfold wrap. now apply N.mod_lt. Qed.

Lemma wrap_succ (a : nat) :
  (N.of_nat (S a) < uint_range)%N -> wrap (N.of_nat a + 1) = N.of_nat (S a).
Proof. intros H. rewrite wrap_small; lia. Qed.

(** ** The order of floats *)

Module FloatFacts.

Local Open Scope Z_scope.

Lemma flt_rank (a b : float32) :
  is_nan a = false -> is_nan b = false ->
  (flt a b = true <-> lex_lt (rank a) (rank b)).
Proof.
  intros Ha Hb. unfold flt, SFltb, SFcompare.
  destruct a as [sa|sa| |sa ma ea]; try discriminate;
  destruct b as [sb|sb| |sb mb eb]; try discriminate;
  try destruct sa; try destruct sb; simpl;
  try (split; [discriminate|lia]); try (split; [lia|lia]);
  try (split; [intros _; lia | reflexivity]).
  all: fold (Pos.compare ma mb).
  all: destruct (Z.compare_spec ea eb); destruct (Pos.compare_spec ma mb);
    simpl; split; try discriminate; try reflexivity; try lia.
Qed.

Lemma fle_rank (a b : float32) :
  is_nan a = false -> is_nan b = false ->
  (fle a b = true <-> ~ lex_lt (rank b) (rank a)).
Proof.
  intros Ha Hb. unfold fle, SFleb, SFcompare.
  destruct a as [sa|sa| |sa ma ea]; try discriminate;
  destruct b as [sb|sb| |sb mb eb]; try discriminate;
  try destruct sa; try destruct sb; simpl;
  try (split; [discriminate|lia]); try (split; [lia|lia]);
  try (split; [intros _; lia | reflexivity]).
  all: fold (Pos.compare ma mb).
  all: destruct (Z.compare_spec ea eb); destruct (Pos.compare_spec ma mb);
    simpl; split; try discriminate; try reflexivity; try lia.
Qed.

Lemma flt_false_rank (a b : float32) :
  is_nan a = false -> is_nan b = false ->
  (flt a b = false <-> ~ lex_lt (rank a) (rank b)).
Proof.
  intros Ha Hb. rewrite <- (@flt_rank a b Ha Hb).
  destruct (flt a b); split; congruence.
Qed.

(** Not less means greater or equal, away from NaN. *)
Lemma fle_of_not_flt (a b : float32) :
  is_nan a = false -> is_nan b = false ->
  flt b a = false -> fle a b = true.
Proof.
  intros Ha Hb H. apply (@fle_rank a b Ha Hb).
  now apply (@flt_false_rank b a Hb Ha).
Qed.

Lemma lex_lt_irrefl (a : Z * Z * Z) : ~ lex_lt a a.
Proof. destruct a as [[a1 a2] a3]. unfold lex_lt. lia. Qed.

Lemma lex_lt_trans (a b c : Z * Z * Z) :
  lex_lt a b -> lex_lt b c -> lex_lt a c.
Proof.
  destruct a as [[a1 a2] a3], b as [[b1 b2] b3], c as [[c1 c2] c3].
  unfold lex_lt. lia.
Qed.

Lemma lex_lt_neg_trans (a b c : Z * Z * Z) :
  ~ lex_lt a b -> ~ lex_lt b c -> ~ lex_lt a c.
Proof.
  destruct a as [[a1 a2] a3], b as [[b1 b2] b3], c as [[c1 c2] c3].
  unfold lex_lt. lia.
Qed.

(** Rounding never yields a NaN. *)
Lemma iter_pos_inv (A : Type) (P : A -> Prop) (f : A -> A) :
  (forall x, P x -> P (f x)) -> forall p x, P x -> P (iter_pos f p x).
Proof.
  intros Hf. induction p as [p IH|p IH|]; intros x Hx; simpl; auto.
Qed.

Lemma shr_1_nonneg (mrs : shr_record) :
  0 <= shr_m mrs -> 0 <= shr_m (shr_1 mrs).
Proof.
  destruct mrs as [m r s]. simpl. intros Hm.
  destruct m as [|[p|p|]|p]; simpl; lia.
Qed.

Lemma shr_nonneg (mrs : shr_record) (e n : Z) :
  0 <= shr_m mrs -> 0 <= shr_m (fst (shr mrs e n)).
Proof.
  intros Hm. unfold shr. destruct n as [|p|p]; simpl; auto.
  apply iter_pos_inv with (P := fun x => 0 <= shr_m x);
    auto using shr_1_nonneg.
Qed.

Lemma shr_fexp_nonneg (m e : Z) (l : location) :
  0 <= m -> 0 <= shr_m (fst (shr_fexp prec32 emax32 m e l)).
Proof.
  intros Hm. unfold shr_fexp. apply shr_nonneg.
  destruct l as [|[| |]]; simpl; exact Hm.
Qed.

Lemma round_nearest_even_nonneg (m : Z) (l : location) :
  0 <= m -> 0 <= round_nearest_even m l.
Proof.
  intros Hm. unfold round_nearest_even.
  destruct l as [|[| |]]; try destruct (Z.even m); lia.
Qed.

Lemma binary_round_aux_not_nan (sx : bool) (mx ex : Z) (lx : location) :
  0 <= mx -> is_nan (binary_round_aux prec32 emax32 sx mx ex lx) = false.
Proof.
  intros Hm. unfold binary_round_aux.
  pose proof (@shr_fexp_nonneg mx ex lx Hm) as H1.
  destruct (shr_fexp prec32 emax32 mx ex lx) as [mrs' e']. simpl in H1.
  pose proof (@shr_fexp_nonneg
                (round_nearest_even (shr_m mrs') (loc_of_shr_record mrs'))
                e' loc_Exact (round_nearest_even_nonneg _ H1)) as H2.
  destruct (shr_fexp prec32 emax32 _ e' loc_Exact) as [mrs'' e''].
  simpl in H2.
  destruct (shr_m mrs'') as [|m|m]; [reflexivity| |lia].
  destruct (e'' <=? emax32 - prec32); reflexivity.
Qed.

Lemma binary_normalize_not_nan (m e : Z) (szero : bool) :
  is_nan (binary_normalize prec32 emax32 m e szero) = false.
Proof.
  unfold binary_normalize, binary_round.
  destruct m as [|m|m]; [reflexivity| |].
  - destruct (shl_align m e _) as [mz ez].
    apply binary_round_aux_not_nan. lia.
  - destruct (shl_align m e _) as [mz ez].
    apply binary_round_aux_not_nan. lia.
Qed.

(** The difference of two ordinary numbers is not a NaN, and neither is
    its absolute value. *)
Lemma fsub_not_nan (a b : float32) :
  is_finite a = true -> is_finite b = true -> is_nan (fsub a b) = false.
Proof.
  unfold fsub.
  destruct a as [sa|sa| |sa ma ea]; try discriminate;
  destruct b as [sb|sb| |sb mb eb]; try discriminate; intros _ _; simpl;
  try reflexivity.
  - destruct sa, sb; reflexivity.
  - apply binary_normalize_not_nan.
Qed.

Lemma fabs_not_nan (a : float32) : is_nan a = false -> is_nan (fabs a) = false.
Proof. destruct a; auto. Qed.

Lemma finite_not_nan (a : float32) : is_finite a = true -> is_nan a = false.
Proof. destruct a; auto; discriminate. Qed.

End FloatFacts.

(** ** Lists *)

Lemma In_firstn (A : Type) (n : nat) (l : list A) (x : A) :
  In x (firstn n l) -> In x l.
Proof.
  revert l. induction n as [|n IH]; intros [|y l] H; simpl in *; try tauto.
  destruct H as [H|H]; auto.
Qed.

(** ** Vectors *)

Module VecFacts.

Import Vec.

Lemma upd_app (pre : t) (c0 : cell) (post : t) (c : cell) :
  upd (pre ++ c0 :: post) (length pre) c = Some (pre ++ c :: post).
Proof.
  induction pre as [|h pre IH]; simpl; [reflexivity|].
  now rewrite IH.
Qed.

Lemma set_app (pre : t) (c0 : cell) (post : t) (x : float32) :
  set (pre ++ c0 :: post) (N.of_nat (length pre)) x
  = Some (pre ++ Some x :: post).
Proof. unfold set. rewrite Nat2N.id. apply upd_app. Qed.

Lemma get_app (done : list float32) (x : float32) (todo : list float32) :
  get (of_list (done ++ x :: todo)) (N.of_nat (length done)) = Some x.
Proof.
  unfold get, of_list. rewrite Nat2N.id, map_app.
  rewrite nth_error_app2; rewrite length_map; [|lia].
  now rewrite Nat.sub_diag.
Qed.

Lemma length_of_list (vs : list float32) : length (of_list vs) = length vs.
Proof. apply length_map. Qed.

End VecFacts.

(** ** The loops of the functor *)

Module LoopFacts.

Import Vec VecFacts PixelFunction.

Lemma fill_spec (v : float32) :
  forall (n : nat) (pre rest : Vec.t),
    n <= length rest ->
    (N.of_nat (length pre + length rest) < uint_range)%N ->
    fill n v (pre ++ rest, N.of_nat (length pre))
    = Some (pre ++ of_list (repeat v n) ++ skipn n rest,
            N.of_nat (length pre + n)).
Proof.
  induction n as [|n IH]; intros pre rest Hn Hlt.
  - simpl. now rewrite Nat.add_0_r.
  - destruct rest as [|c rest]; simpl in Hn; [lia|].
    cbn [fill]. rewrite set_app.
    rewrite wrap_succ by (simpl in Hlt; lia).
    replace (pre ++ Some v :: rest) with ((pre ++ [Some v]) ++ rest)
      by now rewrite <- app_assoc.
    replace (S (length pre)) with (length (pre ++ [Some v]))
      by (rewrite length_app; simpl; lia).
    rewrite IH.
    + rewrite <- app_assoc. simpl. f_equal. f_equal.
      rewrite length_app. simpl. lia.
    + lia.
    + rewrite length_app. simpl in *. lia.
Qed.

Lemma copy_spec :
  forall (todo done tail : list float32) (pre rest : Vec.t),
    length todo <= length rest ->
    (N.of_nat (length done + length todo) < uint_range)%N ->
    (N.of_nat (length pre + length rest) < uint_range)%N ->
    copy (length todo) (of_list (done ++ todo ++ tail))
      (N.of_nat (length done)) (pre ++ rest, N.of_nat (length pre))
    = Some (pre ++ of_list todo ++ skipn (length todo) rest,
            N.of_nat (length pre + length todo)).
Proof.
  induction todo as [|x todo IH]; intros done tail pre rest Hn Hsrc Hdst.
  - simpl. now rewrite Nat.add_0_r.
  - destruct rest as [|c rest]; simpl in Hn; [lia|].
    cbn [copy length app]. rewrite get_app, set_app.
    rewrite !wrap_succ by (simpl in *; lia).
    replace (pre ++ Some x :: rest) with ((pre ++ [Some x]) ++ rest)
      by now rewrite <- app_assoc.
    replace (done ++ x :: todo ++ tail) with ((done ++ [x]) ++ todo ++ tail)
      by now rewrite <- app_assoc.
    replace (S (length pre)) with (length (pre ++ [Some x]))
      by (rewrite length_app; simpl; lia).
    replace (S (length done)) with (length (done ++ [x]))
      by (rewrite length_app; simpl; lia).
    rewrite IH.
    + rewrite <- app_assoc. simpl. f_equal. f_equal.
      rewrite length_app. simpl. lia.
    + lia.
    + rewrite length_app. simpl in *. lia.
    + rewrite length_app. simpl in *. lia.
Qed.

Lemma GetPixel_loop_copy :
  forall (n : nat) (inPix : Vec.t) (i outBand : N) (pix : Vec.t),
    GetPixel_loop n inPix i outBand pix
    = (st <- copy n inPix i (pix, outBand) ;; Some (fst st)).
Proof.
  induction n as [|n IH]; intros inPix i outBand pix; simpl; [reflexivity|].
  destruct (get inPix i) as [x|]; [|reflexivity].
  destruct (set pix outBand x) as [pix'|]; [|reflexivity].
  apply IH.
Qed.

Lemma IsNoData_loop_spec (noData : float32) :
  forall (todo done : list float32),
    (N.of_nat (length done + length todo) < uint_range)%N ->
    IsNoData_loop (length todo) (of_list (done ++ todo))
      (N.of_nat (length done)) noData
    = Some (forallb (fun x => SFeqb x noData) todo).
Proof.
  induction todo as [|x todo IH]; intros done Hlt; [reflexivity|].
  cbn [IsNoData_loop length forallb]. rewrite get_app. unfold fne.
  destruct (SFeqb x noData); simpl; [|reflexivity].
  rewrite wrap_succ by (simpl in *; lia).
  replace (done ++ x :: todo) with ((done ++ [x]) ++ todo)
    by now rewrite <- app_assoc.
  replace (S (length done)) with (length (done ++ [x]))
    by (rewrite length_app; simpl; lia).
  apply IH. rewrite length_app. simpl in *. lia.
Qed.

Lemma IsNoData_spec (vs : list float32) (noData : float32) :
  (N.of_nat (length vs) < uint_range)%N ->
  IsNoData (of_list vs) noData = Some (Fusion.missing vs noData).
Proof.
  intros Hlt. unfold IsNoData, GetSize.
  rewrite Nat2N.id, length_of_list.
  apply (IsNoData_loop_spec noData vs []). exact Hlt.
Qed.

Lemma GetPixel_spec (px : list float32) (idx nbBands : N) :
  N.to_nat idx * N.to_nat nbBands + N.to_nat nbBands <= length px ->
  (N.of_nat (length px) < uint_range)%N ->
  GetPixel (of_list px) idx nbBands
  = Some (of_list (Fusion.sub_pixel px idx (N.to_nat nbBands))).
Proof.
  intros Hin Hlt. unfold GetPixel, Fusion.sub_pixel. cbv zeta.
  remember (N.to_nat idx * N.to_nat nbBands) as a eqn:Ea.
  assert (Hprod : (idx * nbBands)%N = N.of_nat a).
  { subst a. rewrite Nat2N.inj_mul, !N2Nat.id. reflexivity. }
  rewrite Hprod.
  rewrite (@wrap_small (N.of_nat a)) by lia.
  rewrite wrap_small by lia.
  replace (N.to_nat (N.of_nat a + nbBands - N.of_nat a))
    with (N.to_nat nbBands) by lia.
  rewrite GetPixel_loop_copy.
  set (todo := firstn (N.to_nat nbBands) (skipn a px)).
  assert (Hlen : length todo = N.to_nat nbBands).
  { unfold todo. rewrite length_firstn, length_skipn. lia. }
  assert (Hpx : px = firstn a px ++ todo ++ skipn (N.to_nat nbBands) (skipn a px)).
  { unfold todo. now rewrite !firstn_skipn. }
  assert (Ha : length (firstn a px) = a).
  { rewrite length_firstn. lia. }
  assert (Hgoal :
    copy (N.to_nat nbBands) (of_list px) (N.of_nat a) (SetSize nbBands, 0%N)
    = Some (of_list todo, N.of_nat (length todo))).
  { pose proof (@copy_spec todo (firstn a px)
                  (skipn (N.to_nat nbBands) (skipn a px)) []
                  (SetSize nbBands)) as Hc.
    rewrite <- Hpx, Ha, Hlen in Hc. simpl in Hc.
    assert (Hsz : length (SetSize nbBands) = N.to_nat nbBands)
      by apply repeat_length.
    rewrite Hsz in Hc. rewrite Hlen.
    etransitivity; [apply Hc; lia|].
    rewrite skipn_all2 by lia. now rewrite app_nil_r. }
  rewrite Hgoal. reflexivity.
Qed.

End LoopFacts.

(** ** The fusion functor computes the fused pixel *)

Module FusionFacts.

Import Vec VecFacts PixelFunction LoopFacts Fusion.

Lemma of_list_app (a b : list float32) :
  of_list (a ++ b) = of_list a ++ of_list b.
Proof. apply map_app. Qed.

Lemma fill_over (v : float32) (n : nat) (pre old rest : Vec.t) :
  length old = n ->
  (N.of_nat (length pre + length (old ++ rest)) < uint_range)%N ->
  fill n v (pre ++ old ++ rest, N.of_nat (length pre))
  = Some (pre ++ of_list (repeat v n) ++ rest, N.of_nat (length pre + n)).
Proof.
  intros Hold Hlt. rewrite fill_spec; try (rewrite length_app; lia); [|exact Hlt].
  rewrite skipn_app, skipn_all2, Hold, Nat.sub_diag by lia. reflexivity.
Qed.

Lemma copy_over (todo : list float32) (pre old rest : Vec.t) :
  length old = length todo ->
  (N.of_nat (length pre + length (old ++ rest)) < uint_range)%N ->
  copy (length todo) (of_list todo) 0%N (pre ++ old ++ rest, N.of_nat (length pre))
  = Some (pre ++ of_list todo ++ rest, N.of_nat (length pre + length todo)).
Proof.
  intros Hold Hlt.
  pose proof (@copy_spec todo [] [] pre (old ++ rest)) as Hc.
  simpl in Hc. rewrite app_nil_r in Hc.
  etransitivity; [apply Hc|].
  - rewrite length_app. lia.
  - rewrite length_app in Hlt. lia.
  - exact Hlt.
  - rewrite skipn_app, skipn_all2, Hold, Nat.sub_diag by lia. reflexivity.
Qed.

(** Writing two blocks one after the other over what is there. *)
Lemma copy_slot (done a b : list float32) (olda oldb rest : Vec.t) :
  length olda = length a ->
  length oldb = length b ->
  (N.of_nat (length done + length a + length b + length rest) < uint_range)%N ->
  (st1 <- copy (length a) (of_list a) 0%N
            (of_list done ++ olda ++ oldb ++ rest, N.of_nat (length done)) ;;
   copy (length b) (of_list b) 0%N st1)
  = Some (of_list (done ++ a ++ b) ++ rest, N.of_nat (length (done ++ a ++ b))).
Proof.
  intros Ha Hb Hlt.
  rewrite <- (length_of_list done).
  rewrite copy_over;
    [|exact Ha|rewrite !length_app, length_of_list; lia].
  replace (length (of_list done) + length a)
    with (length (of_list done ++ of_list a))
    by now rewrite length_app, !length_of_list.
  rewrite (app_assoc (of_list done)).
  rewrite copy_over;
    [|exact Hb|rewrite !length_app, !length_of_list; lia].
  rewrite !of_list_app, <- !app_assoc. f_equal. f_equal.
  rewrite !length_app, !length_of_list. lia.
Qed.

Section Pixel.

Variable self : PixelFunction.t.
Variables radarPixel opticalPixel : list float32.

Hypothesis Hrep : representable self radarPixel opticalPixel.

Local Abbreviation rb := (radarBandCount self).
Local Abbreviation ob := (opticalBandCount self).
Local Abbreviation w := (slotWidth self).
Local Abbreviation ss := (sentinel_slot self).

Lemma length_sentinel_slot : length ss = w.
Proof.
  unfold sentinel_slot, slotWidth.
  now rewrite length_app, !repeat_length.
Qed.

Lemma length_sentinel_fill (k : nat) : length (concat (repeat ss k)) = k * w.
Proof.
  induction k as [|k IH]; simpl; [reflexivity|].
  rewrite length_app, IH, length_sentinel_slot. reflexivity.
Qed.

Lemma length_radar_sub (pr : IndicesPair) :
  in_range self radarPixel opticalPixel pr ->
  length (radar_sub self radarPixel pr) = rb.
Proof.
  intros [H _]. unfold radar_sub, sub_pixel.
  rewrite length_firstn, length_skipn. lia.
Qed.

Lemma length_optical_sub (pr : IndicesPair) :
  in_range self radarPixel opticalPixel pr ->
  length (optical_sub self opticalPixel pr) = ob.
Proof.
  intros [_ H]. unfold optical_sub, sub_pixel.
  rewrite length_firstn, length_skipn. lia.
Qed.

Lemma length_slot_of (pr : IndicesPair) :
  in_range self radarPixel opticalPixel pr ->
  length (slot_of self radarPixel opticalPixel pr) = w.
Proof.
  intros H. unfold slot_of.
  rewrite length_app, length_radar_sub, length_optical_sub by exact H.
  reflexivity.
Qed.

(** Writing one slot over the sentinel fill that is there. *)
Lemma fill_slot (done : list float32) (rest : Vec.t) :
  (N.of_nat (length done + w + length rest) < uint_range)%N ->
  (st1 <- fill (N.to_nat (m_SARNbBands self)) (m_SARNoDataValue self)
            (of_list done ++ repeat None w ++ rest, N.of_nat (length done)) ;;
   fill (N.to_nat (m_OptNbBands self)) (m_OptNoDataValue self) st1)
  = Some (of_list (done ++ ss) ++ rest, N.of_nat (length (done ++ ss))).
Proof.
  intros Hlt. unfold slotWidth in *.
  rewrite repeat_app, <- app_assoc.
  rewrite <- (length_of_list done).
  rewrite fill_over;
    [|apply repeat_length
     |rewrite !length_app, !repeat_length, length_of_list;
      unfold radarBandCount, opticalBandCount in *; lia].
  replace (length (of_list done) + N.to_nat (m_SARNbBands self))
    with (length (of_list done ++ of_list (repeat (m_SARNoDataValue self) rb)))
    by (rewrite length_app, !length_of_list, repeat_length; reflexivity).
  rewrite app_assoc.
  rewrite fill_over;
    [|apply repeat_length
     |rewrite !length_app, !repeat_length, !length_of_list, repeat_length;
      unfold radarBandCount, opticalBandCount in *; lia].
  unfold sentinel_slot. rewrite !of_list_app, <- !app_assoc.
  f_equal. f_equal.
  rewrite !length_app, !length_of_list, !repeat_length.
  unfold radarBandCount, opticalBandCount. lia.
Qed.

Lemma prepare_spec :
  forall (n : nat) (done : list float32),
    (N.of_nat (length done + n * w) < uint_range)%N ->
    prepare self n (of_list done ++ repeat None (n * w), N.of_nat (length done))
    = Some (of_list (done ++ concat (repeat ss n)),
            N.of_nat (length done + n * w)).
Proof.
  induction n as [|n IH]; intros done Hlt.
  - simpl. now rewrite !app_nil_r, Nat.add_0_r.
  - cbn [prepare].
    change (S n * w) with (w + n * w) in Hlt |- *.
    rewrite repeat_app.
    pose proof (@fill_slot done (repeat None (n * w))) as Hf.
    rewrite repeat_length in Hf.
    destruct (fill (N.to_nat (m_SARNbBands self)) (m_SARNoDataValue self)
                (of_list done ++ repeat None w ++ repeat None (n * w),
                 N.of_nat (length done))) as [st1|];
      [|discriminate Hf; lia].
    rewrite Hf by lia.
    rewrite IH.
    + rewrite <- app_assoc. simpl. f_equal. f_equal.
      rewrite length_app, length_sentinel_slot. lia.
    + rewrite length_app, length_sentinel_slot. lia.
Qed.

Lemma first_valid_cons (k : nat) (pr : IndicesPair) (pairs : IndicesPairList) :
  first_valid self radarPixel opticalPixel k (pr :: pairs)
  = if valid self radarPixel opticalPixel pr then
      match k with
      | O => []
      | S k' => pr :: first_valid self radarPixel opticalPixel k' pairs
      end
    else first_valid self radarPixel opticalPixel k pairs.
Proof.
  unfold first_valid. simpl.
  destruct (valid self radarPixel opticalPixel pr); [|reflexivity].
  now destruct k.
Qed.

Lemma missing_nil (sentinel : float32) : missing [] sentinel = true.
Proof. reflexivity. Qed.

(** The loop over the pairs, from any of its states: [k] slots are still
    to fill, and what follows [pairs] is not looked at when [pairs] has
    [k] valid pairs. *)
Lemma iterate_spec :
  forall (pairs post : IndicesPairList) (done : list float32) (k : nat)
         (cur : N),
    Forall (in_range self radarPixel opticalPixel) pairs ->
    post = []
      \/ k <= length (filter (valid self radarPixel opticalPixel) pairs) ->
    outputSlotCount self = N.to_nat cur + k ->
    length done = N.to_nat cur * w ->
    iterate self (of_list radarPixel) (of_list opticalPixel) (pairs ++ post)
      (of_list (done ++ concat (repeat ss k)), N.of_nat (length done)) cur
    = Some (of_list
              (done
               ++ concat (map (slot_of self radarPixel opticalPixel)
                            (first_valid self radarPixel opticalPixel k pairs))
               ++ concat (repeat ss
                   (k - length (first_valid self radarPixel opticalPixel k pairs))))).
Proof.
  destruct Hrep as (HlenR & HlenO & Hfit).
  induction pairs as [|[sarIdx optIdx] pairs IH];
    intros post done k cur Hin Hpost Hcount Hdone.
  - unfold first_valid. simpl filter. rewrite firstn_nil.
    simpl. rewrite Nat.sub_0_r.
    destruct post as [|[s o] post]; [reflexivity|].
    destruct Hpost as [Hpost|Hpost]; [discriminate|].
    simpl in Hpost. cbn [iterate].
    replace (cur <? m_NbOutputImages self)%N with false; [reflexivity|].
    symmetry. apply N.ltb_ge. unfold outputSlotCount in Hcount. lia.
  - inversion Hin as [|? ? Hp Hin']; subst.
    rewrite first_valid_cons.
    cbn [iterate app].
    destruct (cur <? m_NbOutputImages self)%N eqn:Hcur.
    + apply N.ltb_lt in Hcur.
      destruct k as [|k]; [unfold outputSlotCount in Hcount; lia|].
      destruct Hp as [HpR HpO].
      rewrite !GetPixel_spec by (simpl in *; assumption).
      fold (radarBandCount self) (opticalBandCount self).
      change (sub_pixel radarPixel sarIdx rb)
        with (radar_sub self radarPixel (sarIdx, optIdx)).
      change (sub_pixel opticalPixel optIdx ob)
        with (optical_sub self opticalPixel (sarIdx, optIdx)).
      assert (HlR : length (radar_sub self radarPixel (sarIdx, optIdx)) = rb)
        by (apply length_radar_sub; split; assumption).
      assert (HlO : length (optical_sub self opticalPixel (sarIdx, optIdx)) = ob)
        by (apply length_optical_sub; split; assumption).
      rewrite IsNoData_spec by (simpl in *; lia).
      unfold valid.
      destruct (missing (radar_sub self radarPixel (sarIdx, optIdx))
                  (m_SARNoDataValue self)) eqn:HmR.
      * cbn [negb andb]. apply IH; try assumption.
        destruct Hpost as [Hpost|Hpost]; [now left|right].
        simpl in Hpost. unfold valid in Hpost. rewrite HmR in Hpost.
        exact Hpost.
      * rewrite IsNoData_spec by (simpl in *; lia).
        destruct (missing (optical_sub self opticalPixel (sarIdx, optIdx))
                    (m_OptNoDataValue self)) eqn:HmO.
        -- cbn [negb andb]. apply IH; try assumption.
           destruct Hpost as [Hpost|Hpost]; [now left|right].
           simpl in Hpost. unfold valid in Hpost.
           rewrite HmR, HmO in Hpost. exact Hpost.
        -- cbn [negb andb].
           assert (Hrb : 1 <= rb).
           { destruct (radar_sub self radarPixel (sarIdx, optIdx)) eqn:E;
               [discriminate HmR|]. simpl in HlR. lia. }
           assert (Hw : N.to_nat (m_SARNbBands self)
                        + N.to_nat (m_OptNbBands self) = w) by reflexivity.
           assert (Hw1 : 1 <= w) by (unfold radarBandCount in Hrb; lia).
           assert (Htot : (N.of_nat (length done + w + k * w) < uint_range)%N).
           { replace (length done + w + k * w) with (outputSlotCount self * w);
               [exact Hfit|]. rewrite Hcount, Hdone. nia. }
           match goal with |- _ = ?r => set (rhs := r) end.
           cbn [repeat concat].
           unfold sentinel_slot at 1.
           rewrite !of_list_app, <- !app_assoc.
           pose proof (@copy_slot done
                         (radar_sub self radarPixel (sarIdx, optIdx))
                         (optical_sub self opticalPixel (sarIdx, optIdx))
                         (of_list (repeat (m_SARNoDataValue self) rb))
                         (of_list (repeat (m_OptNoDataValue self) ob))
                         (of_list (concat (repeat ss k)))) as Hc.
           rewrite !length_of_list, !repeat_length, HlR, HlO,
             length_sentinel_fill in Hc.
           specialize (Hc eq_refl eq_refl).
           destruct (copy rb
                       (of_list (radar_sub self radarPixel (sarIdx, optIdx)))
                       0%N _) as [st1|];
             [|discriminate Hc; unfold radarBandCount, opticalBandCount; lia].
           rewrite Hc by (unfold radarBandCount, opticalBandCount; lia).
           clear Hc.
           fold (slot_of self radarPixel opticalPixel (sarIdx, optIdx)).
           rewrite wrap_small by (unfold uint_range in *; nia).
           rewrite <- of_list_app. subst rhs.
           rewrite IH; try assumption.
           ++ cbn [map concat length]. rewrite <- !app_assoc.
              reflexivity.
           ++ destruct Hpost as [Hpost|Hpost]; [now left|right].
              assert (Hv : valid self radarPixel opticalPixel (sarIdx, optIdx)
                           = true) by (unfold valid; now rewrite HmR, HmO).
              cbn [filter] in Hpost. rewrite Hv in Hpost.
              cbn [length] in Hpost. lia.
           ++ lia.
           ++ rewrite length_app, length_slot_of by (split; assumption).
              rewrite N2Nat.inj_add. change (N.to_nat 1) with 1. nia.
    + apply N.ltb_ge in Hcur.
      assert (k = 0) by (unfold outputSlotCount in Hcount; lia). subst k.
      destruct (valid self radarPixel opticalPixel (sarIdx, optIdx));
        unfold first_valid; simpl; now rewrite ?app_nil_r.
Qed.

End Pixel.

End FusionFacts.

Module FuseTheorems.

Import Vec VecFacts PixelFunction LoopFacts Fusion FusionFacts.

Lemma valid_with_pairs (self : PixelFunction.t) (sar opt : list float32)
    (l : IndicesPairList) :
  valid (with_pairs self l) sar opt = valid self sar opt.
Proof. reflexivity. Qed.

Lemma output_size_nat (self : PixelFunction.t) :
  (N.of_nat (outputSlotCount self * slotWidth self) < uint_range)%N ->
  N.to_nat (wrap (m_NbOutputImages self
                  * wrap (m_SARNbBands self + m_OptNbBands self)))
  = outputSlotCount self * slotWidth self.
Proof.
  unfold outputSlotCount, slotWidth, radarBandCount, opticalBandCount.
  intros Hfit.
  destruct (N.eq_dec (m_NbOutputImages self) 0) as [E|E].
  - rewrite E. reflexivity.
  - assert (Hsum : (m_SARNbBands self + m_OptNbBands self < uint_range)%N).
    { unfold uint_range in *. nia. }
    rewrite (@wrap_small (m_SARNbBands self + m_OptNbBands self)) by exact Hsum.
    rewrite wrap_small by (unfold uint_range in *; nia).
    rewrite N2Nat.inj_mul, N2Nat.inj_add. reflexivity.
Qed.

(** [operator()] on a list of pairs of which the part [pre] is in range
    and either is the whole list or holds enough valid pairs. *)
Lemma operator_call_prefix (self : PixelFunction.t) (sar opt : list float32)
    (pre post : IndicesPairList) :
  representable self sar opt ->
  m_Pairs self = pre ++ post ->
  Forall (in_range self sar opt) pre ->
  post = [] \/ outputSlotCount self <= length (filter (valid self sar opt) pre) ->
  operator_call self (of_list sar) (of_list opt)
  = Some (of_list (fused self sar opt pre)).
Proof.
  intros Hrep Hpairs Hin Hpost.
  pose proof Hrep as (_ & _ & Hfit).
  unfold operator_call, SetSize. rewrite output_size_nat by exact Hfit.
  pose proof (@prepare_spec self (outputSlotCount self) []) as Hp.
  simpl in Hp.
  change (N.to_nat (m_NbOutputImages self)) with (outputSlotCount self).
  rewrite Hp by exact Hfit. clear Hp. cbn [fst].
  rewrite Hpairs.
  pose proof (@iterate_spec self sar opt Hrep pre post []
                (outputSlotCount self) 0%N Hin Hpost) as Hi.
  simpl in Hi. rewrite Hi by reflexivity. reflexivity.
Qed.

(** The fused pixel, slot by slot. *)
Lemma slot_at_blocks (w : nat) :
  forall (blocks : list (list float32)) (rest : list float32) (i : nat)
         (b : list float32),
    Forall (fun c => length c = w) blocks ->
    nth_error blocks i = Some b ->
    firstn w (skipn (i * w) (concat blocks ++ rest)) = b.
Proof.
  induction blocks as [|c blocks IH]; intros rest i b Hall Hnth.
  - destruct i; discriminate.
  - inversion Hall as [|? ? Hc Hall']; subst.
    destruct i as [|i]; simpl in Hnth.
    + injection Hnth as <-. simpl. rewrite <- app_assoc.
      rewrite firstn_app, Nat.sub_diag, firstn_all. simpl.
      now rewrite app_nil_r.
    + simpl. rewrite <- app_assoc.
      rewrite skipn_app.
      rewrite skipn_all2 by lia. simpl.
      replace (length c + i * length c - length c) with (i * length c) by lia.
      now apply IH.
Qed.

Section Slots.

Variable self : PixelFunction.t.
Variables radarPixel opticalPixel : list float32.

Local Abbreviation N_out := (outputSlotCount self).
Local Abbreviation is_valid := (valid self radarPixel opticalPixel).
Local Abbreviation slot := (slot_of self radarPixel opticalPixel).
Local Abbreviation ok := (in_range self radarPixel opticalPixel).

Lemma first_valid_incl (n : nat) (pairs : IndicesPairList) (pr : IndicesPair) :
  In pr (first_valid self radarPixel opticalPixel n pairs) ->
  In pr pairs /\ is_valid pr = true.
Proof.
  unfold first_valid. intros H. apply In_firstn in H.
  now apply filter_In in H.
Qed.

Lemma length_first_valid (n : nat) (pairs : IndicesPairList) :
  length (first_valid self radarPixel opticalPixel n pairs)
  = Nat.min n (length (filter is_valid pairs)).
Proof. unfold first_valid. apply length_firstn. Qed.

Lemma fused_blocks (pairs : IndicesPairList) :
  fused self radarPixel opticalPixel pairs
  = concat (map slot (first_valid self radarPixel opticalPixel N_out pairs)
            ++ repeat (sentinel_slot self)
                 (N_out - length (first_valid self radarPixel opticalPixel
                                    N_out pairs))).
Proof. unfold fused. now rewrite concat_app. Qed.

(** Each slot of the fused pixel is the slot of the valid pair of that
    rank, or the sentinel fill when there is no valid pair of that rank. *)
Lemma fused_slot_at (pairs : IndicesPairList) (i : nat) :
  Forall ok pairs ->
  i < N_out ->
  slot_at self (fused self radarPixel opticalPixel pairs) i
  = match nth_error (first_valid self radarPixel opticalPixel N_out pairs) i with
    | Some pr => slot pr
    | None => sentinel_slot self
    end.
Proof.
  intros Hin Hi. rewrite fused_blocks. unfold slot_at.
  rewrite <- (app_nil_r (concat _)).
  apply slot_at_blocks.
  - apply Forall_app. split.
    + apply Forall_forall. intros c Hc. apply in_map_iff in Hc.
      destruct Hc as (pr & <- & Hpr). apply first_valid_incl in Hpr.
      apply length_slot_of. rewrite Forall_forall in Hin. now apply Hin.
    + apply Forall_forall. intros c Hc. apply repeat_spec in Hc. subst c.
      apply length_sentinel_slot.
  - destruct (nth_error (first_valid self radarPixel opticalPixel N_out pairs) i)
      as [pr|] eqn:E.
    + rewrite nth_error_app1
        by (rewrite length_map; apply nth_error_Some; congruence).
      now rewrite nth_error_map, E.
    + apply nth_error_None in E.
      rewrite nth_error_app2 by (rewrite length_map; exact E).
      rewrite length_map. apply nth_error_repeat. lia.
Qed.

End Slots.

End FuseTheorems.

(** ** The fusion rule *)

Section FuseClaims.

Import PixelFunction Fusion FusionFacts FuseTheorems.

Variable self : PixelFunction.t.
Variables radarPixel opticalPixel : list float32.

Local Abbreviation N_out := (outputSlotCount self).
Local Abbreviation is_valid := (valid self radarPixel opticalPixel).
Local Abbreviation slot := (slot_of self radarPixel opticalPixel).
Local Abbreviation ok := (in_range self radarPixel opticalPixel).

(** C1. When the pairs of the functor hold at least N valid pairs for the
    pixel, [operator()] returns the slots of the first N valid pairs, in the
    order of the list: slot [i] is the slot of the valid pair of rank [i].
    Whatever follows a part of the list that holds N valid pairs has no
    effect: with any other pairs in its place the result is the same. *)
Theorem fuse_first_valid_pairs :
  representable self radarPixel opticalPixel ->
  Forall ok (m_Pairs self) ->
  N_out <= length (filter is_valid (m_Pairs self)) ->
  let chosen := firstn N_out (filter is_valid (m_Pairs self)) in
  let out := concat (map slot chosen) in
  operator_call self (Vec.of_list radarPixel) (Vec.of_list opticalPixel)
  = Some (Vec.of_list out)
  /\ length chosen = N_out
  /\ (forall i pr, nth_error chosen i = Some pr -> slot_at self out i = slot pr)
  /\ (forall pre post post',
        m_Pairs self = pre ++ post ->
        N_out <= length (filter is_valid pre) ->
        operator_call (with_pairs self (pre ++ post'))
          (Vec.of_list radarPixel) (Vec.of_list opticalPixel)
        = Some (Vec.of_list out)).
Proof.
  intros Hrep Hin Hcount chosen out.
  assert (Hlen : length chosen = N_out).
  { unfold chosen. rewrite length_firstn. lia. }
  assert (Hfused : fused self radarPixel opticalPixel (m_Pairs self) = out).
  { unfold fused, first_valid. fold chosen. rewrite Hlen, Nat.sub_diag.
    simpl. apply app_nil_r. }
  split; [|split; [exact Hlen|split]].
  - rewrite <- Hfused.
    apply operator_call_prefix with (pre := m_Pairs self) (post := []);
      auto using app_nil_r.
  - intros i pr Hnth. rewrite <- Hfused.
    rewrite fused_slot_at; [|exact Hin|].
    + unfold first_valid. fold chosen. now rewrite Hnth.
    + rewrite <- Hlen. apply nth_error_Some. congruence.
  - intros pre post post' Hsplit Hpre.
    assert (Hsame : firstn N_out (filter is_valid pre) = chosen).
    { unfold chosen. rewrite Hsplit, filter_app, firstn_app.
      replace (N_out - length (filter is_valid pre)) with 0 by lia.
      simpl. now rewrite app_nil_r. }
    rewrite (@operator_call_prefix (with_pairs self (pre ++ post'))
               radarPixel opticalPixel pre post').
    + change (fused (with_pairs self (pre ++ post')) radarPixel opticalPixel pre)
        with (fused self radarPixel opticalPixel pre).
      unfold fused, first_valid. rewrite Hsame, Hlen, Nat.sub_diag. simpl.
      now rewrite app_nil_r.
    + exact Hrep.
    + reflexivity.
    + rewrite Hsplit in Hin. apply Forall_app in Hin. apply Hin.
    + right. exact Hpre.
Qed.

(** C2. When the pairs of the functor hold fewer than N valid pairs for
    the pixel, [operator()] returns the slots of the valid pairs followed by
    sentinel fill: each slot from the number of valid pairs on is the radar
    sentinel repeated over the radar bands followed by the optical sentinel
    repeated over the optical bands, and every slot is either the slot of
    one valid pair or that sentinel fill. *)
Theorem fuse_sentinel_fill :
  representable self radarPixel opticalPixel ->
  Forall ok (m_Pairs self) ->
  length (filter is_valid (m_Pairs self)) < N_out ->
  let valids := filter is_valid (m_Pairs self) in
  let fill :=
    repeat (m_SARNoDataValue self) (radarBandCount self)
    ++ repeat (m_OptNoDataValue self) (opticalBandCount self) in
  let out :=
    concat (map slot valids) ++ concat (repeat fill (N_out - length valids)) in
  operator_call self (Vec.of_list radarPixel) (Vec.of_list opticalPixel)
  = Some (Vec.of_list out)
  /\ (forall i, length valids <= i < N_out -> slot_at self out i = fill)
  /\ (forall i, i < N_out ->
        (exists pr, In pr (m_Pairs self) /\ is_valid pr = true
                    /\ slot_at self out i = slot pr)
        \/ slot_at self out i = fill).
Proof.
  intros Hrep Hin Hcount valids fill out.
  assert (Hfv : first_valid self radarPixel opticalPixel N_out (m_Pairs self)
                = valids).
  { unfold first_valid. fold valids. apply firstn_all2. unfold valids. lia. }
  assert (Hfused : fused self radarPixel opticalPixel (m_Pairs self) = out).
  { unfold fused. rewrite Hfv. reflexivity. }
  split; [|split].
  - rewrite <- Hfused.
    apply operator_call_prefix with (pre := m_Pairs self) (post := []);
      auto using app_nil_r.
  - intros i [Hlo Hhi]. rewrite <- Hfused.
    rewrite fused_slot_at by assumption. rewrite Hfv.
    apply nth_error_None in Hlo. now rewrite Hlo.
  - intros i Hi. rewrite <- Hfused.
    rewrite fused_slot_at by assumption. rewrite Hfv.
    destruct (nth_error valids i) as [pr|] eqn:E; [left|now right].
    exists pr. apply nth_error_In in E. unfold valids in E.
    apply filter_In in E. destruct E as [E1 E2]. auto.
Qed.

End FuseClaims.

(** C1, on the worked configuration with one output image: the single slot
    is the slot of the pair (1,0). *)
Lemma fuse_first_valid_pairs_witness :
  PixelFunction.operator_call (Example.functor 1)
    (Vec.of_list Example.radarPixel) (Vec.of_list Example.opticalPixel)
  = Some (Vec.of_list (map Z2F [5; 5; 7]%Z)).
Proof.
  refine (proj1 (@fuse_first_valid_pairs (Example.functor 1)
                   Example.radarPixel Example.opticalPixel _ _ _)).
  - unfold Fusion.representable. vm_compute. auto.
  - repeat constructor; vm_compute; intro; discriminate.
  - vm_compute. constructor.
Defined.

(** C2, on the worked configuration with two output images: the second
    slot is sentinel fill. *)
Lemma fuse_sentinel_fill_witness :
  PixelFunction.operator_call (Example.functor 2)
    (Vec.of_list Example.radarPixel) (Vec.of_list Example.opticalPixel)
  = Some (Vec.of_list (map Z2F [5; 5; 7; 0; 0; -9999]%Z)).
Proof.
  refine (proj1 (@fuse_sentinel_fill (Example.functor 2)
                   Example.radarPixel Example.opticalPixel _ _ _)).
  - unfold Fusion.representable. vm_compute. auto.
  - repeat constructor; vm_compute; intro; discriminate.
  - vm_compute. constructor.
Defined.

(** C7. With two radar bands, one optical band, one output image, the
    sentinels 0 and -9999 and the pairs (0,0), (1,0), the radar pixel
    [0,0,5,5] and the optical pixel [7] are fused into [5,5,7]: the pair
    (0,0) is not valid, its radar sub-pixel being the sentinel in both bands,
    and the pair (1,0) is valid. *)
Theorem fuse_example :
  PixelFunction.operator_call
    (PixelFunction.SetParameters [(0, 0); (1, 0)]%N 2 1 (Z2F 0) (Z2F (-9999)) 1)
    (Vec.of_list (map Z2F [0; 0; 5; 5]%Z)) (Vec.of_list (map Z2F [7]%Z))
  = Some (Vec.of_list (map Z2F [5; 5; 7]%Z))
  /\ (r <- PixelFunction.GetPixel (Vec.of_list (map Z2F [0; 0; 5; 5]%Z)) 0 2 ;;
      PixelFunction.IsNoData r (Z2F 0)) = Some true
  /\ (r <- PixelFunction.GetPixel (Vec.of_list (map Z2F [0; 0; 5; 5]%Z)) 1 2 ;;
      PixelFunction.IsNoData r (Z2F 0)) = Some false
  /\ (o <- PixelFunction.GetPixel (Vec.of_list (map Z2F [7]%Z)) 0 1 ;;
      PixelFunction.IsNoData o (Z2F (-9999))) = Some false.
Proof. vm_compute. repeat split. Qed.

(** C10. Whatever their parameters, two functors are never told apart:
    [operator!=] answers [false] and [operator==] answers [true]; so do they
    for two functors that differ in their number of output images and fuse
    the same pixels into different ones. *)
Theorem functors_compare_equal :
  (forall self other : PixelFunction.t,
      PixelFunction.operator_ne self other = false
      /\ PixelFunction.operator_eq self other = true)
  /\ (PixelFunction.operator_eq (Example.functor 1) (Example.functor 2) = true
      /\ PixelFunction.operator_call (Example.functor 1)
           (Vec.of_list Example.radarPixel) (Vec.of_list Example.opticalPixel)
         <> PixelFunction.operator_call (Example.functor 2)
              (Vec.of_list Example.radarPixel)
              (Vec.of_list Example.opticalPixel)).
Proof.
  split; [intros self other; split; reflexivity|].
  split; [reflexivity|]. vm_compute. discriminate.
Qed.

(** ** Sorting *)

Module SortFacts.

Import StdSort FloatFacts.

Section Generic.

Variable T : Type.

Lemma Permutation_filter (f : T -> bool) (l l' : list T) :
  Permutation l l' -> Permutation (filter f l) (filter f l').
Proof.
  induction 1 as [|x l l' _ IH|x y l|l l' l'' _ IH1 _ IH2]; simpl.
  - constructor.
  - destruct (f x); auto.
  - destruct (f x), (f y); auto using perm_swap.
  - now transitivity (filter f l').
Qed.

Lemma StronglySorted_filter (R : T -> T -> Prop) (f : T -> bool) (l : list T) :
  StronglySorted R l -> StronglySorted R (filter f l).
Proof.
  induction 1 as [|a l _ IH Ha]; simpl; [constructor|].
  destruct (f a); [|exact IH].
  constructor; [exact IH|].
  rewrite Forall_forall in *. intros x Hx. apply filter_In in Hx.
  now apply Ha.
Qed.

Lemma StronglySorted_weaken (R R' : T -> T -> Prop) (l : list T) :
  (forall a b, In a l -> In b l -> R a b -> R' a b) ->
  StronglySorted R l -> StronglySorted R' l.
Proof.
  intros Himp Hs. induction Hs as [|a l _ IH Ha]; [constructor|].
  constructor.
  - apply IH. intros x y Hx Hy. apply Himp; now right.
  - rewrite Forall_forall in *. intros x Hx.
    apply Himp; [now left|now right|now apply Ha].
Qed.

Lemma strict_weak_order_on_incl (comp : T -> T -> bool) (l l' : list T) :
  incl l' l -> strict_weak_order_on comp l -> strict_weak_order_on comp l'.
Proof.
  intros Hincl (Hirr & Htr & Heq). repeat split; intros.
  - apply Hirr; auto.
  - apply Htr with b; auto.
  - apply (Heq a b c); auto.
  - apply (Heq a b c); auto.
Qed.

Lemma insert_Permutation (comp : T -> T -> bool) (x : T) (l : list T) :
  Permutation (x :: l) (insert comp x l).
Proof.
  induction l as [|y l IH]; simpl; [reflexivity|].
  destruct (comp x y); [reflexivity|].
  rewrite perm_swap. now constructor.
Qed.

Lemma insertion_sort_Permutation (comp : T -> T -> bool) (l : list T) :
  Permutation l (insertion_sort comp l).
Proof.
  induction l as [|x l IH]; simpl; [constructor|].
  rewrite <- insert_Permutation. now constructor.
Qed.

Lemma insert_sorted (comp : T -> T -> bool) (x : T) (l : list T) :
  strict_weak_order_on comp (x :: l) ->
  StronglySorted (fun a b => comp b a = false) l ->
  StronglySorted (fun a b => comp b a = false) (insert comp x l).
Proof.
  intros Hswo Hs. induction Hs as [|y l Hs IH Hy]; simpl.
  - repeat constructor.
  - pose proof Hswo as (Hirr & Htr & _).
    destruct (comp x y) eqn:Hxy.
    + constructor; [now constructor|].
      constructor.
      * destruct (comp y x) eqn:Hyx; [|reflexivity].
        rewrite <- (Hirr x) by now left.
        symmetry. apply Htr with y; simpl; auto.
      * rewrite Forall_forall in *. intros z Hz.
        destruct (comp z x) eqn:Hzx; [|reflexivity].
        rewrite <- (Hy z Hz).
        symmetry. apply Htr with x; simpl; auto.
    + constructor.
      * apply IH. eapply strict_weak_order_on_incl; [|exact Hswo].
        intros z [Hz|Hz]; simpl; auto.
      * rewrite Forall_forall in *. intros z Hz.
        apply (Permutation_in _ (Permutation_sym (insert_Permutation comp x l)))
          in Hz.
        destruct Hz as [<-|Hz]; [exact Hxy|now apply Hy].
Qed.

Lemma insertion_sort_is_std_sort : is_std_sort (@insertion_sort T).
Proof.
  intros comp l Hswo. split; [apply insertion_sort_Permutation|].
  induction l as [|x l IH]; simpl; [constructor|].
  apply insert_sorted.
  - eapply strict_weak_order_on_incl; [|exact Hswo].
    intros z [Hz|Hz]; [now left|right].
    apply (Permutation_in _ (Permutation_sym (insertion_sort_Permutation comp l))).
    exact Hz.
  - apply IH. eapply strict_weak_order_on_incl; [|exact Hswo].
    intros z Hz. now right.
Qed.

(** Comparing the keys of the elements with [<] on floats is a strict
    weak ordering when no key is a NaN; so is comparing them with [>]. *)
Variable key : T -> float32.

Lemma key_lt_swo (l : list T) :
  (forall a, In a l -> is_nan (key a) = false) ->
  strict_weak_order_on (fun a b => flt (key a) (key b)) l.
Proof.
  intros Hnan. split; [|split].
  - intros a Ha. apply flt_false_rank; auto. apply lex_lt_irrefl.
  - intros a b c Ha Hb Hc Hab Hbc.
    apply flt_rank in Hab; auto. apply flt_rank in Hbc; auto.
    apply flt_rank; auto. eapply lex_lt_trans; eauto.
  - intros a b c Ha Hb Hc Hab Hba Hbc Hcb.
    apply flt_false_rank in Hab; auto. apply flt_false_rank in Hba; auto.
    apply flt_false_rank in Hbc; auto. apply flt_false_rank in Hcb; auto.
    split; apply flt_false_rank; auto; eapply lex_lt_neg_trans; eauto.
Qed.

Lemma key_gt_swo (l : list T) :
  (forall a, In a l -> is_nan (key a) = false) ->
  strict_weak_order_on (fun a b => fgt (key a) (key b)) l.
Proof.
  intros Hnan. unfold fgt. fold (flt).
  destruct (key_lt_swo l Hnan) as (Hirr & Htr & Heq).
  split; [exact Hirr|split].
  - intros a b c Ha Hb Hc Hab Hbc. apply (Htr c b a); auto.
  - intros a b c Ha Hb Hc Hab Hba Hbc Hcb.
    destruct (Heq c b a) as [H1 H2]; auto.
Qed.

Lemma sorted_lt_ascending (l : list T) :
  (forall a, In a l -> is_nan (key a) = false) ->
  StronglySorted (fun a b => flt (key b) (key a) = false) l ->
  StronglySorted (fun a b => fle (key a) (key b) = true) l.
Proof.
  intros Hnan. apply StronglySorted_weaken.
  intros a b Ha Hb H. apply fle_of_not_flt; auto.
Qed.

Lemma sorted_gt_descending (l : list T) :
  (forall a, In a l -> is_nan (key a) = false) ->
  StronglySorted (fun a b => fgt (key b) (key a) = false) l ->
  StronglySorted (fun a b => fle (key b) (key a) = true) l.
Proof.
  intros Hnan. apply StronglySorted_weaken.
  intros a b Ha Hb H. apply fle_of_not_flt; auto.
Qed.

End Generic.

End SortFacts.

(** ** The pair matcher *)

Module MatcherFacts.

Import DecloudTimeSeriesPreProcessor Matching StdSort SortFacts FloatFacts.

Lemma map_timestamp_indexed (ts : list float32) :
  forall count, map timestamp (indexed count ts) = ts.
Proof.
  induction ts as [|t ts IH]; intros count; simpl; [reflexivity|].
  now rewrite IH.
Qed.

Lemma wrap_add_l (a b : N) : wrap (wrap a + b) = wrap (a + b).
Proof. unfold wrap. apply N.Div0.add_mod_idemp_l. Qed.

(** An entry holds the timestamp of some position and that position as an
    [unsigned int]. *)
Lemma indexed_position (ts : list float32) :
  forall count e,
    (count < uint_range)%N ->
    In e (indexed count ts) ->
    exists k, nth_error ts k = Some (timestamp e)
              /\ index e = wrap (count + N.of_nat k).
Proof.
  induction ts as [|t ts IH]; intros count e Hc Hin; simpl in Hin; [tauto|].
  destruct Hin as [<-|Hin].
  - exists 0. simpl. split; [reflexivity|].
    rewrite N.add_0_r. now rewrite wrap_small.
  - destruct (IH _ e (wrap_lt (count + 1)) Hin) as (k & Hk & Hi).
    exists (S k). split; [exact Hk|].
    rewrite Hi, wrap_add_l. f_equal. lia.
Qed.

Lemma finite_entries_indexed (ts : list float32) (count : N) :
  Forall (fun t => is_finite t = true) ts ->
  finite_entries (indexed count ts).
Proof.
  intros H. unfold finite_entries.
  rewrite <- (map_timestamp_indexed ts count) in H.
  now apply Forall_map in H.
Qed.

Lemma pick_spec (maxGap : float32) (o : TimestampWithIndex) :
  forall (l : TimestampWithIndexList) (acc : IndicesPairList),
    pick maxGap (timestamp o) (index o) l acc
    = acc ++ group_of o (filter (within maxGap o) l).
Proof.
  induction l as [|r l IH]; intros acc; simpl.
  - now rewrite app_nil_r.
  - unfold within at 1, gap.
    destruct (fle (fabs (fsub (timestamp r) (timestamp o))) maxGap).
    + rewrite IH. simpl. now rewrite <- app_assoc.
    + apply IH.
Qed.

Section Matcher.

Variable stof : string -> option float32.
Variable std_sort :
  (TimestampWithIndex -> TimestampWithIndex -> bool) ->
  TimestampWithIndexList -> TimestampWithIndexList.

Hypothesis Hsort : is_std_sort std_sort.

Lemma GetTimestampsWithIndices_loop_parsed :
  forall (strs : list string) (ts : list float32) (count : N)
         (acc : TimestampWithIndexList),
    parsed stof strs ts ->
    GetTimestampsWithIndices_loop stof strs count acc
    = inr (acc ++ indexed count ts).
Proof.
  unfold parsed.
  induction strs as [|str strs IH]; intros [|t ts] count acc Hp;
    simpl in Hp; try discriminate.
  - simpl. now rewrite app_nil_r.
  - injection Hp as Ht Hp. simpl. unfold Str2Timestamp. rewrite Ht.
    rewrite IH with (ts := ts) by exact Hp.
    now rewrite <- app_assoc.
Qed.

Lemma GetTimestampsWithIndices_parsed (strs : list string)
    (ts : list float32) :
  parsed stof strs ts ->
  GetTimestampsWithIndices stof strs = inr (indexed 0 ts).
Proof.
  intros Hp. unfold GetTimestampsWithIndices.
  now rewrite GetTimestampsWithIndices_loop_parsed with (ts := ts).
Qed.

(** The only exception of [GetTimestampsWithIndices] is that of
    [std::stof]. *)
Lemma GetTimestampsWithIndices_loop_exception :
  forall (strs : list string) (count : N) (acc : TimestampWithIndexList)
         (e : exception),
    GetTimestampsWithIndices_loop stof strs count acc = inl e ->
    e = stof_exception.
Proof.
  induction strs as [|str strs IH]; intros count acc e H; simpl in H.
  - discriminate.
  - unfold Str2Timestamp in H. destruct (stof str) as [t|].
    + now apply IH in H.
    + now injection H.
Qed.

(** Sorting the entries by their gap to a timestamp. *)
Lemma sort_by_gap (ref : float32) (l : TimestampWithIndexList) :
  is_finite ref = true ->
  finite_entries l ->
  Permutation l (std_sort (cmp_abs ref) l)
  /\ ascending (fun e => gap (timestamp e) ref) (std_sort (cmp_abs ref) l).
Proof.
  intros Href Hfin.
  assert (Hnan : forall a, In a l -> is_nan (gap (timestamp a) ref) = false).
  { intros a Ha. unfold gap. apply fabs_not_nan, fsub_not_nan; auto.
    unfold finite_entries in Hfin. rewrite Forall_forall in Hfin. auto. }
  pose proof Hsort as Hs. unfold is_std_sort in Hs.
  destruct (Hs (cmp_abs ref) l) as [Hperm Hsorted].
  { apply (key_lt_swo (fun e => gap (timestamp e) ref) l Hnan). }
  split; [exact Hperm|].
  apply sorted_lt_ascending; [|exact Hsorted].
  intros a Ha. apply Hnan.
  apply (Permutation_in _ (Permutation_sym Hperm)). exact Ha.
Qed.

Lemma sort_ascending (l : TimestampWithIndexList) :
  finite_entries l ->
  Permutation l (std_sort cmp_asc l)
  /\ ascending timestamp (std_sort cmp_asc l).
Proof.
  intros Hfin.
  assert (Hnan : forall a, In a l -> is_nan (timestamp a) = false).
  { intros a Ha. apply finite_not_nan.
    unfold finite_entries in Hfin. rewrite Forall_forall in Hfin. auto. }
  pose proof Hsort as Hs. unfold is_std_sort in Hs.
  destruct (Hs cmp_asc l) as [Hperm Hsorted].
  { apply (key_lt_swo timestamp l Hnan). }
  split; [exact Hperm|].
  apply sorted_lt_ascending; [|exact Hsorted].
  intros a Ha. apply Hnan.
  apply (Permutation_in _ (Permutation_sym Hperm)). exact Ha.
Qed.

Lemma sort_descending (l : TimestampWithIndexList) :
  finite_entries l ->
  Permutation l (std_sort cmp_des l)
  /\ descending timestamp (std_sort cmp_des l).
Proof.
  intros Hfin.
  assert (Hnan : forall a, In a l -> is_nan (timestamp a) = false).
  { intros a Ha. apply finite_not_nan.
    unfold finite_entries in Hfin. rewrite Forall_forall in Hfin. auto. }
  pose proof Hsort as Hs. unfold is_std_sort in Hs.
  destruct (Hs cmp_des l) as [Hperm Hsorted].
  { apply (key_gt_swo timestamp l Hnan). }
  split; [exact Hperm|].
  apply sorted_gt_descending; [|exact Hsorted].
  intros a Ha. apply Hnan.
  apply (Permutation_in _ (Permutation_sym Hperm)). exact Ha.
Qed.

Lemma collect_spec (maxGap : float32) :
  forall (opts sar : TimestampWithIndexList) (acc : IndicesPairList),
    finite_entries opts ->
    finite_entries sar ->
    exists sar' groups,
      collect std_sort maxGap opts sar acc = (sar', acc ++ concat groups)
      /\ Permutation sar sar'
      /\ Forall2 (is_group maxGap sar) opts groups.
Proof.
  induction opts as [|o opts IH]; intros sar acc Hopts Hsar.
  - exists sar, []. simpl. rewrite app_nil_r.
    split; [reflexivity|split; [apply Permutation_refl|constructor]].
  - inversion Hopts as [|? ? Ho Hopts']; subst.
    destruct (@sort_by_gap (timestamp o) sar Ho Hsar) as [Hperm Hasc].
    assert (Hsar' : finite_entries (std_sort (cmp_abs (timestamp o)) sar)).
    { unfold finite_entries. now rewrite <- Hperm. }
    cbn [collect]. rewrite pick_spec.
    destruct (IH (std_sort (cmp_abs (timestamp o)) sar)
                (acc ++ group_of o
                   (filter (within maxGap o)
                      (std_sort (cmp_abs (timestamp o)) sar)))
                Hopts' Hsar') as (sar' & groups & Hc & Hp & Hg).
    exists sar',
      (group_of o (filter (within maxGap o)
                     (std_sort (cmp_abs (timestamp o)) sar)) :: groups).
    split; [|split].
    + rewrite Hc. simpl. now rewrite <- app_assoc.
    + now transitivity (std_sort (cmp_abs (timestamp o)) sar).
    + constructor.
      * exists (filter (within maxGap o) (std_sort (cmp_abs (timestamp o)) sar)).
        split; [|split].
        -- apply Permutation_filter. now symmetry.
        -- apply StronglySorted_filter. exact Hasc.
        -- reflexivity.
      * eapply Forall2_impl; [|exact Hg].
        intros o' g (rs & Hrs & Hsorted & ->).
        exists rs. split; [|split; [exact Hsorted|reflexivity]].
        rewrite Hrs. apply Permutation_filter. now symmetry.
Qed.

Lemma SortTimestampsWithIndices_spec (p : Parameters)
    (ts : TimestampWithIndexList) :
  finite_entries ts ->
  reference_ok stof p ->
  exists sorted,
    SortTimestampsWithIndices stof std_sort p ts = inr sorted
    /\ Permutation ts sorted
    /\ follows_policy stof p sorted.
Proof.
  intros Hfin Href. unfold SortTimestampsWithIndices, follows_policy.
  assert (Hne : ASC <> DES /\ ASC <> ABS /\ DES <> ABS)
    by (repeat split; discriminate).
  destruct Hne as (H01 & H02 & H12).
  destruct (Z.eqb_spec (sorting p) ASC) as [E|E].
  - destruct (sort_ascending Hfin) as [Hperm Hasc].
    exists (std_sort cmp_asc ts).
    split; [reflexivity|split; [exact Hperm|]].
    split; [intros _; exact Hasc|split; intros E'; congruence].
  - destruct (Z.eqb_spec (sorting p) DES) as [E'|E'].
    + destruct (sort_descending Hfin) as [Hperm Hdes].
      exists (std_sort cmp_des ts).
      split; [reflexivity|split; [exact Hperm|]].
      split; [intros E''; congruence|].
      split; [intros _; exact Hdes|intros E''; congruence].
    + destruct (Z.eqb_spec (sorting p) ABS) as [E''|E''].
      * destruct (Href E'') as (ref & Hparse & Hfinite).
        unfold Str2Timestamp. rewrite Hparse.
        destruct (@sort_by_gap ref ts Hfinite Hfin) as [Hperm Hasc].
        exists (std_sort (cmp_abs ref) ts).
        split; [reflexivity|split; [exact Hperm|]].
        split; [intros E3; congruence|].
        split; [intros E3; congruence|].
        intros _ ref' Hparse'.
        assert (ref' = ref) by congruence. subst ref'. exact Hasc.
      * exists ts.
        split; [reflexivity|split; [apply Permutation_refl|]].
        split; [intros E3; congruence|].
        split; intros E3; congruence.
Qed.

(** The candidate pairs are the groups of the optical entries, the
    optical entries taken in the order of the sorting mode; the matcher
    throws when there is no candidate pair, and returns them
    otherwise. *)
Lemma GetCandidatesPairs_structure (p : Parameters)
    (radarTs optTs : list float32) :
  parsed stof (timestampssar p) radarTs ->
  parsed stof (timestampsopt p) optTs ->
  all_finite radarTs ->
  all_finite optTs ->
  reference_ok stof p ->
  exists optSorted groups,
    Permutation (indexed 0 optTs) optSorted
    /\ follows_policy stof p optSorted
    /\ Forall2 (is_group (maxgap p) (indexed 0 radarTs)) optSorted groups
    /\ GetCandidatesPairs stof std_sort p
       = match concat groups with
         | [] => inl fatal_exception
         | _ :: _ => inr (concat groups)
         end.
Proof.
  intros HpR HpO HfR HfO Href. unfold GetCandidatesPairs.
  rewrite (GetTimestampsWithIndices_parsed HpR).
  rewrite (GetTimestampsWithIndices_parsed HpO).
  destruct (@SortTimestampsWithIndices_spec p (indexed 0 optTs))
    as (optSorted & Hs & Hperm & Hpol); auto using finite_entries_indexed.
  rewrite Hs.
  destruct (@collect_spec (maxgap p) optSorted (indexed 0 radarTs) [])
    as (sar' & groups & Hc & _ & Hg).
  { unfold finite_entries. rewrite <- Hperm.
    now apply finite_entries_indexed. }
  { now apply finite_entries_indexed. }
  exists optSorted, groups. rewrite Hc. simpl.
  split; [exact Hperm|split; [exact Hpol|split; [exact Hg|]]].
  destruct (concat groups); reflexivity.
Qed.

End Matcher.

End MatcherFacts.

(** ** The candidate pairs *)

Section MatcherClaims.

Import DecloudTimeSeriesPreProcessor Matching StdSort SortFacts MatcherFacts.

Variable stof : string -> option float32.
Variable std_sort :
  (TimestampWithIndex -> TimestampWithIndex -> bool) ->
  TimestampWithIndexList -> TimestampWithIndexList.

Variable p : Parameters.
Variables radarTimestamps opticalTimestamps : list float32.

Lemma is_group_In (maxGap : float32) (radar : TimestampWithIndexList)
    (o : TimestampWithIndex) (g : IndicesPairList) (pr : IndicesPair) :
  is_group maxGap radar o g ->
  In pr g ->
  exists r, In r radar /\ within maxGap o r = true
            /\ pr = (index r, index o).
Proof.
  intros (rs & Hperm & _ & ->) Hin. unfold group_of in Hin.
  apply in_map_iff in Hin. destruct Hin as (r & <- & Hr).
  apply (Permutation_in _ Hperm) in Hr. apply filter_In in Hr.
  exists r. tauto.
Qed.

Lemma In_concat_groups (maxGap : float32) (radar : TimestampWithIndexList)
    (opts : TimestampWithIndexList) (groups : list IndicesPairList)
    (pr : IndicesPair) :
  Forall2 (is_group maxGap radar) opts groups ->
  In pr (concat groups) ->
  exists o r, In o opts /\ In r radar /\ within maxGap o r = true
              /\ pr = (index r, index o).
Proof.
  induction 1 as [|o g opts groups Hg _ IH]; simpl; [tauto|].
  intros Hin. apply in_app_or in Hin. destruct Hin as [Hin|Hin].
  - destruct (@is_group_In maxGap radar o g pr Hg Hin) as (r & Hr & Hw & ->).
    exists o, r. simpl. auto.
  - destruct (IH Hin) as (o' & r & Ho & Hr & Hw & ->).
    exists o', r. simpl. auto.
Qed.

(** C3. Every pair that the matcher returns holds the positions, as
    [unsigned int], of a radar timestamp and of an optical timestamp whose
    gap, as the code computes it, is at most [maxgap]: the bound itself
    passes. *)
Theorem candidate_pairs_within_gap :
  is_std_sort std_sort ->
  parsed stof (timestampssar p) radarTimestamps ->
  parsed stof (timestampsopt p) opticalTimestamps ->
  all_finite radarTimestamps ->
  all_finite opticalTimestamps ->
  reference_ok stof p ->
  forall pairs,
    GetCandidatesPairs stof std_sort p = inr pairs ->
    forall radarIndex opticalIndex,
      In (radarIndex, opticalIndex) pairs ->
      exists i j radarTimestamp opticalTimestamp,
        nth_error radarTimestamps i = Some radarTimestamp
        /\ nth_error opticalTimestamps j = Some opticalTimestamp
        /\ radarIndex = wrap (N.of_nat i)
        /\ opticalIndex = wrap (N.of_nat j)
        /\ fle (fabs (fsub radarTimestamp opticalTimestamp)) (maxgap p) = true.
Proof.
  intros Hsort HpR HpO HfR HfO Href pairs Hres ri oi Hin.
  destruct (@GetCandidatesPairs_structure stof std_sort Hsort p
              radarTimestamps opticalTimestamps HpR HpO HfR HfO Href)
    as (optSorted & groups & Hperm & _ & Hg & Heq).
  rewrite Heq in Hres.
  destruct (concat groups) as [|c cs] eqn:E; [discriminate|].
  injection Hres as <-. rewrite <- E in Hin.
  destruct (@In_concat_groups _ _ _ _ _ Hg Hin) as (o & r & Ho & Hr & Hw & Hpr).
  injection Hpr as -> ->.
  apply (Permutation_in _ (Permutation_sym Hperm)) in Ho.
  destruct (@indexed_position radarTimestamps 0%N r) as (i & Hi & Hri);
    [reflexivity|exact Hr|].
  destruct (@indexed_position opticalTimestamps 0%N o) as (j & Hj & Hoj);
    [reflexivity|exact Ho|].
  exists i, j, (timestamp r), (timestamp o).
  repeat split; auto.
Qed.

(** C4. The candidate pairs are the groups of the optical entries, one
    after the other. The optical entries come in the order of the sorting
    mode: under ASC their timestamps never decrease, under DES they never
    increase, under ABS their gaps to the reference timestamp never
    decrease. The group of an optical entry holds the radar entries that
    pass the gap filter, each once, with gaps to that optical entry that
    never decrease. Which of two entries of equal key comes first is not
    fixed. *)
Theorem candidate_pairs_order :
  is_std_sort std_sort ->
  parsed stof (timestampssar p) radarTimestamps ->
  parsed stof (timestampsopt p) opticalTimestamps ->
  all_finite radarTimestamps ->
  all_finite opticalTimestamps ->
  reference_ok stof p ->
  exists (outer : TimestampWithIndexList) (groups : list IndicesPairList),
    Permutation (indexed 0 opticalTimestamps) outer
    /\ (sorting p = ASC ->
        StronglySorted
          (fun a b => fle (timestamp a) (timestamp b) = true) outer)
    /\ (sorting p = DES ->
        StronglySorted
          (fun a b => fle (timestamp b) (timestamp a) = true) outer)
    /\ (sorting p = ABS ->
        forall R, stof (GetParameterAsString_reftimestamp p) = Some R ->
          StronglySorted
            (fun a b => fle (fabs (fsub (timestamp a) R))
                            (fabs (fsub (timestamp b) R)) = true) outer)
    /\ Forall2
         (fun o g =>
            exists inner,
              Permutation inner
                (filter (within (maxgap p) o) (indexed 0 radarTimestamps))
              /\ StronglySorted
                   (fun a b =>
                      fle (fabs (fsub (timestamp a) (timestamp o)))
                          (fabs (fsub (timestamp b) (timestamp o))) = true)
                   inner
              /\ g = map (fun r => (index r, index o)) inner)
         outer groups
    /\ GetCandidatesPairs stof std_sort p
       = match concat groups with
         | [] => inl fatal_exception
         | _ :: _ => inr (concat groups)
         end.
Proof.
  intros Hsort HpR HpO HfR HfO Href.
  destruct (@GetCandidatesPairs_structure stof std_sort Hsort p
              radarTimestamps opticalTimestamps HpR HpO HfR HfO Href)
    as (optSorted & groups & Hperm & (Hasc & Hdes & Habs) & Hg & Heq).
  exists optSorted, groups.
  split; [exact Hperm|]. split; [exact Hasc|]. split; [exact Hdes|].
  split; [exact Habs|]. split; [exact Hg|exact Heq].
Qed.

Lemma Forall2_In_l (A B : Type) (R : A -> B -> Prop) (l : list A)
    (l' : list B) (x : A) :
  Forall2 R l l' -> In x l -> exists y, In y l' /\ R x y.
Proof.
  induction 1 as [|a b l l' Hab _ IH]; simpl; [tauto|].
  intros [<-|Hin].
  - exists b. auto.
  - destruct (IH Hin) as (y & Hy & Hxy). exists y. auto.
Qed.

Lemma In_indexed_timestamp (ts : list float32) (e : TimestampWithIndex) :
  In e (indexed 0 ts) -> In (timestamp e) ts.
Proof.
  intros H. rewrite <- (map_timestamp_indexed ts 0). now apply in_map.
Qed.

Lemma In_timestamp_indexed (ts : list float32) (t : float32) :
  In t ts -> exists e, In e (indexed 0 ts) /\ timestamp e = t.
Proof.
  intros H. rewrite <- (map_timestamp_indexed ts 0) in H.
  apply in_map_iff in H. destruct H as (e & He & Hin). exists e. auto.
Qed.

(** C6. When no radar timestamp and optical timestamp pass the gap
    filter, the matcher throws the fatal exception and returns no list;
    when some do, it returns a list, which is not empty. *)
Theorem no_candidate_is_fatal :
  is_std_sort std_sort ->
  parsed stof (timestampssar p) radarTimestamps ->
  parsed stof (timestampsopt p) opticalTimestamps ->
  all_finite radarTimestamps ->
  all_finite opticalTimestamps ->
  reference_ok stof p ->
  ((forall rt ot,
       In rt radarTimestamps -> In ot opticalTimestamps ->
       fle (fabs (fsub rt ot)) (maxgap p) = false) ->
   GetCandidatesPairs stof std_sort p = inl fatal_exception)
  /\ ((exists rt ot,
         In rt radarTimestamps /\ In ot opticalTimestamps
         /\ fle (fabs (fsub rt ot)) (maxgap p) = true) ->
      exists pairs,
        GetCandidatesPairs stof std_sort p = inr pairs /\ pairs <> []).
Proof.
  intros Hsort HpR HpO HfR HfO Href.
  destruct (@GetCandidatesPairs_structure stof std_sort Hsort p
              radarTimestamps opticalTimestamps HpR HpO HfR HfO Href)
    as (optSorted & groups & Hperm & _ & Hg & Heq).
  rewrite Heq. split.
  - intros Hnone.
    destruct (concat groups) as [|pr rest] eqn:E; [reflexivity|exfalso].
    assert (Hin : In pr (concat groups)) by (rewrite E; now left).
    destruct (@In_concat_groups _ _ _ _ _ Hg Hin)
      as (o & r & Ho & Hr & Hw & _).
    apply (Permutation_in _ (Permutation_sym Hperm)) in Ho.
    unfold within, gap in Hw.
    rewrite Hnone in Hw; [discriminate| |];
      now apply In_indexed_timestamp.
  - intros (rt & ot & Hrt & Hot & Hpass).
    apply In_timestamp_indexed in Hrt. destruct Hrt as (r & Hr & <-).
    apply In_timestamp_indexed in Hot. destruct Hot as (o & Ho & <-).
    apply (Permutation_in _ Hperm) in Ho.
    destruct (@Forall2_In_l _ _ _ _ _ o Hg Ho)
      as (g & Hgin & rs & Hrs & _ & ->).
    assert (Hin : In (index r, index o) (concat (groups))).
    { apply in_concat. exists (group_of o rs). split; [exact Hgin|].
      unfold group_of. apply in_map_iff. exists r. split; [reflexivity|].
      apply (Permutation_in _ (Permutation_sym Hrs)).
      apply filter_In. split; [exact Hr|exact Hpass]. }
    destruct (concat groups) as [|pr rest]; [contradiction|].
    exists (pr :: rest). split; [reflexivity|discriminate].
Qed.

(** C9. Under the mode ABS, when no reference timestamp was given, the
    matcher throws the exception of [std::stof] and returns no pairs:
    [std::stof] is given the empty string, on which it performs no
    conversion. *)
Theorem abs_without_reference_fails :
  stof EmptyString = None ->
  sorting p = ABS ->
  sorting_abs_reftimestamp p = None ->
  GetCandidatesPairs stof std_sort p = inl stof_exception.
Proof.
  intros Hempty Hmode Hnone. unfold GetCandidatesPairs.
  destruct (GetTimestampsWithIndices stof (timestampssar p)) as [e|sar] eqn:Es.
  - apply GetTimestampsWithIndices_loop_exception in Es. now subst e.
  - destruct (GetTimestampsWithIndices stof (timestampsopt p)) as [e|opt] eqn:Eo.
    + apply GetTimestampsWithIndices_loop_exception in Eo. now subst e.
    + unfold SortTimestampsWithIndices, GetParameterAsString_reftimestamp,
        Str2Timestamp.
      rewrite Hmode, Hnone, Hempty. reflexivity.
Qed.

End MatcherClaims.

(** C3, on the worked dates under ASC: the candidate pair (1,0) joins the
    radar date 20 and the optical date 30. *)
Lemma candidate_pairs_within_gap_witness :
  exists i j radarTimestamp opticalTimestamp,
    nth_error (map Z2F [10; 20; 45]%Z) i = Some radarTimestamp
    /\ nth_error (map Z2F [30; 12]%Z) j = Some opticalTimestamp
    /\ 1%N = wrap (N.of_nat i)
    /\ 0%N = wrap (N.of_nat j)
    /\ fle (fabs (fsub radarTimestamp opticalTimestamp)) (Z2F 10) = true.
Proof.
  refine (@candidate_pairs_within_gap Stof.stof Example.std_sort
            (Example.parameters DecloudTimeSeriesPreProcessor.ASC None)
            (map Z2F [10; 20; 45]%Z) (map Z2F [30; 12]%Z)
            (@SortFacts.insertion_sort_is_std_sort _) _ _ _ _ _
            [(0, 1); (1, 1); (1, 0)]%N _ 1%N 0%N _).
  - vm_compute. reflexivity.
  - vm_compute. reflexivity.
  - repeat constructor.
  - repeat constructor.
  - intros H. discriminate H.
  - vm_compute. reflexivity.
  - simpl. auto.
Defined.

(** C4, on the worked dates under ASC: the optical dates come as 12, 30 and
    the candidate pairs are (0,1), (1,1), (1,0). *)
Lemma candidate_pairs_order_witness :
  exists outer groups,
    Permutation (Matching.indexed 0 (map Z2F [30; 12]%Z)) outer
    /\ StronglySorted
         (fun a b =>
            fle (DecloudTimeSeriesPreProcessor.timestamp a)
                (DecloudTimeSeriesPreProcessor.timestamp b) = true) outer
    /\ concat groups = [(0, 1); (1, 1); (1, 0)]%N.
Proof.
  destruct (@candidate_pairs_order Stof.stof Example.std_sort
              (Example.parameters DecloudTimeSeriesPreProcessor.ASC None)
              (map Z2F [10; 20; 45]%Z) (map Z2F [30; 12]%Z)
              (@SortFacts.insertion_sort_is_std_sort _))
    as (outer & groups & Hperm & Hasc & _ & _ & _ & Heq).
  - vm_compute. reflexivity.
  - vm_compute. reflexivity.
  - repeat constructor.
  - repeat constructor.
  - intros H. discriminate H.
  - exists outer, groups. split; [exact Hperm|]. split; [apply Hasc; reflexivity|].
    change (DecloudTimeSeriesPreProcessor.GetCandidatesPairs Stof.stof
              Example.std_sort
              (Example.parameters DecloudTimeSeriesPreProcessor.ASC None))
      with (@inr exception IndicesPairList [(0, 1); (1, 1); (1, 0)]%N) in Heq.
    destruct (concat groups) as [|c cs]; [discriminate Heq|].
    injection Heq as <- <-. reflexivity.
Defined.

(** C6, on the worked dates with a gap of at most 1 second. *)
Lemma no_candidate_is_fatal_witness :
  DecloudTimeSeriesPreProcessor.GetCandidatesPairs Stof.stof Example.std_sort
    Example.disjoint
  = inl fatal_exception.
Proof.
  refine (proj1 (@no_candidate_is_fatal Stof.stof Example.std_sort
                   Example.disjoint
                   (map Z2F [10; 20; 45]%Z) (map Z2F [30; 12]%Z)
                   (@SortFacts.insertion_sort_is_std_sort _) _ _ _ _ _) _).
  - vm_compute. reflexivity.
  - vm_compute. reflexivity.
  - repeat constructor.
  - repeat constructor.
  - intros H. discriminate H.
  - intros rt ot Hrt Hot. simpl in Hrt, Hot.
    destruct Hrt as [<-|[<-|[<-|[]]]]; destruct Hot as [<-|[<-|[]]];
      vm_compute; reflexivity.
Defined.

(** C9, on the worked dates under ABS with no reference timestamp. *)
Lemma abs_without_reference_fails_witness :
  DecloudTimeSeriesPreProcessor.GetCandidatesPairs Stof.stof Example.std_sort
    (Example.parameters DecloudTimeSeriesPreProcessor.ABS None)
  = inl stof_exception.
Proof.
  apply (@abs_without_reference_fails Stof.stof Example.std_sort
           (Example.parameters DecloudTimeSeriesPreProcessor.ABS None));
    reflexivity.
Defined.

(** ** The slicers *)

Module LayoutFacts.

Import DecloudTimeSeriesPreProcessor Layout.

Lemma usub_one (a : N) : (1 <= a)%N -> usub (wrap a) 1 = wrap (a - 1).
Proof.
  intros Ha. unfold usub.
  rewrite (@wrap_small 1) by reflexivity.
  rewrite MatcherFacts.wrap_add_l.
  replace (a + (uint_range - 1))%N with (a - 1 + 1 * uint_range)%N
    by (unfold uint_range; lia).
  unfold wrap. apply N.Div0.mod_add.
Qed.

Lemma slicers_loop_spec (m_Outputs : Z) (rb ob : N) :
  (0 <= m_Outputs < int_max)%Z ->
  (Z.to_N m_Outputs * (rb + ob) + 1 < uint_range)%N ->
  forall (k d : nat) (sarSlicers optSlicers : list ChannelRange),
    Z.of_nat (d + k) = m_Outputs ->
    slicers_loop k m_Outputs rb ob (Z.of_nat d + 1)
      (N.of_nat d * (rb + ob) + 1) sarSlicers optSlicers
    = Some (sarSlicers ++ map (radar_range rb ob) (seq d k),
            optSlicers ++ map (optical_range rb ob) (seq d k)).
Proof.
  intros Hm Hfit.
  induction k as [|k IH]; intros d sarSlicers optSlicers Hd.
  - cbn [slicers_loop seq map]. rewrite !app_nil_r.
    replace (Z.of_nat d + 1 <=? m_Outputs)%Z with false; [reflexivity|].
    symmetry. apply Z.leb_gt. lia.
  - cbn [slicers_loop seq map].
    replace (Z.of_nat d + 1 <=? m_Outputs)%Z with true
      by (symmetry; apply Z.leb_le; lia).
    replace (Z.of_nat d + 1 <? int_max)%Z with true
      by (symmetry; apply Z.ltb_lt; lia).
    assert (Hstep : (N.of_nat d * (rb + ob) + (rb + ob) + 1 < uint_range)%N).
    { assert (Z.to_N m_Outputs = N.of_nat d + 1 + N.of_nat k)%N by lia.
      nia. }
    set (x := (N.of_nat d * (rb + ob))%N) in *.
    replace (x + 1 + rb)%N with (x + rb + 1)%N by lia.
    rewrite usub_one by lia.
    rewrite (@wrap_small (rb + ob)) by lia.
    rewrite (@wrap_small (x + 1 + (rb + ob))) by lia.
    rewrite (@wrap_small (rb + (x + 1))) by lia.
    rewrite MatcherFacts.wrap_add_l.
    rewrite usub_one by lia.
    rewrite !wrap_small by lia.
    replace (Z.of_nat d + 1 + 1)%Z with (Z.of_nat (S d) + 1)%Z by lia.
    replace (x + 1 + (rb + ob))%N with (N.of_nat (S d) * (rb + ob) + 1)%N
      by (unfold x; lia).
    rewrite IH by lia.
    rewrite <- !app_assoc. cbn [app].
    replace (x + rb + 1 - 1)%N with (x + rb)%N by lia.
    replace (rb + (x + 1))%N with (x + rb + 1)%N by lia.
    replace (x + rb + 1 + ob - 1)%N with (x + rb + ob)%N by lia.
    reflexivity.
Qed.

End LayoutFacts.

(** C8. The slicers set up by [InitFilter] cover, for slot [i] counted from
    0, the fused channels [i*(rb+ob)+1 .. i*(rb+ob)+rb] for radar and the
    [ob] channels that follow for optical, channels counted from 1 and both
    ends included; with two radar bands, one optical band and two outputs
    they are [1,2] and [3], then [4,5] and [6]. *)
Theorem slicers_cover_slots :
  (forall (m_Outputs : Z) (rb ob : N),
      (m_Outputs < DecloudTimeSeriesPreProcessor.int_max)%Z ->
      (Z.to_N m_Outputs * (rb + ob) + 1 < uint_range)%N ->
      exists sarSlicers optSlicers,
        DecloudTimeSeriesPreProcessor.InitFilter_slicers m_Outputs rb ob
        = Some (sarSlicers, optSlicers)
        /\ length sarSlicers = Z.to_nat m_Outputs
        /\ length optSlicers = Z.to_nat m_Outputs
        /\ forall i, i < Z.to_nat m_Outputs ->
             nth_error sarSlicers i
             = Some (DecloudTimeSeriesPreProcessor.Build_ChannelRange
                       (N.of_nat i * (rb + ob) + 1)
                       (N.of_nat i * (rb + ob) + rb))
             /\ nth_error optSlicers i
                = Some (DecloudTimeSeriesPreProcessor.Build_ChannelRange
                          (N.of_nat i * (rb + ob) + rb + 1)
                          (N.of_nat i * (rb + ob) + rb + ob)))
  /\ DecloudTimeSeriesPreProcessor.InitFilter_slicers 2 2 1
     = Some ([DecloudTimeSeriesPreProcessor.Build_ChannelRange 1 2;
              DecloudTimeSeriesPreProcessor.Build_ChannelRange 4 5],
             [DecloudTimeSeriesPreProcessor.Build_ChannelRange 3 3;
              DecloudTimeSeriesPreProcessor.Build_ChannelRange 6 6]).
Proof.
  split; [|reflexivity].
  intros m_Outputs rb ob Hm Hfit.
  exists (fst (Layout.PlanSlices rb ob (Z.to_nat m_Outputs))),
         (snd (Layout.PlanSlices rb ob (Z.to_nat m_Outputs))).
  unfold Layout.PlanSlices. cbn [fst snd].
  rewrite !length_map, !length_seq.
  split; [|split; [reflexivity|split; [reflexivity|]]].
  - unfold DecloudTimeSeriesPreProcessor.InitFilter_slicers.
    destruct (Z.lt_ge_cases m_Outputs 0) as [Hneg|Hpos].
    + replace (Z.to_nat m_Outputs) with 0 by lia.
      cbn [DecloudTimeSeriesPreProcessor.slicers_loop seq map].
      replace (1 <=? m_Outputs)%Z with false; [reflexivity|].
      symmetry. apply Z.leb_gt. lia.
    + pose proof (@LayoutFacts.slicers_loop_spec m_Outputs rb ob
                    (conj Hpos Hm) Hfit (Z.to_nat m_Outputs) 0 [] []) as H.
      cbn in H. apply H. lia.
  - intros i Hi.
    rewrite !nth_error_map, !nth_error_seq.
    replace (i <? Z.to_nat m_Outputs) with true
      by (symmetry; apply Nat.ltb_lt; exact Hi).
    split; reflexivity.
Qed.

(** C8, with three radar bands, two optical bands and two outputs. *)
Lemma slicers_cover_slots_witness :
  exists sarSlicers optSlicers,
    DecloudTimeSeriesPreProcessor.InitFilter_slicers 2 3 2
    = Some (sarSlicers, optSlicers)
    /\ nth_error sarSlicers 1
       = Some (DecloudTimeSeriesPreProcessor.Build_ChannelRange 6 8)
    /\ nth_error optSlicers 1
       = Some (DecloudTimeSeriesPreProcessor.Build_ChannelRange 9 10).
Proof.
  destruct (proj1 slicers_cover_slots 2%Z 3%N 2%N)
    as (sarSlicers & optSlicers & Heq & _ & _ & Hnth).
  - reflexivity.
  - reflexivity.
  - exists sarSlicers, optSlicers. split; [exact Heq|].
    apply (Hnth 1). vm_compute. auto.
Defined.

(** ** The compaction *)

Module CompactionFacts.

Import DecloudTimeSeriesPreProcessor Compaction.

Lemma find_None (l : list N) (x : N) : find l x = None <-> ~ In x l.
Proof.
  induction l as [|y l IH]; simpl; [tauto|].
  destruct (N.eqb_spec y x) as [E|E].
  - split; [discriminate|]. intros H. exfalso. apply H. now left.
  - destruct (find l x) as [k|].
    + split; [discriminate|]. intros H. exfalso.
      assert (Hn : ~ In x l) by tauto. apply IH in Hn. discriminate.
    + split; [|reflexivity]. intros _ [H|H]; [now apply E|].
      now apply (proj1 IH).
Qed.

Lemma find_place (l : list N) (x : N) :
  In x l -> find l x = Some (place l x).
Proof.
  induction l as [|y l IH]; simpl; [tauto|].
  intros H. destruct (N.eqb_spec y x) as [E|E]; [reflexivity|].
  destruct H as [H|H]; [contradiction|]. now rewrite IH.
Qed.

Lemma place_lt (l : list N) (x : N) : In x l -> place l x < length l.
Proof.
  induction l as [|y l IH]; simpl; [tauto|].
  intros H. destruct (N.eqb_spec y x) as [E|E]; [lia|].
  destruct H as [H|H]; [contradiction|]. apply IH in H. lia.
Qed.

Lemma nth_error_place (l : list N) (x : N) :
  In x l -> nth_error l (place l x) = Some x.
Proof.
  induction l as [|y l IH]; simpl; [tauto|].
  intros H. destruct (N.eqb_spec y x) as [E|E]; [now subst|].
  destruct H as [H|H]; [contradiction|]. now apply IH.
Qed.

Lemma place_nth_error (l : list N) :
  NoDup l -> forall k x, nth_error l k = Some x -> place l x = k.
Proof.
  induction 1 as [|y l Hy _ IH]; intros k x Hk.
  - destruct k; discriminate.
  - simpl. destruct k as [|k]; simpl in Hk.
    + injection Hk as ->. now rewrite N.eqb_refl.
    + destruct (N.eqb_spec y x) as [E|E].
      * subst. exfalso. apply Hy. eapply nth_error_In; eauto.
      * f_equal. now apply IH.
Qed.

Lemma place_app_l (l more : list N) (x : N) :
  In x l -> place (l ++ more) x = place l x.
Proof.
  induction l as [|y l IH]; simpl; [tauto|].
  intros H. destruct (N.eqb_spec y x) as [E|E]; [reflexivity|].
  destruct H as [H|H]; [contradiction|]. now rewrite IH.
Qed.

Lemma place_app_new (l : list N) (x : N) :
  ~ In x l -> place (l ++ [x]) x = length l.
Proof.
  induction l as [|y l IH]; simpl; intros H.
  - now rewrite N.eqb_refl.
  - destruct (N.eqb_spec y x) as [E|E]; [tauto|].
    f_equal. apply IH. tauto.
Qed.

Lemma existsb_In (l : list N) (x : N) : existsb (N.eqb x) l = true <-> In x l.
Proof.
  rewrite existsb_exists. split.
  - intros (y & Hy & E). apply N.eqb_eq in E. now subst.
  - intros H. exists x. split; [exact H|apply N.eqb_refl].
Qed.

(** A list of distinct [unsigned int] values has at most 2^32 elements. *)
Lemma distinct_uints (l : list N) :
  NoDup l -> Forall (fun x => (x < uint_range)%N) l ->
  length l <= N.to_nat uint_range.
Proof.
  intros Hnd Hall.
  rewrite <- (length_seq (N.to_nat uint_range) 0).
  rewrite <- (length_map N.of_nat).
  apply NoDup_incl_length; [exact Hnd|].
  intros x Hx. rewrite Forall_forall in Hall. apply Hall in Hx.
  apply in_map_iff. exists (N.to_nat x). split; [apply N2Nat.id|].
  apply in_seq. lia.
Qed.

Lemma first_encounters_spec (l : list N) :
  forall seen,
    NoDup seen ->
    exists more,
      first_encounters seen l = seen ++ more
      /\ NoDup (seen ++ more)
      /\ (forall x, In x (seen ++ more) <-> In x seen \/ In x l).
Proof.
  induction l as [|x l IH]; intros seen Hnd; simpl.
  - exists []. rewrite app_nil_r. split; [reflexivity|].
    split; [exact Hnd|]. intros x. tauto.
  - destruct (existsb (N.eqb x) seen) eqn:E.
    + apply existsb_In in E.
      destruct (IH seen Hnd) as (more & Heq & Hnd' & Hin).
      exists more. split; [exact Heq|]. split; [exact Hnd'|].
      intros y. rewrite Hin. split; [tauto|].
      intros [H|[H|H]]; subst; auto.
    + assert (Hx : ~ In x seen).
      { intros H. apply existsb_In in H. congruence. }
      destruct (IH (seen ++ [x])) as (more & Heq & Hnd' & Hin).
      { apply NoDup_app; [exact Hnd|repeat constructor; simpl; tauto|].
        intros y Hy [<-|[]]. contradiction. }
      exists ([x] ++ more). rewrite app_assoc.
      split; [exact Heq|]. split; [exact Hnd'|].
      intros y. rewrite Hin, in_app_iff. simpl. tauto.
Qed.

Lemma first_encounters_one (seen : list N) (x : N) (l : list N) :
  first_encounters seen (x :: l)
  = first_encounters (first_encounters seen [x]) l.
Proof. simpl. now destruct (existsb (N.eqb x) seen). Qed.

Lemma In_first_encounters_one (seen : list N) (x : N) :
  In x (first_encounters seen [x]).
Proof.
  simpl. destruct (existsb (N.eqb x) seen) eqn:E.
  - now apply existsb_In.
  - apply in_app_iff. right. now left.
Qed.

Section Side.

Variable Image : Type.
Variable inList : list Image.

Lemma lookup_or_add_spec (idx : N) (tbl : list N) (newList : list Image)
    (counter : N) :
  side_inv inList tbl newList counter ->
  (idx < uint_range)%N ->
  N.to_nat idx < length inList ->
  exists newList' counter',
    lookup_or_add inList idx tbl newList counter
    = inr (first_encounters tbl [idx], newList', counter',
           new_index (first_encounters tbl [idx]) idx)
    /\ side_inv inList (first_encounters tbl [idx]) newList' counter'.
Proof.
  intros (Hnd & Hall & Hc & Himg) Hidx Hin.
  unfold lookup_or_add, new_index. simpl.
  destruct (find tbl idx) as [k|] eqn:Ef.
  - assert (HIn : In idx tbl).
    { destruct (in_dec N.eq_dec idx tbl) as [H|H]; [exact H|].
      apply find_None in H. congruence. }
    rewrite (find_place _ _ HIn) in Ef. injection Ef as <-.
    rewrite (proj2 (existsb_In tbl idx) HIn).
    pose proof (place_lt _ _ HIn) as Hlt.
    pose proof (distinct_uints Hnd Hall) as Hlen.
    exists newList, counter. rewrite wrap_small by lia.
    split; [reflexivity|]. repeat split; assumption.
  - apply find_None in Ef.
    assert (Ex : existsb (N.eqb idx) tbl = false).
    { destruct (existsb (N.eqb idx) tbl) eqn:E; [|reflexivity].
      apply existsb_In in E. contradiction. }
    rewrite Ex. unfold GetNthElement.
    destruct (nth_error inList (N.to_nat idx)) as [img|] eqn:En;
      [|apply nth_error_None in En; lia].
    assert (Hnd' : NoDup (tbl ++ [idx])).
    { apply NoDup_app; [exact Hnd|repeat constructor; simpl; tauto|].
      intros y Hy [<-|[]]. contradiction. }
    assert (Hall' : Forall (fun x => (x < uint_range)%N) (tbl ++ [idx])).
    { apply Forall_app. split; [exact Hall|]. now repeat constructor. }
    pose proof (distinct_uints Hnd' Hall') as Hlen.
    rewrite length_app in Hlen. cbn [length] in Hlen.
    exists (newList ++ [img]), (wrap (counter + 1)).
    rewrite (place_app_new _ _ Ef).
    split.
    + rewrite Hc. rewrite (@wrap_small (N.of_nat (length tbl))) by lia.
      reflexivity.
    + split; [exact Hnd'|]. split; [exact Hall'|]. split.
      * rewrite Hc, MatcherFacts.wrap_add_l. f_equal.
        rewrite length_app. simpl. lia.
      * apply Forall2_app; [exact Himg|]. now repeat constructor.
Qed.

End Side.

Section Loop.

Variable Image : Type.
Variables inSARList inOptList : list Image.

Lemma InstantiateSources_loop_spec :
  forall (pairs : IndicesPairList) (st : sources_state Image),
    state_inv inSARList inOptList st ->
    typed pairs ->
    addressable inSARList inOptList pairs ->
    exists st',
      InstantiateSources_loop inSARList inOptList pairs st = inr st'
      /\ state_inv inSARList inOptList st'
      /\ sarOldIdx st' = first_encounters (sarOldIdx st) (map fst pairs)
      /\ optOldIdx st' = first_encounters (optOldIdx st) (map snd pairs)
      /\ outIndicesPairs st'
         = outIndicesPairs st
           ++ map (translate (sarOldIdx st') (optOldIdx st')) pairs.
Proof.
  induction pairs as [|[sarIdx optIdx] pairs IH]; intros st Hinv Hty Had.
  - exists st. simpl. rewrite app_nil_r. auto.
  - inversion Hty as [|? ? [HtS HtO] Hty']; subst.
    inversion Had as [|? ? [HaS HaO] Had']; subst.
    destruct Hinv as [HinvS HinvO]. simpl in HtS, HtO, HaS, HaO.
    destruct (lookup_or_add_spec HinvS HtS HaS) as (sarL & sarC & HeS & HinvS').
    destruct (lookup_or_add_spec HinvO HtO HaO) as (optL & optC & HeO & HinvO').
    cbn [InstantiateSources_loop]. rewrite HeS, HeO.
    set (st1 := Build_sources_state _ _ _ _ _ _ _).
    destruct (IH st1 (conj HinvS' HinvO') Hty' Had')
      as (st' & Hloop & Hinv' & HsarT & HoptT & Hout).
    exists st'. split; [exact Hloop|]. split; [exact Hinv'|].
    cbn [map fst snd].
    rewrite (first_encounters_one (sarOldIdx st) sarIdx (map fst pairs)).
    rewrite (first_encounters_one (optOldIdx st) optIdx (map snd pairs)).
    split; [exact HsarT|]. split; [exact HoptT|].
    rewrite Hout. unfold st1. cbn [outIndicesPairs sarOldIdx optOldIdx].
    rewrite <- app_assoc. cbn [app]. f_equal. f_equal.
    unfold translate, new_index. cbn [fst snd].
    destruct HinvS' as (HndS & _). destruct HinvO' as (HndO & _).
    destruct (first_encounters_spec (map fst pairs) HndS) as (moreS & EqS & _).
    destruct (first_encounters_spec (map snd pairs) HndO) as (moreO & EqO & _).
    rewrite HsarT, HoptT. unfold st1. cbn [sarOldIdx optOldIdx].
    rewrite EqS, EqO.
    rewrite !place_app_l by apply In_first_encounters_one.
    reflexivity.
Qed.

End Loop.

Lemma table_spec (l : list N) :
  NoDup (table l) /\ (forall x, In x (table l) <-> In x l).
Proof.
  destruct (@first_encounters_spec l [] (NoDup_nil N)) as (more & Heq & Hnd & Hin).
  unfold table. rewrite Heq. split; [exact Hnd|].
  intros x. rewrite Hin. simpl. tauto.
Qed.

Lemma first_encounters_app (a b : list N) :
  forall seen,
    first_encounters seen (a ++ b)
    = first_encounters (first_encounters seen a) b.
Proof.
  induction a as [|x a IH]; intros seen; simpl; [reflexivity|].
  destruct (existsb (N.eqb x) seen); apply IH.
Qed.

(** The new indices of a list of original indices are the numbers below
    the size of its table. *)
Lemma used_indices (l : list N) (n : N) :
  In n (map (new_index (table l)) l) <-> (n < N.of_nat (length (table l)))%N.
Proof.
  destruct (table_spec l) as [Hnd Hin]. split.
  - intros H. apply in_map_iff in H. destruct H as (x & <- & Hx).
    apply Hin in Hx. apply place_lt in Hx. unfold new_index. lia.
  - intros H.
    destruct (nth_error (table l) (N.to_nat n)) as [x|] eqn:E;
      [|apply nth_error_None in E; lia].
    apply in_map_iff. exists x. split.
    + unfold new_index. rewrite (place_nth_error Hnd _ E). apply N2Nat.id.
    + apply Hin. eapply nth_error_In; eauto.
Qed.

(** The new indices of the first [j] original indices do not depend on
    what follows. *)
Lemma new_index_prefix (l : list N) (j : nat) :
  map (new_index (table l)) (firstn j l)
  = map (new_index (table (firstn j l))) (firstn j l).
Proof.
  apply map_ext_in. intros x Hx.
  destruct (table_spec (firstn j l)) as [Hnd Hin].
  assert (Hext : exists more, table l = table (firstn j l) ++ more).
  { unfold table.
    replace (first_encounters [] l)
      with (first_encounters [] (firstn j l ++ skipn j l))
      by now rewrite firstn_skipn.
    rewrite first_encounters_app.
    destruct (@first_encounters_spec (skipn j l) _ Hnd) as (more & Heq & _).
    exists more. exact Heq. }
  destruct Hext as (more & ->).
  unfold new_index. f_equal. apply place_app_l. now apply Hin.
Qed.

End CompactionFacts.

(** C5. The compaction returns a list of resolved pairs as long as the list
    of candidate pairs, in the same order: the pair of rank [i] is the
    candidate pair of rank [i] with each index replaced by its place in the
    table of its side, the table of a side being its distinct original
    indices. On each side the new indices used by the resolved pairs are
    exactly the numbers below the size of the table, and those used by the
    first [j] resolved pairs are exactly the numbers below the size of the
    table of the first [j] candidate pairs: new indices are given in
    first-encounter order. The compact image lists hold the images of the
    tables. *)
Theorem compaction_translates_pairs (Image : Type)
    (candidatePairs : IndicesPairList) (inSARList inOptList : list Image) :
  Compaction.typed candidatePairs ->
  Compaction.addressable inSARList inOptList candidatePairs ->
  let sarTable := Compaction.table (map fst candidatePairs) in
  let optTable := Compaction.table (map snd candidatePairs) in
  exists sarList optList resolvedPairs,
    DecloudTimeSeriesPreProcessor.InstantiateSources candidatePairs
      inSARList inOptList
    = inr (sarList, optList, resolvedPairs)
    /\ length resolvedPairs = length candidatePairs
    /\ (forall i s o,
          nth_error candidatePairs i = Some (s, o) ->
          nth_error resolvedPairs i
          = Some (Compaction.new_index sarTable s,
                  Compaction.new_index optTable o)
          /\ nth_error sarTable (N.to_nat (Compaction.new_index sarTable s))
             = Some s
          /\ nth_error optTable (N.to_nat (Compaction.new_index optTable o))
             = Some o)
    /\ (NoDup sarTable /\ NoDup optTable)
    /\ (forall x, (In x sarTable <-> In x (map fst candidatePairs))
                  /\ (In x optTable <-> In x (map snd candidatePairs)))
    /\ (forall n,
          (In n (map fst resolvedPairs)
           <-> (n < N.of_nat (length sarTable))%N)
          /\ (In n (map snd resolvedPairs)
              <-> (n < N.of_nat (length optTable))%N))
    /\ (forall j n,
          (In n (map fst (firstn j resolvedPairs))
           <-> (n < N.of_nat (length (Compaction.table
                                        (map fst (firstn j candidatePairs)))))%N)
          /\ (In n (map snd (firstn j resolvedPairs))
              <-> (n < N.of_nat (length (Compaction.table
                                           (map snd (firstn j candidatePairs)))))%N))
    /\ Compaction.images_of inSARList sarTable sarList
    /\ Compaction.images_of inOptList optTable optList.
Proof.
  intros Hty Had sarTable optTable.
  destruct (@CompactionFacts.InstantiateSources_loop_spec Image inSARList
              inOptList candidatePairs
              (DecloudTimeSeriesPreProcessor.Build_sources_state
                 [] [] [] [] 0%N 0%N []))
    as (st & Hloop & (HinvS & HinvO) & HsarT & HoptT & Hout);
    [split; (split; [constructor|split; [constructor|split;
       [reflexivity|constructor]]])|exact Hty|exact Had|].
  cbn in HsarT, HoptT, Hout.
  fold (Compaction.table (map fst candidatePairs)) in HsarT.
  fold (Compaction.table (map snd candidatePairs)) in HoptT.
  fold sarTable in HsarT. fold optTable in HoptT.
  rewrite HsarT, HoptT in Hout.
  destruct HinvS as (_ & _ & _ & HimgS). destruct HinvO as (_ & _ & _ & HimgO).
  rewrite HsarT in HimgS. rewrite HoptT in HimgO.
  destruct (CompactionFacts.table_spec (map fst candidatePairs)) as [HndS HinS].
  destruct (CompactionFacts.table_spec (map snd candidatePairs)) as [HndO HinO].
  fold sarTable in HndS, HinS. fold optTable in HndO, HinO.
  assert (Hfst : forall l, map fst (map (Compaction.translate sarTable optTable) l)
                           = map (Compaction.new_index sarTable) (map fst l)).
  { intros l. rewrite !map_map. reflexivity. }
  assert (Hsnd : forall l, map snd (map (Compaction.translate sarTable optTable) l)
                           = map (Compaction.new_index optTable) (map snd l)).
  { intros l. rewrite !map_map. reflexivity. }
  exists (DecloudTimeSeriesPreProcessor.sarList st),
         (DecloudTimeSeriesPreProcessor.optList st),
         (DecloudTimeSeriesPreProcessor.outIndicesPairs st).
  unfold DecloudTimeSeriesPreProcessor.InstantiateSources. rewrite Hloop, Hout.
  split; [reflexivity|]. split; [apply length_map|].
  split; [|split; [now split|split; [intros x; now split|split; [|split; [|now split]]]]].
  - intros i s o Hi. split; [|split].
    + rewrite nth_error_map, Hi. reflexivity.
    + unfold Compaction.new_index. rewrite Nat2N.id.
      apply CompactionFacts.nth_error_place. apply HinS.
      apply nth_error_In in Hi. now apply (in_map fst) in Hi.
    + unfold Compaction.new_index. rewrite Nat2N.id.
      apply CompactionFacts.nth_error_place. apply HinO.
      apply nth_error_In in Hi. now apply (in_map snd) in Hi.
  - intros n. rewrite Hfst, Hsnd.
    split; apply CompactionFacts.used_indices.
  - intros j n. rewrite firstn_map, Hfst, Hsnd, <- !firstn_map.
    unfold sarTable, optTable.
    rewrite !(firstn_map (Compaction.new_index _)).
    rewrite !CompactionFacts.new_index_prefix.
    split; apply CompactionFacts.used_indices.
Qed.

(** C5, on three candidate pairs over six radar images and four optical
    images: the radar images 5 and 2 become 0 and 1, the optical images 3
    and 1 become 0 and 1. *)
Lemma compaction_translates_pairs_witness :
  DecloudTimeSeriesPreProcessor.InstantiateSources
    [(5, 3); (2, 3); (5, 1)]%N
    ["a"; "b"; "c"; "d"; "e"; "f"]%string ["A"; "B"; "C"; "D"]%string
  = inr (["f"; "c"]%string, ["D"; "B"]%string, [(0, 0); (1, 0); (0, 1)]%N).
Proof.
  destruct (@compaction_translates_pairs string
              [(5, 3); (2, 3); (5, 1)]%N
              ["a"; "b"; "c"; "d"; "e"; "f"]%string
              ["A"; "B"; "C"; "D"]%string)
    as (sarList & optList & resolvedPairs & Heq & _).
  - repeat constructor.
  - repeat constructor.
  - reflexivity.
Defined.

(** * Further properties of the code *)

(** ** The fusion functor *)

Module FunctorFacts.

Import Vec VecFacts PixelFunction LoopFacts Fusion FusionFacts FuseTheorems.

Lemma upd_length (v : Vec.t) :
  forall (n : nat) (c : cell) (w : Vec.t),
    upd v n c = Some w -> length w = length v.
Proof.
  induction v as [|c0 v IH]; intros n c w H; simpl in H; [discriminate|].
  destruct n as [|n].
  - injection H as <-. reflexivity.
  - destruct (upd v n c) as [w'|] eqn:E; [|discriminate].
    injection H as <-. simpl. f_equal. now apply IH with n c.
Qed.

Lemma set_length (v : Vec.t) (i : N) (x : float32) (w : Vec.t) :
  set v i x = Some w -> length w = length v.
Proof. unfold set. apply upd_length. Qed.

Lemma fill_length (v : float32) :
  forall (n : nat) (st st' : out_state),
    fill n v st = Some st' -> length (fst st') = length (fst st).
Proof.
  induction n as [|n IH]; intros [outPix outBand] st' H; simpl in H.
  - now injection H as <-.
  - destruct (set outPix outBand v) as [outPix'|] eqn:E; [|discriminate].
    apply IH in H. simpl in *. rewrite H. now apply set_length in E.
Qed.

Lemma copy_length :
  forall (n : nat) (src : Vec.t) (i : N) (st st' : out_state),
    copy n src i st = Some st' -> length (fst st') = length (fst st).
Proof.
  induction n as [|n IH]; intros src i [outPix outBand] st' H; simpl in H.
  - now injection H as <-.
  - destruct (get src i) as [x|]; [|discriminate].
    destruct (set outPix outBand x) as [outPix'|] eqn:E; [|discriminate].
    apply IH in H. simpl in *. rewrite H. now apply set_length in E.
Qed.

Lemma prepare_length (self : PixelFunction.t) :
  forall (n : nat) (st st' : out_state),
    prepare self n st = Some st' -> length (fst st') = length (fst st).
Proof.
  induction n as [|n IH]; intros st st' H; simpl in H.
  - now injection H as <-.
  - destruct (fill _ (m_SARNoDataValue self) st) as [st1|] eqn:E1;
      [|discriminate].
    destruct (fill _ (m_OptNoDataValue self) st1) as [st2|] eqn:E2;
      [|discriminate].
    apply IH in H. apply fill_length in E1. apply fill_length in E2.
    congruence.
Qed.

Lemma iterate_length (self : PixelFunction.t) (inSARPix inOptPix : Vec.t) :
  forall (pairs : IndicesPairList) (st : out_state) (cur : N) (out : Vec.t),
    iterate self inSARPix inOptPix pairs st cur = Some out ->
    length out = length (fst st).
Proof.
  induction pairs as [|[sarIdx optIdx] pairs IH]; intros st cur out H;
    simpl in H.
  - now injection H as <-.
  - destruct (cur <? m_NbOutputImages self)%N; [|now injection H as <-].
    destruct (GetPixel inSARPix sarIdx _) as [sarPix|]; [|discriminate].
    destruct (GetPixel inOptPix optIdx _) as [optPix|]; [|discriminate].
    destruct (IsNoData sarPix _) as [sarNoData|]; [|discriminate].
    destruct (if sarNoData then Some true else IsNoData optPix _)
      as [optNoData|]; [|discriminate].
    destruct (negb sarNoData && negb optNoData).
    + destruct (copy _ sarPix 0 st) as [st1|] eqn:E1; [|discriminate].
      destruct (copy _ optPix 0 st1) as [st2|] eqn:E2; [|discriminate].
      apply IH in H. apply copy_length in E1. apply copy_length in E2.
      congruence.
    + now apply IH in H.
Qed.

End FunctorFacts.

(** X1. Whatever the input pixels, a pixel returned by [operator()] has
    the size that [OutputSize] announces. *)
Theorem output_has_announced_size (self : PixelFunction.t)
    (inSARPix inOptPix out : Vec.t) :
  PixelFunction.operator_call self inSARPix inOptPix = Some out ->
  Vec.GetSize out = PixelFunction.OutputSize self.
Proof.
  unfold PixelFunction.operator_call. intros H.
  destruct (PixelFunction.prepare self _ _) as [st|] eqn:E; [|discriminate].
  apply FunctorFacts.iterate_length in H.
  apply FunctorFacts.prepare_length in E.
  simpl in H, E. unfold Vec.GetSize, PixelFunction.OutputSize.
  rewrite H, E. unfold Vec.SetSize. rewrite repeat_length. apply N2Nat.id.
Qed.

Lemma output_has_announced_size_witness :
  Vec.GetSize (Vec.of_list (map Z2F [5; 5; 7; 0; 0; -9999]%Z))
  = PixelFunction.OutputSize (Example.functor 2).
Proof.
  apply (@output_has_announced_size (Example.functor 2)
           (Vec.of_list Example.radarPixel) (Vec.of_list Example.opticalPixel)).
  vm_compute. reflexivity.
Defined.

Module FusedFacts.

Import Vec VecFacts PixelFunction LoopFacts Fusion FusionFacts FuseTheorems.

Lemma In_skipn (A : Type) (n : nat) (l : list A) (x : A) :
  In x (skipn n l) -> In x l.
Proof.
  revert l. induction n as [|n IH]; intros [|y l] H; simpl in *; auto.
Qed.

Lemma In_sub_pixel (px : list float32) (idx : N) (nb : nat) (v : float32) :
  In v (sub_pixel px idx nb) -> In v px.
Proof.
  unfold sub_pixel. intros H. apply In_firstn in H. now apply In_skipn in H.
Qed.

Lemma filter_idem (A : Type) (f : A -> bool) (l : list A) :
  filter f (filter f l) = filter f l.
Proof. apply forallb_filter_id, forallb_filter. Qed.

Lemma missing_nan (sub : list float32) (sentinel : float32) :
  is_nan sentinel = true -> sub <> [] -> missing sub sentinel = false.
Proof.
  intros Hnan Hsub. destruct sub as [|x sub]; [congruence|].
  destruct sentinel; try discriminate. simpl.
  now destruct x.
Qed.

Lemma fused_no_valid (self : PixelFunction.t) (sar opt : list float32)
    (pairs : IndicesPairList) :
  filter (valid self sar opt) pairs = [] ->
  fused self sar opt pairs
  = concat (repeat (sentinel_slot self) (outputSlotCount self)).
Proof.
  intros H. unfold fused, first_valid. rewrite H, firstn_nil. simpl.
  now rewrite Nat.sub_0_r.
Qed.

End FusedFacts.

Section FunctorExtras.

Import PixelFunction Fusion FusionFacts FuseTheorems FusedFacts.

Variable self : PixelFunction.t.
Variables radarPixel opticalPixel : list float32.

Local Abbreviation N_out := (outputSlotCount self).
Local Abbreviation is_valid := (valid self radarPixel opticalPixel).
Local Abbreviation slot := (slot_of self radarPixel opticalPixel).
Local Abbreviation ok := (in_range self radarPixel opticalPixel).

(** X2. [operator()] invents no value: each value of the pixel it returns
    is a value of the radar pixel, a value of the optical pixel, or one of
    the two no-data values. *)
Theorem output_values_come_from_inputs :
  representable self radarPixel opticalPixel ->
  Forall ok (m_Pairs self) ->
  exists out,
    operator_call self (Vec.of_list radarPixel) (Vec.of_list opticalPixel)
    = Some (Vec.of_list out)
    /\ forall v, In v out ->
         In v radarPixel \/ In v opticalPixel
         \/ v = m_SARNoDataValue self \/ v = m_OptNoDataValue self.
Proof.
  intros Hrep Hin.
  exists (fused self radarPixel opticalPixel (m_Pairs self)). split.
  - apply operator_call_prefix with (pre := m_Pairs self) (post := []);
      auto using app_nil_r.
  - intros v Hv. unfold fused in Hv. apply in_app_or in Hv.
    destruct Hv as [Hv|Hv]; apply in_concat in Hv;
      destruct Hv as (blk & Hblk & Hv).
    + apply in_map_iff in Hblk. destruct Hblk as (pr & <- & _).
      unfold slot_of in Hv. apply in_app_or in Hv.
      destruct Hv as [Hv|Hv]; apply In_sub_pixel in Hv; auto.
    + apply repeat_spec in Hblk. subst blk. unfold sentinel_slot in Hv.
      apply in_app_or in Hv.
      destruct Hv as [Hv|Hv]; apply repeat_spec in Hv; auto.
Qed.

(** X3. The pairs that are not valid for the pixel play no part: without
    them in the list, [operator()] returns the same pixel. *)
Theorem invalid_pairs_play_no_part :
  representable self radarPixel opticalPixel ->
  Forall ok (m_Pairs self) ->
  operator_call (with_pairs self (filter is_valid (m_Pairs self)))
    (Vec.of_list radarPixel) (Vec.of_list opticalPixel)
  = operator_call self (Vec.of_list radarPixel) (Vec.of_list opticalPixel).
Proof.
  intros Hrep Hin.
  rewrite (@operator_call_prefix self radarPixel opticalPixel
             (m_Pairs self) []); auto using app_nil_r.
  rewrite (@operator_call_prefix
             (with_pairs self (filter is_valid (m_Pairs self)))
             radarPixel opticalPixel (filter is_valid (m_Pairs self)) []);
    auto using app_nil_r.
  - change (fused (with_pairs self (filter is_valid (m_Pairs self)))
              radarPixel opticalPixel (filter is_valid (m_Pairs self)))
      with (fused self radarPixel opticalPixel (filter is_valid (m_Pairs self))).
    unfold fused, first_valid. now rewrite filter_idem.
  - rewrite Forall_forall in *. intros pr Hpr. apply filter_In in Hpr.
    apply Hin. tauto.
Qed.

(** X4. The slot of a given rank does not depend on the number of output
    images: with another number of them, the slots of the ranks that both
    pixels have are the same. *)
Theorem slots_do_not_depend_on_output_count (nbOutputImages : N) :
  representable self radarPixel opticalPixel ->
  representable (Variants.with_outputs self nbOutputImages)
    radarPixel opticalPixel ->
  Forall ok (m_Pairs self) ->
  exists out out',
    operator_call self (Vec.of_list radarPixel) (Vec.of_list opticalPixel)
    = Some (Vec.of_list out)
    /\ operator_call (Variants.with_outputs self nbOutputImages)
         (Vec.of_list radarPixel) (Vec.of_list opticalPixel)
       = Some (Vec.of_list out')
    /\ forall i, i < N_out -> i < N.to_nat nbOutputImages ->
         slot_at self out i = slot_at self out' i.
Proof.
  intros Hrep Hrep' Hin.
  set (self' := Variants.with_outputs self nbOutputImages) in *.
  exists (fused self radarPixel opticalPixel (m_Pairs self)),
         (fused self' radarPixel opticalPixel (m_Pairs self')).
  split; [|split].
  - apply operator_call_prefix with (pre := m_Pairs self) (post := []);
      auto using app_nil_r.
  - apply operator_call_prefix with (pre := m_Pairs self') (post := []);
      auto using app_nil_r.
  - intros i Hi Hi'.
    change (slot_at self (fused self' radarPixel opticalPixel (m_Pairs self')) i)
      with (slot_at self' (fused self' radarPixel opticalPixel (m_Pairs self')) i).
    rewrite (@fused_slot_at self radarPixel opticalPixel) by assumption.
    rewrite (@fused_slot_at self' radarPixel opticalPixel) by assumption.
    unfold first_valid. rewrite !nth_error_firstn.
    replace (i <? N_out) with true by (symmetry; now apply Nat.ltb_lt).
    replace (i <? outputSlotCount self') with true
      by (symmetry; now apply Nat.ltb_lt).
    reflexivity.
Qed.

(** X5. A NaN as no-data value masks nothing: when both no-data values are
    NaN and both band counts are positive, every pair is valid, and
    [operator()] returns the slots of the first pairs of the list. *)
Theorem nan_no_data_masks_nothing :
  is_nan (m_SARNoDataValue self) = true ->
  is_nan (m_OptNoDataValue self) = true ->
  0 < radarBandCount self ->
  0 < opticalBandCount self ->
  representable self radarPixel opticalPixel ->
  Forall ok (m_Pairs self) ->
  N_out <= length (m_Pairs self) ->
  operator_call self (Vec.of_list radarPixel) (Vec.of_list opticalPixel)
  = Some (Vec.of_list (concat (map slot (firstn N_out (m_Pairs self))))).
Proof.
  intros HnanS HnanO Hrb Hob Hrep Hin Hcount.
  assert (Hall : filter is_valid (m_Pairs self) = m_Pairs self).
  { apply forallb_filter_id. apply forallb_forall. intros pr Hpr.
    rewrite Forall_forall in Hin. specialize (Hin pr Hpr).
    pose proof (@length_radar_sub self radarPixel opticalPixel pr Hin) as HlR.
    pose proof (@length_optical_sub self radarPixel opticalPixel pr Hin) as HlO.
    unfold valid. rewrite !missing_nan; auto.
    - intros E. rewrite E in HlO. simpl in HlO. lia.
    - intros E. rewrite E in HlR. simpl in HlR. lia. }
  rewrite (@operator_call_prefix self radarPixel opticalPixel
             (m_Pairs self) []); auto using app_nil_r.
  unfold fused, first_valid. rewrite Hall.
  rewrite length_firstn.
  replace (N_out - Nat.min N_out (length (m_Pairs self))) with 0 by lia.
  simpl. now rewrite app_nil_r.
Qed.

(** X6. With no radar band or no optical band no pair is ever valid:
    [operator()] returns the no-data fill in every slot, whatever the
    pairs. *)
Theorem no_band_no_valid_pair :
  radarBandCount self = 0 \/ opticalBandCount self = 0 ->
  representable self radarPixel opticalPixel ->
  Forall ok (m_Pairs self) ->
  operator_call self (Vec.of_list radarPixel) (Vec.of_list opticalPixel)
  = Some (Vec.of_list (concat (repeat (sentinel_slot self) N_out))).
Proof.
  intros Hzero Hrep Hin.
  rewrite (@operator_call_prefix self radarPixel opticalPixel
             (m_Pairs self) []); auto using app_nil_r.
  rewrite fused_no_valid; [reflexivity|].
  rewrite (filter_ext_in is_valid (fun _ => false)); [apply filter_false|].
  intros pr _. unfold valid, radar_sub, optical_sub, sub_pixel.
  destruct Hzero as [E|E]; rewrite E; simpl.
  - reflexivity.
  - apply andb_false_r.
Qed.

End FunctorExtras.

Lemma output_values_come_from_inputs_witness :
  exists out,
    PixelFunction.operator_call (Example.functor 2)
      (Vec.of_list Example.radarPixel) (Vec.of_list Example.opticalPixel)
    = Some (Vec.of_list out)
    /\ forall v, In v out ->
         In v Example.radarPixel \/ In v Example.opticalPixel
         \/ v = Z2F 0 \/ v = Z2F (-9999).
Proof.
  apply (@output_values_come_from_inputs (Example.functor 2)
           Example.radarPixel Example.opticalPixel).
  - unfold Fusion.representable. vm_compute. auto.
  - repeat constructor; vm_compute; intro; discriminate.
Defined.

Lemma invalid_pairs_play_no_part_witness :
  PixelFunction.operator_call
    (PixelFunction.SetParameters [(1, 0)]%N 2 1 (Z2F 0) (Z2F (-9999)) 2)
    (Vec.of_list Example.radarPixel) (Vec.of_list Example.opticalPixel)
  = PixelFunction.operator_call (Example.functor 2)
      (Vec.of_list Example.radarPixel) (Vec.of_list Example.opticalPixel).
Proof.
  apply (@invalid_pairs_play_no_part (Example.functor 2)
           Example.radarPixel Example.opticalPixel).
  - unfold Fusion.representable. vm_compute. auto.
  - repeat constructor; vm_compute; intro; discriminate.
Defined.

Lemma slots_do_not_depend_on_output_count_witness :
  exists out out',
    PixelFunction.operator_call (Example.functor 1)
      (Vec.of_list Example.radarPixel) (Vec.of_list Example.opticalPixel)
    = Some (Vec.of_list out)
    /\ PixelFunction.operator_call (Example.functor 2)
         (Vec.of_list Example.radarPixel) (Vec.of_list Example.opticalPixel)
       = Some (Vec.of_list out')
    /\ Fusion.slot_at (Example.functor 1) out 0
       = Fusion.slot_at (Example.functor 1) out' 0.
Proof.
  destruct (@slots_do_not_depend_on_output_count (Example.functor 1)
              Example.radarPixel Example.opticalPixel 2%N)
    as (out & out' & H1 & H2 & H3).
  - unfold Fusion.representable. vm_compute. auto.
  - unfold Fusion.representable. vm_compute. auto.
  - repeat constructor; vm_compute; intro; discriminate.
  - exists out, out'. split; [exact H1|]. split; [exact H2|].
    apply H3; vm_compute; auto.
Defined.

Lemma nan_no_data_masks_nothing_witness :
  PixelFunction.operator_call
    (PixelFunction.SetParameters [(0, 0); (1, 0)]%N 2 1 S754_nan S754_nan 1)
    (Vec.of_list Example.radarPixel) (Vec.of_list Example.opticalPixel)
  = Some (Vec.of_list (map Z2F [0; 0; 7]%Z)).
Proof.
  apply (@nan_no_data_masks_nothing
           (PixelFunction.SetParameters [(0, 0); (1, 0)]%N 2 1
              S754_nan S754_nan 1)
           Example.radarPixel Example.opticalPixel).
  - reflexivity.
  - reflexivity.
  - vm_compute. auto.
  - vm_compute. auto.
  - unfold Fusion.representable. vm_compute. auto.
  - repeat constructor; vm_compute; intro; discriminate.
  - vm_compute. auto.
Defined.

Lemma no_band_no_valid_pair_witness :
  PixelFunction.operator_call
    (PixelFunction.SetParameters [(0, 0)]%N 2 0 (Z2F 0) (Z2F (-9999)) 1)
    (Vec.of_list (map Z2F [5; 5]%Z)) (Vec.of_list [])
  = Some (Vec.of_list (map Z2F [0; 0]%Z)).
Proof.
  apply (@no_band_no_valid_pair
           (PixelFunction.SetParameters [(0, 0)]%N 2 0 (Z2F 0) (Z2F (-9999)) 1)
           (map Z2F [5; 5]%Z) []).
  - right. reflexivity.
  - unfold Fusion.representable. vm_compute. auto.
  - repeat constructor; vm_compute; intro; discriminate.
Defined.

(** ** [IsNoData] and [GetPixel] *)

(** X7. [IsNoData] answers [true] exactly when every value of the pixel
    equals the no-data value, by the equality of floats: so it does for a
    pixel with no value, and it never does for a pixel with values when the
    no-data value is a NaN. *)
Theorem IsNoData_all_equal (values : list float32) (noDataValue : float32) :
  (N.of_nat (length values) < uint_range)%N ->
  (exists answer,
      PixelFunction.IsNoData (Vec.of_list values) noDataValue = Some answer)
  /\ (PixelFunction.IsNoData (Vec.of_list values) noDataValue = Some true
      <-> forall v, In v values -> SFeqb v noDataValue = true)
  /\ (values = [] ->
      PixelFunction.IsNoData (Vec.of_list values) noDataValue = Some true)
  /\ (is_nan noDataValue = true -> values <> [] ->
      PixelFunction.IsNoData (Vec.of_list values) noDataValue = Some false).
Proof.
  intros Hlen. rewrite LoopFacts.IsNoData_spec by exact Hlen.
  split; [eauto|]. split; [|split].
  - unfold Fusion.missing. rewrite <- forallb_forall.
    split; [now intros [= ->]|now intros ->].
  - now intros ->.
  - intros Hnan Hne. now rewrite FusedFacts.missing_nan.
Qed.

Lemma IsNoData_all_equal_witness :
  PixelFunction.IsNoData (Vec.of_list (map Z2F [0; 0]%Z)) (Z2F 0) = Some true
  <-> forall v, In v (map Z2F [0; 0]%Z) -> SFeqb v (Z2F 0) = true.
Proof.
  apply (@IsNoData_all_equal (map Z2F [0; 0]%Z) (Z2F 0)).
  vm_compute. reflexivity.
Defined.

Module StackFacts.

Lemma chunks_concat (A : Type) (w : nat) :
  forall (n : nat) (l : list A),
    length l = n * w ->
    concat (map (fun i => firstn w (skipn (i * w) l)) (seq 0 n)) = l.
Proof.
  induction n as [|n IH]; intros l Hlen.
  - destruct l; [reflexivity|discriminate].
  - rewrite <- cons_seq, <- seq_shift, map_cons, map_map. cbn [concat].
    rewrite (map_ext _ (fun i => firstn w (skipn (i * w) (skipn w l)))).
    + rewrite IH; [apply firstn_skipn|].
      rewrite length_skipn, Hlen. simpl. lia.
    + intros i. rewrite skipn_skipn. f_equal. f_equal. simpl. lia.
Qed.

End StackFacts.

(** X8. [GetPixel] takes a stacked pixel apart: on a pixel of [n] images of
    [nbBands] bands each, it returns for each image index below [n] a pixel
    of [nbBands] values, and these pixels put end to end are the stacked
    pixel. *)
Theorem GetPixel_unstacks (stacked : list float32) (nbBands : N) (n : nat) :
  length stacked = n * N.to_nat nbBands ->
  (N.of_nat (length stacked) < uint_range)%N ->
  exists pixels,
    length pixels = n
    /\ (forall idx, idx < n ->
          exists pix,
            nth_error pixels idx = Some pix
            /\ PixelFunction.GetPixel (Vec.of_list stacked) (N.of_nat idx) nbBands
               = Some (Vec.of_list pix)
            /\ length pix = N.to_nat nbBands)
    /\ concat pixels = stacked.
Proof.
  intros Hlen Hfit.
  exists (map (fun i => firstn (N.to_nat nbBands)
                          (skipn (i * N.to_nat nbBands) stacked)) (seq 0 n)).
  split; [now rewrite length_map, length_seq|]. split.
  - intros idx Hidx.
    assert (Hin : idx * N.to_nat nbBands + N.to_nat nbBands <= length stacked).
    { rewrite Hlen. nia. }
    exists (firstn (N.to_nat nbBands) (skipn (idx * N.to_nat nbBands) stacked)).
    split; [|split].
    + rewrite nth_error_map, nth_error_seq.
      replace (idx <? n) with true by (symmetry; now apply Nat.ltb_lt).
      reflexivity.
    + rewrite LoopFacts.GetPixel_spec; rewrite ?Nat2N.id; auto.
      unfold Fusion.sub_pixel. now rewrite Nat2N.id.
    + rewrite length_firstn, length_skipn. lia.
  - now apply StackFacts.chunks_concat.
Qed.

Lemma GetPixel_unstacks_witness :
  exists pixels,
    length pixels = 2
    /\ (forall idx, idx < 2 ->
          exists pix,
            nth_error pixels idx = Some pix
            /\ PixelFunction.GetPixel (Vec.of_list Example.radarPixel)
                 (N.of_nat idx) 2
               = Some (Vec.of_list pix)
            /\ length pix = 2)
    /\ concat pixels = Example.radarPixel.
Proof.
  apply (@GetPixel_unstacks Example.radarPixel 2%N 2).
  - reflexivity.
  - vm_compute. reflexivity.
Defined.

(** ** The timestamps and the candidate pairs *)

Module CandidateFacts.

Import DecloudTimeSeriesPreProcessor Matching StdSort SortFacts MatcherFacts.
Import FloatFacts.

Lemma nth_error_indexed (ts : list float32) :
  forall count k e,
    (count < uint_range)%N ->
    nth_error (indexed count ts) k = Some e ->
    nth_error ts k = Some (timestamp e)
    /\ index e = wrap (count + N.of_nat k).
Proof.
  induction ts as [|t ts IH]; intros count k e Hc Hk.
  - destruct k; discriminate.
  - destruct k as [|k]; simpl in Hk.
    + injection Hk as <-. simpl. split; [reflexivity|].
      rewrite N.add_0_r. now rewrite wrap_small.
    + destruct (IH _ k e (wrap_lt (count + 1)) Hk) as [Ht Hi].
      split; [exact Ht|]. rewrite Hi, wrap_add_l. f_equal. lia.
Qed.

Section Parsing.

Variable stof : string -> option float32.

Lemma GetTimestampsWithIndices_loop_fails :
  forall (strs : list string) (count : N) (acc : TimestampWithIndexList),
    (exists s, In s strs /\ stof s = None) ->
    GetTimestampsWithIndices_loop stof strs count acc = inl stof_exception.
Proof.
  induction strs as [|str strs IH]; intros count acc (s & Hin & Hs).
  - destruct Hin.
  - simpl. unfold Str2Timestamp.
    destruct (stof str) as [t|] eqn:E; [|reflexivity].
    apply IH. exists s. split; [|exact Hs].
    destruct Hin as [->|Hin]; [congruence|exact Hin].
Qed.

End Parsing.

(** The candidate list and the combinations that pass the filter. *)
Lemma groups_passing (maxGap : float32) (radar : TimestampWithIndexList) :
  forall (outer : TimestampWithIndexList) (groups : list IndicesPairList),
    Forall2 (is_group maxGap radar) outer groups ->
    Permutation (concat groups) (Variants.passing maxGap radar outer).
Proof.
  induction 1 as [|o g outer groups (rs & Hrs & _ & ->) _ IH]; simpl.
  - constructor.
  - apply Permutation_app; [|exact IH].
    unfold group_of. now apply Permutation_map.
Qed.



Section Matcher.

Variable stof : string -> option float32.
Variable std_sort :
  (TimestampWithIndex -> TimestampWithIndex -> bool) ->
  TimestampWithIndexList -> TimestampWithIndexList.

Hypothesis Hsort : is_std_sort std_sort.

(** The candidate pairs, up to their order. *)
Lemma GetCandidatesPairs_passing (p : Parameters)
    (radarTs optTs : list float32) :
  parsed stof (timestampssar p) radarTs ->
  parsed stof (timestampsopt p) optTs ->
  all_finite radarTs ->
  all_finite optTs ->
  reference_ok stof p ->
  exists candidates,
    Permutation candidates
      (Variants.passing (maxgap p) (indexed 0 radarTs) (indexed 0 optTs))
    /\ GetCandidatesPairs stof std_sort p
       = match candidates with
         | [] => inl fatal_exception
         | _ :: _ => inr candidates
         end.
Proof.
  intros HpR HpO HfR HfO Href.
  destruct (@GetCandidatesPairs_structure stof std_sort Hsort p radarTs optTs
              HpR HpO HfR HfO Href)
    as (outer & groups & Hperm & _ & Hg & Heq).
  exists (concat groups). split; [|exact Heq].
  rewrite (groups_passing Hg). unfold Variants.passing.
  apply Permutation_flat_map. now symmetry.
Qed.

End Matcher.

(** No gap passes a bound that is a NaN or is less than zero. *)
Lemma fle_nan (x g : float32) : is_nan g = true -> fle x g = false.
Proof.
  destruct g; try discriminate. intros _. unfold fle, SFleb.
  now destruct x.
Qed.

Lemma fle_fabs_negative (x g : float32) :
  Variants.is_negative g = true -> fle (fabs x) g = false.
Proof.
  unfold Variants.is_negative. intros Hneg.
  destruct (is_nan (fabs x)) eqn:Hx.
  - destruct x; try discriminate. reflexivity.
  - assert (Hg : is_nan g = false).
    { destruct g; try reflexivity. discriminate Hneg. }
    apply (@flt_rank g (Z2F 0) Hg eq_refl) in Hneg.
    destruct (fle (fabs x) g) eqn:E; [|reflexivity].
    apply (@fle_rank (fabs x) g Hx Hg) in E. exfalso. apply E.
    change (rank (Z2F 0)) with (0, 0, 0)%Z in Hneg.
    destruct (rank g) as [[g1 g2] g3].
    destruct x as [s|s| |s m e]; try discriminate;
      unfold lex_lt in *; simpl; lia.
Qed.

End CandidateFacts.

Section CandidateExtras.

Import DecloudTimeSeriesPreProcessor Matching StdSort MatcherFacts.
Import CandidateFacts.

Variable stof : string -> option float32.
Variable std_sort :
  (TimestampWithIndex -> TimestampWithIndex -> bool) ->
  TimestampWithIndexList -> TimestampWithIndexList.

Variable p : Parameters.
Variables radarTimestamps opticalTimestamps : list float32.

(** X9. [GetTimestampsWithIndices] keeps the order of the strings: when
    each string is converted, the entry of rank [k] holds the timestamp of
    the string of rank [k] and the index [k], as an [unsigned int]; when one
    string is not converted, the exception of [std::stof] is thrown. *)
Theorem GetTimestampsWithIndices_outcome (strs : list string) :
  (forall ts,
      parsed stof strs ts ->
      exists entries,
        GetTimestampsWithIndices stof strs = inr entries
        /\ map timestamp entries = ts
        /\ forall k e, nth_error entries k = Some e ->
                       index e = wrap (N.of_nat k))
  /\ ((exists s, In s strs /\ stof s = None) ->
      GetTimestampsWithIndices stof strs = inl stof_exception).
Proof.
  split.
  - intros ts Hp. exists (indexed 0 ts).
    split; [now apply GetTimestampsWithIndices_parsed|].
    split; [apply map_timestamp_indexed|].
    intros k e Hk.
    now destruct (@nth_error_indexed ts 0%N k e eq_refl Hk).
  - intros H. now apply GetTimestampsWithIndices_loop_fails.
Qed.

(** X10. A timestamp string that is not converted, in either list, makes
    [GetCandidatesPairs] throw the exception of [std::stof], whatever the
    sorting mode and the maximal gap. *)
Theorem unparsed_timestamp_fails :
  (exists s, In s (timestampssar p ++ timestampsopt p) /\ stof s = None) ->
  GetCandidatesPairs stof std_sort p = inl stof_exception.
Proof.
  intros (s & Hin & Hs). unfold GetCandidatesPairs.
  destruct (GetTimestampsWithIndices stof (timestampssar p)) as [e|sar] eqn:Es.
  - apply GetTimestampsWithIndices_loop_exception in Es. now subst e.
  - apply in_app_or in Hin. destruct Hin as [Hin|Hin].
    + unfold GetTimestampsWithIndices in Es.
      rewrite GetTimestampsWithIndices_loop_fails in Es by eauto.
      discriminate.
    + unfold GetTimestampsWithIndices.
      rewrite GetTimestampsWithIndices_loop_fails by eauto. reflexivity.
Qed.



(** X13. A maximal gap that is a NaN or is less than zero lets no pair
    pass: [GetCandidatesPairs] throws the fatal exception. *)
Theorem useless_maxgap_is_fatal :
  is_std_sort std_sort ->
  parsed stof (timestampssar p) radarTimestamps ->
  parsed stof (timestampsopt p) opticalTimestamps ->
  all_finite radarTimestamps ->
  all_finite opticalTimestamps ->
  reference_ok stof p ->
  is_nan (maxgap p) = true \/ Variants.is_negative (maxgap p) = true ->
  GetCandidatesPairs stof std_sort p = inl fatal_exception.
Proof.
  intros Hsort HpR HpO HfR HfO Href Hgap.
  destruct (@GetCandidatesPairs_passing stof std_sort Hsort p
              radarTimestamps opticalTimestamps HpR HpO HfR HfO Href)
    as (candidates & Hperm & Heq).
  rewrite Heq.
  assert (Hnone : forall os,
             Variants.passing (maxgap p) (indexed 0 radarTimestamps) os = []).
  { unfold Variants.passing.
    induction os as [|o os IH]; [reflexivity|].
    simpl. rewrite IH, app_nil_r.
    assert (Hf : forall r, within (maxgap p) o r = false).
    { intros r. unfold within, gap.
      destruct Hgap as [Hnan|Hneg];
        [now apply fle_nan|now apply fle_fabs_negative]. }
    rewrite (filter_ext _ (fun _ => false) Hf), filter_false.
    reflexivity. }
  rewrite Hnone in Hperm.
  apply Permutation_sym, Permutation_nil in Hperm.
  now rewrite Hperm.
Qed.

End CandidateExtras.

Lemma GetTimestampsWithIndices_outcome_witness :
  DecloudTimeSeriesPreProcessor.GetTimestampsWithIndices Stof.stof
    ["10"; "x"; "30"]%string
  = inl stof_exception.
Proof.
  apply (proj2 (@GetTimestampsWithIndices_outcome Stof.stof
                  ["10"; "x"; "30"]%string)).
  exists "x"%string. split; [simpl; auto|reflexivity].
Defined.

Lemma unparsed_timestamp_fails_witness :
  DecloudTimeSeriesPreProcessor.GetCandidatesPairs Stof.stof Example.std_sort
    (DecloudTimeSeriesPreProcessor.Build_Parameters
       ["10"; "20"]%string ["30"; "soon"]%string
       DecloudTimeSeriesPreProcessor.DES None (Z2F 10))
  = inl stof_exception.
Proof.
  apply unparsed_timestamp_fails.
  exists "soon"%string. split; [simpl; auto|reflexivity].
Defined.



Lemma useless_maxgap_is_fatal_witness :
  DecloudTimeSeriesPreProcessor.GetCandidatesPairs Stof.stof Example.std_sort
    (DecloudTimeSeriesPreProcessor.Build_Parameters
       ["10"; "20"; "45"]%string ["30"; "12"]%string
       DecloudTimeSeriesPreProcessor.ASC None (Z2F (-1)))
  = inl fatal_exception.
Proof.
  refine (@useless_maxgap_is_fatal Stof.stof Example.std_sort
            (DecloudTimeSeriesPreProcessor.Build_Parameters
               ["10"; "20"; "45"]%string ["30"; "12"]%string
               DecloudTimeSeriesPreProcessor.ASC None (Z2F (-1)))
            (map Z2F [10; 20; 45]%Z) (map Z2F [30; 12]%Z)
            (@SortFacts.insertion_sort_is_std_sort _) _ _ _ _ _ _).
  - vm_compute. reflexivity.
  - vm_compute. reflexivity.
  - repeat constructor.
  - repeat constructor.
  - intros H. discriminate H.
  - right. vm_compute. reflexivity.
Defined.

(** ** The compact image lists *)

Module CompactFacts.

Import DecloudTimeSeriesPreProcessor Compaction CompactionFacts.

Lemma length_le_bound (tbl : list N) (n : nat) :
  NoDup tbl -> (forall x, In x tbl -> N.to_nat x < n) -> length tbl <= n.
Proof.
  intros Hnd Hall.
  rewrite <- (length_seq n 0), <- (length_map N.of_nat).
  apply NoDup_incl_length; [exact Hnd|].
  intros x Hx. apply in_map_iff. exists (N.to_nat x).
  split; [apply N2Nat.id|]. apply in_seq. specialize (Hall x Hx). lia.
Qed.

Lemma images_of_nth (Image : Type) (inList : list Image) :
  forall (tbl : list N) (newList : list Image) (k : nat) (x : N),
    images_of inList tbl newList ->
    nth_error tbl k = Some x ->
    exists img,
      nth_error newList k = Some img
      /\ nth_error inList (N.to_nat x) = Some img.
Proof.
  intros tbl newList k x H. revert k.
  induction H as [|y img tbl newList Hy _ IH]; intros k Hk.
  - destruct k; discriminate.
  - destruct k as [|k]; simpl in Hk.
    + injection Hk as ->. exists img. auto.
    + now apply IH.
Qed.

Section Result.

Variable Image : Type.
Variables inSARList inOptList : list Image.
Variable pairs : IndicesPairList.

Hypothesis Hty : typed pairs.
Hypothesis Had : addressable inSARList inOptList pairs.

(** What [InstantiateSources] returns. *)
Lemma InstantiateSources_result :
  exists sarL optL,
    InstantiateSources pairs inSARList inOptList
    = inr (sarL, optL,
           map (translate (table (map fst pairs)) (table (map snd pairs)))
             pairs)
    /\ images_of inSARList (table (map fst pairs)) sarL
    /\ images_of inOptList (table (map snd pairs)) optL.
Proof.
  destruct (@InstantiateSources_loop_spec Image inSARList inOptList pairs
              (Build_sources_state [] [] [] [] 0%N 0%N []))
    as (st & Hloop & (HinvS & HinvO) & HsarT & HoptT & Hout);
    [split; (split; [constructor|split; [constructor|split;
       [reflexivity|constructor]]])|exact Hty|exact Had|].
  cbn in HsarT, HoptT, Hout.
  fold (table (map fst pairs)) in HsarT.
  fold (table (map snd pairs)) in HoptT.
  destruct HinvS as (_ & _ & _ & HimgS). destruct HinvO as (_ & _ & _ & HimgO).
  rewrite HsarT in HimgS, Hout. rewrite HoptT in HimgO, Hout.
  exists (sarList st), (optList st).
  unfold InstantiateSources. rewrite Hloop, Hout. auto.
Qed.

Lemma table_fst_bounds :
  length (table (map fst pairs)) <= length inSARList
  /\ length (table (map fst pairs)) <= length pairs.
Proof.
  destruct (table_spec (map fst pairs)) as [Hnd Hin]. split.
  - apply length_le_bound; [exact Hnd|]. intros x Hx. apply Hin in Hx.
    apply in_map_iff in Hx. destruct Hx as (pr & <- & Hpr).
    unfold addressable in Had. rewrite Forall_forall in Had.
    now apply Had.
  - rewrite <- (length_map fst pairs).
    apply NoDup_incl_length; [exact Hnd|]. intros x Hx. now apply Hin.
Qed.

Lemma table_snd_bounds :
  length (table (map snd pairs)) <= length inOptList
  /\ length (table (map snd pairs)) <= length pairs.
Proof.
  destruct (table_spec (map snd pairs)) as [Hnd Hin]. split.
  - apply length_le_bound; [exact Hnd|]. intros x Hx. apply Hin in Hx.
    apply in_map_iff in Hx. destruct Hx as (pr & <- & Hpr).
    unfold addressable in Had. rewrite Forall_forall in Had.
    now apply Had.
  - rewrite <- (length_map snd pairs).
    apply NoDup_incl_length; [exact Hnd|]. intros x Hx. now apply Hin.
Qed.

End Result.

End CompactFacts.

Section CompactExtras.

Import DecloudTimeSeriesPreProcessor Compaction CompactionFacts CompactFacts.

Variable Image : Type.
Variables inSARList inOptList : list Image.
Variable candidatePairs : IndicesPairList.

(** X14. The resolved pairs point into the compact image lists, and a
    compact image list is no longer than the original list nor than the
    list of pairs. *)
Theorem resolved_indices_are_valid_offsets :
  typed candidatePairs ->
  addressable inSARList inOptList candidatePairs ->
  exists sarList optList resolvedPairs,
    InstantiateSources candidatePairs inSARList inOptList
    = inr (sarList, optList, resolvedPairs)
    /\ (forall s o, In (s, o) resolvedPairs ->
          N.to_nat s < length sarList /\ N.to_nat o < length optList)
    /\ length sarList <= length inSARList
    /\ length optList <= length inOptList
    /\ length sarList <= length candidatePairs
    /\ length optList <= length candidatePairs.
Proof.
  intros Hty Had.
  destruct (InstantiateSources_result Hty Had)
    as (sarL & optL & Heq & HimgS & HimgO).
  pose proof (Forall2_length HimgS) as HlS.
  pose proof (Forall2_length HimgO) as HlO.
  destruct (table_fst_bounds Had) as [HS1 HS2].
  destruct (table_snd_bounds Had) as [HO1 HO2].
  destruct (table_spec (map fst candidatePairs)) as [_ HinS].
  destruct (table_spec (map snd candidatePairs)) as [_ HinO].
  eexists sarL, optL, _. split; [exact Heq|].
  split; [|lia].
  intros s o Hin. apply in_map_iff in Hin.
  destruct Hin as ([s0 o0] & Htr & Hpr). injection Htr as <- <-.
  unfold new_index. rewrite !Nat2N.id, <- HlS, <- HlO. cbn [fst snd]. split.
  - apply place_lt, HinS. now apply (in_map fst) in Hpr.
  - apply place_lt, HinO. now apply (in_map snd) in Hpr.
Qed.

(** X15. The compaction keeps the images of the pairs: the resolved pair
    of rank [i] points, in the compact lists, to the images that the
    candidate pair of rank [i] points to in the original lists. *)
Theorem resolved_pairs_point_to_the_same_images :
  typed candidatePairs ->
  addressable inSARList inOptList candidatePairs ->
  exists sarList optList resolvedPairs,
    InstantiateSources candidatePairs inSARList inOptList
    = inr (sarList, optList, resolvedPairs)
    /\ forall i s o,
         nth_error candidatePairs i = Some (s, o) ->
         exists s' o' sarImage optImage,
           nth_error resolvedPairs i = Some (s', o')
           /\ nth_error sarList (N.to_nat s') = Some sarImage
           /\ nth_error inSARList (N.to_nat s) = Some sarImage
           /\ nth_error optList (N.to_nat o') = Some optImage
           /\ nth_error inOptList (N.to_nat o) = Some optImage.
Proof.
  intros Hty Had.
  destruct (InstantiateSources_result Hty Had)
    as (sarL & optL & Heq & HimgS & HimgO).
  destruct (table_spec (map fst candidatePairs)) as [_ HinS].
  destruct (table_spec (map snd candidatePairs)) as [_ HinO].
  eexists sarL, optL, _. split; [exact Heq|].
  intros i s o Hi.
  assert (HsIn : In s (table (map fst candidatePairs))).
  { apply HinS. apply nth_error_In in Hi. now apply (in_map fst) in Hi. }
  assert (HoIn : In o (table (map snd candidatePairs))).
  { apply HinO. apply nth_error_In in Hi. now apply (in_map snd) in Hi. }
  destruct (@images_of_nth Image inSARList _ _ _ _ HimgS
              (@nth_error_place _ _ HsIn)) as (imgS & HS1 & HS2).
  destruct (@images_of_nth Image inOptList _ _ _ _ HimgO
              (@nth_error_place _ _ HoIn)) as (imgO & HO1 & HO2).
  exists (new_index (table (map fst candidatePairs)) s),
         (new_index (table (map snd candidatePairs)) o), imgS, imgO.
  unfold new_index. rewrite !Nat2N.id.
  split; [|auto]. rewrite nth_error_map, Hi. reflexivity.
Qed.

End CompactExtras.

Module IdempotenceFacts.

Import DecloudTimeSeriesPreProcessor Compaction CompactionFacts CompactFacts.

Lemma place_inj (tbl : list N) (x y : N) :
  In x tbl -> In y tbl -> place tbl x = place tbl y -> x = y.
Proof.
  intros Hx Hy E.
  pose proof (nth_error_place _ _ Hx) as H1.
  pose proof (nth_error_place _ _ Hy) as H2.
  rewrite E in H1. congruence.
Qed.

Lemma first_encounters_map (f : N -> N) (D : list N) :
  (forall x y, In x D -> In y D -> f x = f y -> x = y) ->
  forall l seen,
    incl seen D -> incl l D ->
    first_encounters (map f seen) (map f l)
    = map f (first_encounters seen l).
Proof.
  intros Hinj. induction l as [|x l IH]; intros seen Hseen Hl; simpl;
    [reflexivity|].
  assert (Hx : In x D) by (apply Hl; now left).
  assert (Hl' : incl l D) by (intros y Hy; apply Hl; now right).
  assert (E : existsb (N.eqb (f x)) (map f seen) = existsb (N.eqb x) seen).
  { destruct (existsb (N.eqb x) seen) eqn:E1.
    - apply existsb_In in E1. apply existsb_In. now apply in_map.
    - destruct (existsb (N.eqb (f x)) (map f seen)) eqn:E2; [|reflexivity].
      apply existsb_In in E2. apply in_map_iff in E2.
      destruct E2 as (y & Hfy & Hy).
      apply Hinj in Hfy; auto. subst y.
      apply existsb_In in Hy. congruence. }
  rewrite E. destruct (existsb (N.eqb x) seen).
  - now apply IH.
  - rewrite <- IH; auto.
    + now rewrite map_app.
    + intros y Hy. apply in_app_or in Hy.
      destruct Hy as [Hy|[<-|[]]]; auto.
Qed.

Lemma map_place_self (tbl : list N) :
  NoDup tbl -> map (place tbl) tbl = seq 0 (length tbl).
Proof.
  induction 1 as [|y tbl Hy _ IH]; [reflexivity|].
  simpl. rewrite N.eqb_refl. f_equal.
  rewrite <- seq_shift, <- IH, map_map.
  apply map_ext_in. intros x Hx.
  destruct (N.eqb_spec y x) as [E|E]; [|reflexivity].
  subst. contradiction.
Qed.

Lemma place_iota :
  forall k a i,
    i < k -> place (map N.of_nat (seq a k)) (N.of_nat (a + i)) = i.
Proof.
  induction k as [|k IH]; intros a i Hi; [lia|].
  simpl. destruct (N.eqb_spec (N.of_nat a) (N.of_nat (a + i))) as [E|E].
  - lia.
  - destruct i as [|i]; [exfalso; apply E; f_equal; lia|].
    replace (a + S i) with (S a + i) by lia. rewrite IH by lia. reflexivity.
Qed.

(** The table of the new indices of a list counts from 0. *)
Lemma table_of_new_indices (l : list N) :
  table (map (new_index (table l)) l)
  = map N.of_nat (seq 0 (length (table l))).
Proof.
  destruct (table_spec l) as [Hnd Hin].
  unfold table at 1.
  change (@nil N) with (map (new_index (table l)) []).
  rewrite (@first_encounters_map (new_index (table l)) (table l)).
  - fold (table l). unfold new_index.
    rewrite <- (map_map (place (table l)) N.of_nat).
    now rewrite map_place_self.
  - intros x y Hx Hy E. unfold new_index in E.
    apply Nat2N.inj in E. now apply place_inj in E.
  - intros x [].
  - intros x Hx. now apply Hin.
Qed.

Lemma new_index_iota (k : nat) (x : N) :
  (x < N.of_nat k)%N -> new_index (map N.of_nat (seq 0 k)) x = x.
Proof.
  intros Hx. unfold new_index.
  pose proof (@place_iota k 0 (N.to_nat x)) as H.
  cbn [Nat.add] in H. rewrite N2Nat.id in H.
  rewrite H by lia. apply N2Nat.id.
Qed.

Lemma images_of_iota (Image : Type) (L L2 : list Image) :
  images_of L (map N.of_nat (seq 0 (length L))) L2 -> L2 = L.
Proof.
  intros H. pose proof (Forall2_length H) as Hlen.
  rewrite length_map, length_seq in Hlen.
  apply nth_error_ext. intros i.
  destruct (Nat.lt_ge_cases i (length L)) as [Hi|Hi].
  - assert (Hnth : nth_error (map N.of_nat (seq 0 (length L))) i
                   = Some (N.of_nat i)).
    { rewrite nth_error_map, nth_error_seq.
      replace (i <? length L) with true by (symmetry; now apply Nat.ltb_lt).
      reflexivity. }
    destruct (@images_of_nth Image L _ _ _ _ H Hnth) as (img & H1 & H2).
    rewrite Nat2N.id in H2. congruence.
  - rewrite (proj2 (nth_error_None L i)) by exact Hi.
    apply nth_error_None. lia.
Qed.

End IdempotenceFacts.

(** X16. The compaction of resolved pairs changes nothing: given the
    resolved pairs and the compact image lists it has returned,
    [InstantiateSources] returns the same pairs and the same lists. *)
Theorem compaction_is_idempotent (Image : Type)
    (inSARList inOptList : list Image) (candidatePairs : IndicesPairList) :
  Compaction.typed candidatePairs ->
  Compaction.addressable inSARList inOptList candidatePairs ->
  exists sarList optList resolvedPairs,
    DecloudTimeSeriesPreProcessor.InstantiateSources candidatePairs
      inSARList inOptList
    = inr (sarList, optList, resolvedPairs)
    /\ DecloudTimeSeriesPreProcessor.InstantiateSources resolvedPairs
         sarList optList
       = inr (sarList, optList, resolvedPairs).
Proof.
  intros Hty Had.
  destruct (CompactFacts.InstantiateSources_result Hty Had)
    as (sarL & optL & Heq & HimgS & HimgO).
  set (sarT := Compaction.table (map fst candidatePairs)) in *.
  set (optT := Compaction.table (map snd candidatePairs)) in *.
  set (resolved := map (Compaction.translate sarT optT) candidatePairs) in *.
  pose proof (Forall2_length HimgS) as HlS.
  pose proof (Forall2_length HimgO) as HlO.
  destruct (CompactionFacts.table_spec (map fst candidatePairs)) as [HndS HinS].
  destruct (CompactionFacts.table_spec (map snd candidatePairs)) as [HndO HinO].
  fold sarT in HndS, HinS. fold optT in HndO, HinO.
  assert (Hbound : forall s o, In (s, o) resolved ->
            (s < N.of_nat (length sarT))%N /\ (o < N.of_nat (length optT))%N).
  { intros s o Hin. apply in_map_iff in Hin.
    destruct Hin as ([s0 o0] & Htr & Hpr). injection Htr as <- <-.
    unfold Compaction.new_index. cbn [fst snd]. split.
    - assert (H : Compaction.place sarT s0 < length sarT); [|lia].
      apply CompactionFacts.place_lt, HinS. now apply (in_map fst) in Hpr.
    - assert (H : Compaction.place optT o0 < length optT); [|lia].
      apply CompactionFacts.place_lt, HinO. now apply (in_map snd) in Hpr. }
  assert (HallS : Forall (fun x => (x < uint_range)%N) sarT).
  { apply Forall_forall. intros x Hx. apply HinS in Hx.
    apply in_map_iff in Hx. destruct Hx as (pr & <- & Hpr).
    unfold Compaction.typed in Hty. rewrite Forall_forall in Hty.
    now apply Hty. }
  assert (HallO : Forall (fun x => (x < uint_range)%N) optT).
  { apply Forall_forall. intros x Hx. apply HinO in Hx.
    apply in_map_iff in Hx. destruct Hx as (pr & <- & Hpr).
    unfold Compaction.typed in Hty. rewrite Forall_forall in Hty.
    now apply Hty. }
  pose proof (CompactionFacts.distinct_uints HndS HallS) as HuS.
  pose proof (CompactionFacts.distinct_uints HndO HallO) as HuO.
  assert (Hty' : Compaction.typed resolved).
  { apply Forall_forall. intros [s o] Hin. apply Hbound in Hin.
    cbn [fst snd]. lia. }
  assert (Had' : Compaction.addressable sarL optL resolved).
  { apply Forall_forall. intros [s o] Hin. apply Hbound in Hin.
    cbn [fst snd]. lia. }
  destruct (CompactFacts.InstantiateSources_result Hty' Had')
    as (sarL2 & optL2 & Heq2 & HimgS2 & HimgO2).
  assert (HtS : Compaction.table (map fst resolved)
                = map N.of_nat (seq 0 (length sarT))).
  { unfold resolved. rewrite map_map. cbn [Compaction.translate fst].
    rewrite <- (map_map fst (Compaction.new_index sarT)).
    apply IdempotenceFacts.table_of_new_indices. }
  assert (HtO : Compaction.table (map snd resolved)
                = map N.of_nat (seq 0 (length optT))).
  { unfold resolved. rewrite map_map. cbn [Compaction.translate snd].
    rewrite <- (map_map snd (Compaction.new_index optT)).
    apply IdempotenceFacts.table_of_new_indices. }
  rewrite HtS in Heq2, HimgS2. rewrite HtO in Heq2, HimgO2.
  rewrite HlS in HimgS2. rewrite HlO in HimgO2.
  apply IdempotenceFacts.images_of_iota in HimgS2.
  apply IdempotenceFacts.images_of_iota in HimgO2. subst sarL2 optL2.
  exists sarL, optL, resolved. split; [exact Heq|].
  rewrite Heq2. f_equal. f_equal.
  rewrite <- (map_id resolved) at 2. apply map_ext_in.
  intros [s o] Hin. apply Hbound in Hin. destruct Hin as [Hs Ho].
  unfold Compaction.translate. cbn [fst snd].
  now rewrite !IdempotenceFacts.new_index_iota.
Qed.

(** Three pairs over six radar and four optical images: every resolved
    index is an offset into the two compact lists, which hold two images
    each. *)
Lemma resolved_indices_are_valid_offsets_witness :
  exists sarList optList resolvedPairs,
    DecloudTimeSeriesPreProcessor.InstantiateSources
      [(5, 3); (2, 3); (5, 1)]%N
      ["a"; "b"; "c"; "d"; "e"; "f"]%string ["A"; "B"; "C"; "D"]%string
    = inr (sarList, optList, resolvedPairs)
    /\ (forall s o, In (s, o) resolvedPairs ->
          N.to_nat s < length sarList /\ N.to_nat o < length optList)
    /\ length sarList <= 6
    /\ length optList <= 4
    /\ length sarList <= 3
    /\ length optList <= 3.
Proof.
  apply (@resolved_indices_are_valid_offsets string
           ["a"; "b"; "c"; "d"; "e"; "f"]%string ["A"; "B"; "C"; "D"]%string
           [(5, 3); (2, 3); (5, 1)]%N).
  - repeat constructor.
  - repeat constructor.
Defined.

(** The same three pairs: pair by pair, the resolved indices reach in the
    compact lists the images the candidate indices reach in the originals. *)
Lemma resolved_pairs_point_to_the_same_images_witness :
  exists sarList optList resolvedPairs,
    DecloudTimeSeriesPreProcessor.InstantiateSources
      [(5, 3); (2, 3); (5, 1)]%N
      ["a"; "b"; "c"; "d"; "e"; "f"]%string ["A"; "B"; "C"; "D"]%string
    = inr (sarList, optList, resolvedPairs)
    /\ forall i s o,
         nth_error [(5, 3); (2, 3); (5, 1)]%N i = Some (s, o) ->
         exists s' o' sarImage optImage,
           nth_error resolvedPairs i = Some (s', o')
           /\ nth_error sarList (N.to_nat s') = Some sarImage
           /\ nth_error ["a"; "b"; "c"; "d"; "e"; "f"]%string (N.to_nat s)
              = Some sarImage
           /\ nth_error optList (N.to_nat o') = Some optImage
           /\ nth_error ["A"; "B"; "C"; "D"]%string (N.to_nat o)
              = Some optImage.
Proof.
  apply (@resolved_pairs_point_to_the_same_images string
           ["a"; "b"; "c"; "d"; "e"; "f"]%string ["A"; "B"; "C"; "D"]%string
           [(5, 3); (2, 3); (5, 1)]%N).
  - repeat constructor.
  - repeat constructor.
Defined.

(** The same three pairs: a second compaction of the result returns it. *)
Lemma compaction_is_idempotent_witness :
  exists sarList optList resolvedPairs,
    DecloudTimeSeriesPreProcessor.InstantiateSources
      [(5, 3); (2, 3); (5, 1)]%N
      ["a"; "b"; "c"; "d"; "e"; "f"]%string ["A"; "B"; "C"; "D"]%string
    = inr (sarList, optList, resolvedPairs)
    /\ DecloudTimeSeriesPreProcessor.InstantiateSources resolvedPairs
         sarList optList
       = inr (sarList, optList, resolvedPairs).
Proof.
  apply (@compaction_is_idempotent string
           ["a"; "b"; "c"; "d"; "e"; "f"]%string ["A"; "B"; "C"; "D"]%string
           [(5, 3); (2, 3); (5, 1)]%N).
  - repeat constructor.
  - repeat constructor.
Defined.

(** ** The run up to the fusion filter *)

Module PipelineFacts.

Import DecloudTimeSeriesPreProcessor Matching MatcherFacts Execution.

Lemma parsed_length (stof : string -> option float32) (strs : list string)
    (ts : list float32) :
  parsed stof strs ts -> length ts = length strs.
Proof.
  intros H. apply (f_equal (@length _)) in H.
  rewrite !length_map in H. now symmetry.
Qed.

Lemma CheckNumbers_equal (Image : Type) (imgs : list Image)
    (timestamps : list string) :
  length imgs = length timestamps -> CheckNumbers imgs timestamps = inr tt.
Proof.
  intros E. unfold CheckNumbers. cbv zeta. rewrite E, N.eqb_refl.
  reflexivity.
Qed.

Lemma CheckNumbers_differ (Image : Type) (imgs : list Image)
    (timestamps : list string) :
  (N.of_nat (length imgs) < uint_range)%N ->
  (N.of_nat (length timestamps) < uint_range)%N ->
  length imgs <> length timestamps ->
  CheckNumbers imgs timestamps = inl fatal_exception.
Proof.
  intros H1 H2 E. unfold CheckNumbers. cbv zeta.
  rewrite !wrap_small by assumption.
  destruct (N.eqb_spec (N.of_nat (length timestamps)) (N.of_nat (length imgs)))
    as [E'|E']; [|reflexivity].
  apply Nat2N.inj in E'. congruence.
Qed.

Lemma CheckNumbers_outcome (Image : Type) (imgs : list Image)
    (timestamps : list string) :
  CheckNumbers imgs timestamps = inr tt
  \/ CheckNumbers imgs timestamps = inl fatal_exception.
Proof.
  unfold CheckNumbers. cbv zeta.
  destruct (_ =? _)%N; [now left|now right].
Qed.

(** An entry of a list of timestamps shorter than [2^32] holds its
    position. *)
Lemma indexed_entry (ts : list float32) (e : TimestampWithIndex) :
  (N.of_nat (length ts) < uint_range)%N ->
  In e (indexed 0 ts) ->
  exists k, nth_error ts k = Some (timestamp e) /\ index e = N.of_nat k.
Proof.
  intros Hlen Hin.
  destruct (@indexed_position ts 0%N e) as (k & Hk & Hi);
    [reflexivity|exact Hin|].
  exists k. split; [exact Hk|].
  rewrite Hi, N.add_0_l. apply wrap_small.
  assert (k < length ts) by (apply nth_error_Some; congruence). lia.
Qed.

End PipelineFacts.

Section PipelineExtras.

Import DecloudTimeSeriesPreProcessor Matching StdSort MatcherFacts.
Import Compaction CompactionFacts CompactFacts Execution PipelineFacts.

Variable Image : Type.
Variable stof : string -> option float32.
Variable std_sort :
  (TimestampWithIndex -> TimestampWithIndex -> bool) ->
  TimestampWithIndexList -> TimestampWithIndexList.

Variable p : Parameters.
Variables ilsar ilopt : list Image.

(** X17. When a list of images and its list of timestamps differ in
    length, the run stops with the fatal error of [CheckNumbers], whatever
    the timestamps, the sorting mode and the gap are: no timestamp is
    converted before the check. *)
Theorem mismatched_counts_are_fatal :
  (N.of_nat (length ilsar) < uint_range)%N ->
  (N.of_nat (length (timestampssar p)) < uint_range)%N ->
  (N.of_nat (length ilopt) < uint_range)%N ->
  (N.of_nat (length (timestampsopt p)) < uint_range)%N ->
  length ilsar <> length (timestampssar p)
  \/ length ilopt <> length (timestampsopt p) ->
  DoExecute_sources stof std_sort p ilsar ilopt = inl fatal_exception.
Proof.
  intros H1 H2 H3 H4 Hne. unfold DoExecute_sources.
  destruct (CheckNumbers_outcome ilsar (timestampssar p)) as [E|E];
    rewrite E; [|reflexivity].
  destruct (CheckNumbers_outcome ilopt (timestampsopt p)) as [E'|E'];
    rewrite E'; [|reflexivity].
  destruct Hne as [Hne|Hne].
  - rewrite (@CheckNumbers_differ _ _ _ H1 H2 Hne) in E. discriminate.
  - rewrite (@CheckNumbers_differ _ _ _ H3 H4 Hne) in E'. discriminate.
Qed.

Variables radarTimestamps opticalTimestamps : list float32.

Hypothesis Hsort : is_std_sort std_sort.

(** X18. With as many timestamps as images on both sides, the run either
    stops with the fatal error of the matcher, or returns a non-empty list
    of resolved pairs with the compact image lists; each resolved pair
    then designates, in the compact lists, one radar image and one optical
    image of the inputs whose timestamps differ by at most [maxgap]. The
    compaction never fails on the pairs of the matcher. *)
Theorem run_pairs_images_within_the_gap :
  length ilsar = length (timestampssar p) ->
  length ilopt = length (timestampsopt p) ->
  (N.of_nat (length ilsar) < uint_range)%N ->
  (N.of_nat (length ilopt) < uint_range)%N ->
  parsed stof (timestampssar p) radarTimestamps ->
  parsed stof (timestampsopt p) opticalTimestamps ->
  all_finite radarTimestamps ->
  all_finite opticalTimestamps ->
  reference_ok stof p ->
  DoExecute_sources stof std_sort p ilsar ilopt = inl fatal_exception
  \/ exists sarList optList resolvedPairs,
       DoExecute_sources stof std_sort p ilsar ilopt
       = inr (sarList, optList, resolvedPairs)
       /\ resolvedPairs <> []
       /\ forall s' o',
            In (s', o') resolvedPairs ->
            exists i j sarImage optImage radarT optT,
              nth_error sarList (N.to_nat s') = Some sarImage
              /\ nth_error ilsar i = Some sarImage
              /\ nth_error radarTimestamps i = Some radarT
              /\ nth_error optList (N.to_nat o') = Some optImage
              /\ nth_error ilopt j = Some optImage
              /\ nth_error opticalTimestamps j = Some optT
              /\ fle (gap radarT optT) (maxgap p) = true.
Proof.
  intros HlS HlO HbS HbO HpR HpO HfR HfO Href.
  unfold DoExecute_sources.
  rewrite (@CheckNumbers_equal _ _ _ HlS), (@CheckNumbers_equal _ _ _ HlO).
  destruct (@GetCandidatesPairs_structure stof std_sort Hsort p
              radarTimestamps opticalTimestamps HpR HpO HfR HfO Href)
    as (outer & groups & Hperm & _ & Hg & Heq).
  rewrite Heq.
  destruct (concat groups) as [|pr0 rest] eqn:Hcat; [now left|]. right.
  set (pairs := pr0 :: rest) in *.
  pose proof (@parsed_length _ _ _ HpR) as HnR.
  pose proof (@parsed_length _ _ _ HpO) as HnO.
  assert (Hsrc : forall s o, In (s, o) pairs ->
            exists i j radarT optT,
              s = N.of_nat i /\ o = N.of_nat j
              /\ nth_error radarTimestamps i = Some radarT
              /\ nth_error opticalTimestamps j = Some optT
              /\ fle (gap radarT optT) (maxgap p) = true).
  { intros s o Hin. rewrite <- Hcat in Hin.
    destruct (@In_concat_groups _ _ _ _ _ Hg Hin) as (oe & re & Ho & Hr & Hw & E).
    injection E as -> ->.
    apply (Permutation_in _ (Permutation_sym Hperm)) in Ho.
    destruct (@indexed_entry radarTimestamps re) as (i & Hi & Ei);
      [rewrite HnR, <- HlS; exact HbS|exact Hr|].
    destruct (@indexed_entry opticalTimestamps oe) as (j & Hj & Ej);
      [rewrite HnO, <- HlO; exact HbO|exact Ho|].
    exists i, j, (timestamp re), (timestamp oe). auto. }
  assert (Hty : typed pairs).
  { apply Forall_forall. intros [s o] Hin.
    destruct (Hsrc _ _ Hin) as (i & j & tr & to & -> & -> & Hi & Hj & _).
    assert (Hi' : i < length radarTimestamps)
      by (apply nth_error_Some; congruence).
    assert (Hj' : j < length opticalTimestamps)
      by (apply nth_error_Some; congruence).
    cbn [fst snd]. lia. }
  assert (Had : addressable ilsar ilopt pairs).
  { apply Forall_forall. intros [s o] Hin.
    destruct (Hsrc _ _ Hin) as (i & j & tr & to & -> & -> & Hi & Hj & _).
    assert (Hi' : i < length radarTimestamps)
      by (apply nth_error_Some; congruence).
    assert (Hj' : j < length opticalTimestamps)
      by (apply nth_error_Some; congruence).
    cbn [fst snd]. rewrite !Nat2N.id. lia. }
  destruct (InstantiateSources_result Hty Had)
    as (sarL & optL & Hres & HimgS & HimgO).
  destruct (table_spec (map fst pairs)) as [_ HinS].
  destruct (table_spec (map snd pairs)) as [_ HinO].
  eexists sarL, optL, _. split; [exact Hres|].
  split; [discriminate|].
  intros s' o' Hin. apply in_map_iff in Hin.
  destruct Hin as ([s o] & Htr & Hpr). injection Htr as <- <-.
  destruct (Hsrc _ _ Hpr) as (i & j & tr & to & -> & -> & Hi & Hj & Hw).
  assert (HsIn : In (N.of_nat i) (table (map fst pairs))).
  { apply HinS. now apply (in_map fst) in Hpr. }
  assert (HoIn : In (N.of_nat j) (table (map snd pairs))).
  { apply HinO. now apply (in_map snd) in Hpr. }
  destruct (@images_of_nth Image ilsar _ _ _ _ HimgS
              (@nth_error_place _ _ HsIn)) as (imgS & HS1 & HS2).
  destruct (@images_of_nth Image ilopt _ _ _ _ HimgO
              (@nth_error_place _ _ HoIn)) as (imgO & HO1 & HO2).
  rewrite Nat2N.id in HS2, HO2.
  exists i, j, imgS, imgO, tr, to.
  unfold new_index. cbn [fst snd]. rewrite !Nat2N.id. auto 10.
Qed.

End PipelineExtras.

(** Two radar images for the three radar dates of the worked
    configuration: the run is stopped by the check. *)
Lemma mismatched_counts_are_fatal_witness :
  Execution.DoExecute_sources Stof.stof Example.std_sort
    (Example.parameters DecloudTimeSeriesPreProcessor.ASC None)
    ["a"; "b"]%string ["A"; "B"]%string
  = inl fatal_exception.
Proof.
  apply (@mismatched_counts_are_fatal string Stof.stof Example.std_sort
           (Example.parameters DecloudTimeSeriesPreProcessor.ASC None)
           ["a"; "b"]%string ["A"; "B"]%string).
  - vm_compute. reflexivity.
  - vm_compute. reflexivity.
  - vm_compute. reflexivity.
  - vm_compute. reflexivity.
  - left. vm_compute. intros H. discriminate H.
Defined.

(** The worked dates, with one image for each date. *)
Lemma run_pairs_images_within_the_gap_witness :
  Execution.DoExecute_sources Stof.stof Example.std_sort
    (Example.parameters DecloudTimeSeriesPreProcessor.ASC None)
    ["a"; "b"; "c"]%string ["A"; "B"]%string
  = inl fatal_exception
  \/ exists sarList optList resolvedPairs,
       Execution.DoExecute_sources Stof.stof Example.std_sort
         (Example.parameters DecloudTimeSeriesPreProcessor.ASC None)
         ["a"; "b"; "c"]%string ["A"; "B"]%string
       = inr (sarList, optList, resolvedPairs)
       /\ resolvedPairs <> []
       /\ forall s' o',
            In (s', o') resolvedPairs ->
            exists i j sarImage optImage radarT optT,
              nth_error sarList (N.to_nat s') = Some sarImage
              /\ nth_error ["a"; "b"; "c"]%string i = Some sarImage
              /\ nth_error (map Z2F [10; 20; 45]%Z) i = Some radarT
              /\ nth_error optList (N.to_nat o') = Some optImage
              /\ nth_error ["A"; "B"]%string j = Some optImage
              /\ nth_error (map Z2F [30; 12]%Z) j = Some optT
              /\ fle (Matching.gap radarT optT) (Z2F 10) = true.
Proof.
  apply (@run_pairs_images_within_the_gap string Stof.stof Example.std_sort
           (Example.parameters DecloudTimeSeriesPreProcessor.ASC None)
           ["a"; "b"; "c"]%string ["A"; "B"]%string
           (map Z2F [10; 20; 45]%Z) (map Z2F [30; 12]%Z)
           (@SortFacts.insertion_sort_is_std_sort _)).
  - reflexivity.
  - reflexivity.
  - vm_compute. reflexivity.
  - vm_compute. reflexivity.
  - vm_compute. reflexivity.
  - vm_compute. reflexivity.
  - repeat constructor.
  - repeat constructor.
  - intros H. discriminate H.
Defined.

(** ** The slicers and the size of the fused pixel *)

Module SlicerFacts.

Import DecloudTimeSeriesPreProcessor Layout LayoutFacts Channels.

Lemma slot_unique (w a b c : N) :
  (a * w + 1 <= c <= a * w + w)%N ->
  (b * w + 1 <= c <= b * w + w)%N ->
  a = b.
Proof.
  intros Ha Hb.
  destruct (N.lt_trichotomy a b) as [H|[H|H]]; [|exact H|].
  - assert ((a + 1) * w <= b * w)%N by (apply N.mul_le_mono_r; lia). lia.
  - assert ((b + 1) * w <= a * w)%N by (apply N.mul_le_mono_r; lia). lia.
Qed.

(** The ranges of the slicers, radar then optical. *)
Lemma nth_error_slices (rb ob : N) (n k : nat) (r : ChannelRange) :
  nth_error (map (radar_range rb ob) (seq 0 n)
             ++ map (optical_range rb ob) (seq 0 n)) k = Some r ->
  (k < n /\ r = radar_range rb ob k)
  \/ (n <= k < n + n /\ r = optical_range rb ob (k - n)).
Proof.
  intros H.
  destruct (Nat.lt_ge_cases k n) as [Hk|Hk].
  - left. split; [exact Hk|].
    rewrite nth_error_app1 in H by (now rewrite length_map, length_seq).
    rewrite nth_error_map, nth_error_seq in H.
    replace (k <? n) with true in H by (symmetry; now apply Nat.ltb_lt).
    simpl in H. congruence.
  - right.
    rewrite nth_error_app2 in H by (now rewrite length_map, length_seq).
    rewrite length_map, length_seq in H.
    rewrite nth_error_map, nth_error_seq in H.
    destruct (k - n <? n) eqn:E; [|discriminate].
    apply Nat.ltb_lt in E. simpl in H. split; [lia|congruence].
Qed.

End SlicerFacts.

(** X19. The slicers of [InitFilter] share out the channels of the fused
    pixel: a channel lies in the range of some slicer exactly when it lies
    between 1 and the size announced by [OutputSize] for the functor that
    [InitFilter] configures, and no channel lies in the ranges of two
    slicers. *)
Theorem slicers_share_out_the_output (m_Outputs : Z) (rb ob : N)
    (pairs : IndicesPairList) (sarNoData optNoData : float32) :
  (0 <= m_Outputs < DecloudTimeSeriesPreProcessor.int_max)%Z ->
  (Z.to_N m_Outputs * (rb + ob) + 1 < uint_range)%N ->
  exists sarSlicers optSlicers,
    DecloudTimeSeriesPreProcessor.InitFilter_slicers m_Outputs rb ob
    = Some (sarSlicers, optSlicers)
    /\ (forall c,
          (exists r, In r (sarSlicers ++ optSlicers) /\ Channels.holds r c)
          <-> (1 <= c <= PixelFunction.OutputSize
                           (PixelFunction.SetParameters pairs rb ob
                              sarNoData optNoData (Z.to_N m_Outputs)))%N)
    /\ (forall i j r1 r2 c,
          nth_error (sarSlicers ++ optSlicers) i = Some r1 ->
          nth_error (sarSlicers ++ optSlicers) j = Some r2 ->
          Channels.holds r1 c -> Channels.holds r2 c -> i = j).
Proof.
  intros Hm Hfit.
  set (n := Z.to_nat m_Outputs).
  set (w := (rb + ob)%N).
  assert (Hn : N.of_nat n = Z.to_N m_Outputs) by (unfold n; lia).
  exists (map (Layout.radar_range rb ob) (seq 0 n)),
         (map (Layout.optical_range rb ob) (seq 0 n)).
  split; [|split].
  - unfold DecloudTimeSeriesPreProcessor.InitFilter_slicers.
    apply (@LayoutFacts.slicers_loop_spec m_Outputs rb ob Hm Hfit n 0 [] []).
    unfold n. lia.
  - assert (Hsize : PixelFunction.OutputSize
                      (PixelFunction.SetParameters pairs rb ob sarNoData
                         optNoData (Z.to_N m_Outputs))
                    = (N.of_nat n * w)%N).
    { unfold PixelFunction.OutputSize. cbn [PixelFunction.m_NbOutputImages
        PixelFunction.m_SARNbBands PixelFunction.m_OptNbBands].
      rewrite <- Hn in *. fold w in Hfit |- *.
      destruct (N.eq_dec (N.of_nat n) 0) as [E|E].
      - rewrite E. reflexivity.
      - assert (w < uint_range)%N by (unfold uint_range in *; nia).
        rewrite (@wrap_small w) by assumption.
        apply wrap_small. lia. }
    rewrite Hsize. intros c. split.
    + intros (r & Hin & Hc). apply In_nth_error in Hin.
      destruct Hin as (k & Hk).
      apply SlicerFacts.nth_error_slices in Hk.
      unfold Channels.holds in Hc. fold w in Hk.
      destruct Hk as [(Hk & ->)|(Hk & ->)];
        unfold Layout.radar_range, Layout.optical_range in Hc;
        cbn [DecloudTimeSeriesPreProcessor.FirstChannel
             DecloudTimeSeriesPreProcessor.LastChannel] in Hc;
        fold w in Hc.
      * assert ((N.of_nat k + 1) * w <= N.of_nat n * w)%N
          by (apply N.mul_le_mono_r; lia).
        unfold w in *. lia.
      * assert ((N.of_nat (k - n) + 1) * w <= N.of_nat n * w)%N
          by (apply N.mul_le_mono_r; lia).
        unfold w in *. lia.
    + intros Hc.
      assert (Hw : w <> 0%N) by (intros E; rewrite E in Hc; lia).
      set (q := ((c - 1) / w)%N). set (t := ((c - 1) mod w)%N).
      assert (Hdiv : (c - 1 = w * q + t)%N) by (apply N.div_mod; exact Hw).
      assert (Ht : (t < w)%N) by (apply N.mod_lt; exact Hw).
      assert (Hq : (q < N.of_nat n)%N).
      { destruct (N.lt_ge_cases q (N.of_nat n)) as [H|H]; [exact H|].
        assert (N.of_nat n * w <= q * w)%N by (apply N.mul_le_mono_r; lia).
        lia. }
      assert (Hseq : In (N.to_nat q) (seq 0 n)) by (apply in_seq; lia).
      destruct (N.lt_ge_cases t rb) as [Hr|Hr].
      * exists (Layout.radar_range rb ob (N.to_nat q)). split.
        -- apply in_or_app. left. now apply in_map.
        -- unfold Channels.holds, Layout.radar_range.
           cbn [DecloudTimeSeriesPreProcessor.FirstChannel
                DecloudTimeSeriesPreProcessor.LastChannel].
           rewrite N2Nat.id. fold w. lia.
      * exists (Layout.optical_range rb ob (N.to_nat q)). split.
        -- apply in_or_app. right. now apply in_map.
        -- unfold Channels.holds, Layout.optical_range.
           cbn [DecloudTimeSeriesPreProcessor.FirstChannel
                DecloudTimeSeriesPreProcessor.LastChannel].
           rewrite N2Nat.id. fold w. unfold w in *. lia.
  - intros i j r1 r2 c Hi Hj H1 H2.
    apply SlicerFacts.nth_error_slices in Hi.
    apply SlicerFacts.nth_error_slices in Hj.
    unfold Channels.holds in H1, H2.
    destruct Hi as [(Hi & ->)|(Hi & ->)];
      destruct Hj as [(Hj & ->)|(Hj & ->)];
      unfold Layout.radar_range, Layout.optical_range in H1, H2;
      cbn [DecloudTimeSeriesPreProcessor.FirstChannel
           DecloudTimeSeriesPreProcessor.LastChannel] in H1, H2.
    + assert (E : N.of_nat i = N.of_nat j)
        by (apply (@SlicerFacts.slot_unique (rb + ob) _ _ c); lia).
      lia.
    + assert (E : N.of_nat i = N.of_nat (j - n))
        by (apply (@SlicerFacts.slot_unique (rb + ob) _ _ c); lia).
      rewrite <- E in H2. lia.
    + assert (E : N.of_nat (i - n) = N.of_nat j)
        by (apply (@SlicerFacts.slot_unique (rb + ob) _ _ c); lia).
      rewrite E in H1. lia.
    + assert (E : N.of_nat (i - n) = N.of_nat (j - n))
        by (apply (@SlicerFacts.slot_unique (rb + ob) _ _ c); lia).
      lia.
Qed.

(** Two radar bands, one optical band and two outputs: the ranges [1,2],
    [4,5], [3,3] and [6,6] share out the channels 1 to 6. *)
Lemma slicers_share_out_the_output_witness :
  exists sarSlicers optSlicers,
    DecloudTimeSeriesPreProcessor.InitFilter_slicers 2 2 1
    = Some (sarSlicers, optSlicers)
    /\ (forall c,
          (exists r, In r (sarSlicers ++ optSlicers) /\ Channels.holds r c)
          <-> (1 <= c <= PixelFunction.OutputSize (Example.functor 2))%N)
    /\ (forall i j r1 r2 c,
          nth_error (sarSlicers ++ optSlicers) i = Some r1 ->
          nth_error (sarSlicers ++ optSlicers) j = Some r2 ->
          Channels.holds r1 c -> Channels.holds r2 c -> i = j).
Proof.
  apply (@slicers_share_out_the_output 2 2 1 [(0, 0); (1, 0)]%N
           (Z2F 0) (Z2F (-9999))).
  - vm_compute. split; [discriminate|reflexivity].
  - vm_compute. reflexivity.
Defined.
